(** * textlayout: pattern model, default substitution, shaper dispatch,
      Myanmar reordering and Graphite language features

    A shallow embedding of the parts of the Go sources that the
    specification talks about:

    - [Graphite]   : [graphite/table_sill.go] ([TableSill.GetFeatures]);
    - [Shaper]     : the complex-shaper dispatch ([hb_ot_shape_complex_categorize]);
    - [Myanmar]    : the Myanmar syllable reordering;
    - [Init]       : configuration loading ([initLoadOwnConfig]);
    - [Fontconfig] : [Pattern] and its operations, [Hash], [SubstituteDefault],
                     [addFullname], and the size a pango font key reads;
    - [Truetype]   : tags and their names;
    - [Type1c]     : the subset prefix of a font name.

    Machine integers are [Z]; [float64] is the kernel's binary64 type
    [PrimFloat.float]; Go maps are [gmap]; slices are lists. *)

From Stdlib Require Import ZArith Lia PrimFloat.
From stdpp Require Import gmap list strings sorting.

Local Open Scope Z_scope.

(** ** Sorting as the Go runtime does it on short slices

    [sort.Slice(s, less)] runs an insertion sort on slices shorter than
    twelve elements: each element travels left while it is [less] than
    its left neighbour.  On the already sorted prefix this places [x]
    behind every element that is not greater than [x]. *)

Section SortSlice.
Context {A : Type} (less : A → A → bool).

Fixpoint insertSorted (x : A) (l : list A) : list A :=
  match l with
  | [] => [x]
  | y :: l' => if less x y then x :: y :: l' else y :: insertSorted x l'
  end.

Definition sortSlice (l : list A) : list A :=
  foldl (λ acc x, insertSorted x acc) [] l.

Lemma insertSorted_Permutation x l : insertSorted x l ≡ₚ x :: l.
Proof.
  induction l as [|y l IH]; simpl; [done|].
  destruct (less x y); [done|]. rewrite IH. apply Permutation_swap.
Qed.

Lemma foldl_insertSorted_Permutation l acc :
  foldl (λ acc x, insertSorted x acc) acc l ≡ₚ acc ++ l.
Proof.
  revert acc. induction l as [|x l IH]; intros acc; simpl.
  - by rewrite app_nil_r.
  - rewrite IH, insertSorted_Permutation.
    by rewrite (Permutation_middle acc l x).
Qed.

Lemma sortSlice_Permutation l : sortSlice l ≡ₚ l.
Proof. apply (foldl_insertSorted_Permutation l []). Qed.

Lemma sortSlice_elem_of x l : x ∈ sortSlice l ↔ x ∈ l.
Proof. by rewrite sortSlice_Permutation. Qed.
End SortSlice.

(** Sortedness of the result when [less] compares an integer key. *)
Section SortSliceKey.
Context {A : Type} (key : A → Z).

Definition lessKey (a b : A) : bool := bool_decide (key a < key b).
Definition leKey (a b : A) : Prop := key a ≤ key b.

Lemma insertSorted_Sorted x l :
  Sorted leKey l → Sorted leKey (insertSorted lessKey x l).
Proof.
  induction 1 as [|y l Hl IH Hhd]; simpl.
  - repeat constructor.
  - unfold lessKey at 1. case_bool_decide as Hxy.
    + constructor; [by constructor|]. constructor. unfold leKey. lia.
    + constructor; [done|].
      destruct l as [|z l]; simpl.
      * constructor. unfold leKey. lia.
      * unfold lessKey. case_bool_decide.
        -- constructor. unfold leKey. lia.
        -- constructor. by inversion Hhd.
Qed.

Lemma sortSlice_Sorted l : Sorted leKey (sortSlice lessKey l).
Proof.
  unfold sortSlice.
  cut (∀ acc, Sorted leKey acc →
         Sorted leKey (foldl (λ acc x, insertSorted lessKey x acc) acc l)).
  { intros H. apply H. constructor. }
  induction l as [|x l IH]; intros acc Hacc; simpl; [done|].
  apply IH. by apply insertSorted_Sorted.
Qed.
End SortSliceKey.

(** ** Masks on 32-bit words

    [x & (2^k - 1)] keeps the low [k] bits, [x & (2^32 - 2^k)] clears
    them. *)

Lemma land_low_mask (x k : Z) : 0 ≤ k → Z.land x (2 ^ k - 1) = x mod 2 ^ k.
Proof.
  intros Hk. rewrite <- Z.land_ones by done.
  by rewrite Z.ones_equiv, <- Z.sub_1_r.
Qed.

Lemma testbit_above (x n : Z) :
  0 ≤ x < 2 ^ 32 → 32 ≤ n → Z.testbit x n = false.
Proof.
  intros Hx Hn. destruct (decide (x = 0)) as [->|Hne]; [apply Z.bits_0|].
  apply Z.bits_above_log2; [lia|].
  assert (Z.log2 x < 32); [|lia]. apply Z.log2_lt_pow2; lia.
Qed.

Lemma land_high_mask (x k : Z) :
  0 ≤ x < 2 ^ 32 → 0 ≤ k ≤ 32 →
  Z.land x (2 ^ 32 - 2 ^ k) = x - x mod 2 ^ k.
Proof.
  intros Hx Hk.
  assert (E1 : 2 ^ 32 - 2 ^ k = Z.shiftl (Z.ones (32 - k)) k).
  { rewrite Z.shiftl_mul_pow2, Z.ones_equiv, <- Z.sub_1_r by lia.
    rewrite Z.mul_sub_distr_r, <- Z.pow_add_r by lia.
    replace (32 - k + k) with 32 by lia. lia. }
  assert (E2 : x - x mod 2 ^ k = Z.shiftl (Z.shiftr x k) k).
  { rewrite Z.shiftl_mul_pow2, Z.shiftr_div_pow2 by lia.
    pose proof (Z.div_mod x (2 ^ k)). lia. }
  rewrite E1, E2. apply Z.bits_inj'. intros n Hn.
  rewrite Z.land_spec.
  destruct (decide (n < k)) as [Hlt|Hge].
  - rewrite !Z.shiftl_spec_low by done. apply andb_false_r.
  - rewrite !Z.shiftl_spec, Z.shiftr_spec by lia.
    replace (n - k + k) with n by lia.
    destruct (decide (n < 32)).
    + rewrite Z.ones_spec_low by lia. apply andb_true_r.
    + rewrite testbit_above by lia. done.
Qed.

Lemma land_low_zero (x k m : Z) :
  0 ≤ k → x mod 2 ^ k = 0 → 0 ≤ m < 2 ^ k → Z.land x m = 0.
Proof.
  intros Hk Hx Hm.
  rewrite <- (Z.mod_small m (2 ^ k)) by done.
  rewrite <- (Z.land_ones m k) by done.
  rewrite (Z.land_comm m), Z.land_assoc, Z.land_ones, Hx by done.
  apply Z.land_0_l.
Qed.

(** ** graphite/table_sill.go *)

Module Graphite.

(** [Tag] and the language codes are [uint32]. *)
Definition Tag := Z.

(** replace the trailing space by zero *)
Definition spaceToZero (x : Tag) : Z :=
  if x =? 0x20202020 then 0
  else if Z.land x 0x00FFFFFF =? 0x00202020 then Z.land x 0xFF000000
  else if Z.land x 0x0000FFFF =? 0x00002020 then Z.land x 0xFFFF0000
  else if Z.land x 0x000000FF =? 0x00000020 then Z.land x 0xFFFFFF00
  else x.

Definition zeroToSpace (x : Z) : Tag :=
  if x =? 0 then 0x20202020
  else if Z.land x 0x00FFFFFF =? 0 then Z.land x 0xFF202020
  else if Z.land x 0x0000FFFF =? 0 then Z.land x 0xFFFF2020
  else if Z.land x 0x000000FF =? 0 then Z.land x 0xFFFFFF20
  else x.

Record languageSetting := {
  FeatureId : Z;   (* uint32 *)
  Value : Z        (* int16 *)
}.

Record languageRecord := {
  settings : list languageSetting;
  langcode : Z     (* uint32 *)
}.

Definition TableSill := list languageRecord.

Record FeatureValue := {
  Id : Tag;
  Flags : Z;       (* uint16 *)
  FValue : Z       (* int16 *)
}.

Definition FeaturesValue := list FeatureValue.

Section WithFeat.
(** The feature table [TableFeat], its entries and its two lookups
    live in a file that is not among the sources; they are taken as
    they are used here. *)
Variable TableFeat : Type.
Variable feature : Type.
Variable flags : feature → Z.
Variable findFeature : TableFeat → Z → option feature.
Variable defaultFeatures : TableFeat → FeaturesValue.

(** resolve the feature *)
Definition applyValues (lr : languageRecord) (features : TableFeat)
  : FeaturesValue :=
  let out :=
    foldl (λ out set,
             match findFeature features (FeatureId set) with
             | Some feat =>
                 out ++ [ {| Id := zeroToSpace (FeatureId set);
                             Flags := flags feat;
                             FValue := Value set |} ]
             | None => out
             end) [] (settings lr) in
  sortSlice (lessKey Id) out.

(** GetFeatures selects the features and values for the given
    language, or the default ones if the language is not found. *)
Definition GetFeatures (si : TableSill) (langname : Z)
    (features : TableFeat) : FeaturesValue :=
  let langname := spaceToZero langname in
  match List.find (λ rec, langcode rec =? langname) si with
  | Some rec => applyValues rec features
  | None => defaultFeatures features
  end.

(** A value produced for [set]: the feature is in the table. *)
Definition resolved (features : TableFeat) (set : languageSetting)
    (fv : FeatureValue) : Prop :=
  ∃ feat, findFeature features (FeatureId set) = Some feat ∧
    fv = {| Id := zeroToSpace (FeatureId set);
            Flags := flags feat; FValue := Value set |}.

Lemma applyValues_collect features (l : list languageSetting) acc fv :
  fv ∈ foldl (λ out set,
             match findFeature features (FeatureId set) with
             | Some feat =>
                 out ++ [ {| Id := zeroToSpace (FeatureId set);
                             Flags := flags feat;
                             FValue := Value set |} ]
             | None => out
             end) acc l →
  fv ∈ acc ∨ ∃ set, set ∈ l ∧ resolved features set fv.
Proof.
  revert acc. induction l as [|s l IH]; intros acc; simpl; [by left|].
  intros Hin. apply IH in Hin as [Hin | (set & Hset & Hres)].
  - destruct (findFeature features (FeatureId s)) as [feat|] eqn:Hf;
      [|by left].
    apply elem_of_app in Hin as [Hin | Hin]; [by left|].
    apply list_elem_of_singleton in Hin. right. exists s. split; [left|].
    exists feat. by split.
  - right. exists set. split; [by right | done].
Qed.

Lemma applyValues_elem_of lr features fv :
  fv ∈ applyValues lr features →
  ∃ set, set ∈ settings lr ∧ resolved features set fv.
Proof.
  unfold applyValues. rewrite sortSlice_elem_of. intros Hin.
  apply applyValues_collect in Hin as [Hin | Hin]; [|done].
  by apply elem_of_nil in Hin.
Qed.

Lemma applyValues_Sorted lr features :
  Sorted (leKey Id) (applyValues lr features).
Proof. apply sortSlice_Sorted. Qed.

(** C10. When some language record of the Sill table carries the
    space-normalised language code, [GetFeatures] answers with the
    values of the first such record: the list is sorted in
    nondecreasing order of feature [Id], and each of its entries was
    produced from a setting of that record whose feature
    [findFeature] finds in the font's feature table. *)
Theorem GetFeatures_matched_sorted_present
    (si : TableSill) (langname : Z) (features : TableFeat) :
  (∃ rec, rec ∈ si ∧ langcode rec = spaceToZero langname) →
  ∃ rec, rec ∈ si ∧ langcode rec = spaceToZero langname ∧
    GetFeatures si langname features = applyValues rec features ∧
    Sorted (λ a b, Id a ≤ Id b) (GetFeatures si langname features) ∧
    ∀ fv, fv ∈ GetFeatures si langname features →
      ∃ set, set ∈ settings rec ∧
        is_Some (findFeature features (FeatureId set)) ∧
        resolved features set fv.
Proof.
  intros (rec0 & Hin0 & Hcode0). unfold GetFeatures.
  destruct (List.find _ si) as [rec|] eqn:Hfind.
  - apply find_some in Hfind as [Hin Hcode].
    apply Z.eqb_eq in Hcode. apply list_elem_of_In in Hin.
    exists rec. repeat split; try done.
    + apply applyValues_Sorted.
    + intros fv Hfv. apply applyValues_elem_of in Hfv as (set & Hs & Hr).
      exists set. repeat split; try done.
      destruct Hr as (feat & -> & _). by eexists.
  - exfalso. apply list_elem_of_In in Hin0.
    pose proof (find_none _ _ Hfind _ Hin0) as Hn. simpl in Hn.
    apply Z.eqb_neq in Hn. done.
Qed.

(** *** What [applyValues] and [GetFeatures] return in general *)

(** The value a setting resolves to, when the font has its feature. *)
Definition resolve (features : TableFeat) (set : languageSetting)
  : option FeatureValue :=
  feat ← findFeature features (FeatureId set);
  Some {| Id := zeroToSpace (FeatureId set);
          Flags := flags feat; FValue := Value set |}.

Lemma applyValues_loop features (l : list languageSetting) acc :
  foldl (λ out set,
           match findFeature features (FeatureId set) with
           | Some feat =>
               out ++ [ {| Id := zeroToSpace (FeatureId set);
                           Flags := flags feat;
                           FValue := Value set |} ]
           | None => out
           end) acc l
  = acc ++ omap (resolve features) l.
Proof.
  revert acc. induction l as [|s l IH]; intros acc; simpl.
  - by rewrite app_nil_r.
  - rewrite IH. unfold resolve at 2.
    destruct (findFeature features (FeatureId s)); simpl; [|done].
    by rewrite <- app_assoc.
Qed.

(** X3.  [applyValues] loses and invents nothing: its result holds, sorted
    by [Id], one entry for each setting of the record whose feature
    the font has, and no other.  The settings of unknown features are
    dropped silently, so the result is never longer than the list of
    settings, and as long when every feature is known. *)
Theorem applyValues_resolved_settings
    (lr : languageRecord) (features : TableFeat) :
  applyValues lr features ≡ₚ omap (resolve features) (settings lr) ∧
  Sorted (λ a b, Id a ≤ Id b) (applyValues lr features) ∧
  (length (applyValues lr features) ≤ length (settings lr))%nat ∧
  ((∀ set, set ∈ settings lr →
      is_Some (findFeature features (FeatureId set))) →
   length (applyValues lr features) = length (settings lr)).
Proof.
  assert (Hperm :
    applyValues lr features ≡ₚ omap (resolve features) (settings lr)).
  { unfold applyValues. rewrite sortSlice_Permutation.
    by rewrite applyValues_loop. }
  split; [done|]. split; [apply applyValues_Sorted|].
  rewrite Hperm. split.
  - generalize (settings lr). intros l.
    induction l as [|s l IH]; [done|].
    cbn [omap list_omap length].
    destruct (resolve features s); cbn [length]; lia.
  - generalize (settings lr). intros l Hall.
    induction l as [|s l IH]; simpl; [done|].
    destruct (Hall s) as [feat Hfeat]; [left|].
    unfold resolve at 1. rewrite Hfeat. simpl. f_equal.
    apply IH. intros set Hset. apply Hall. by right.
Qed.

(** X4.  When no record of the Sill table carries the space-normalised
    language code (in particular on an empty table), [GetFeatures]
    answers with the default features of the font, whatever the
    records hold. *)
Theorem GetFeatures_unknown_language_defaults
    (si : TableSill) (langname : Z) (features : TableFeat) :
  (∀ rec, rec ∈ si → langcode rec ≠ spaceToZero langname) →
  GetFeatures si langname features = defaultFeatures features.
Proof.
  intros Hnone. unfold GetFeatures.
  destruct (List.find _ si) as [rec|] eqn:Hfind; [|done].
  apply find_some in Hfind as [Hin Hcode].
  apply Z.eqb_eq in Hcode. apply list_elem_of_In in Hin.
  by destruct (Hnone rec Hin).
Qed.

(** X5.  The first record that carries the space-normalised language code
    wins: the records behind it are never consulted, also when they
    carry the same code. *)
Theorem GetFeatures_first_match
    (si1 si2 : list languageRecord) (rec : languageRecord)
    (langname : Z) (features : TableFeat) :
  langcode rec = spaceToZero langname →
  (∀ r, r ∈ si1 → langcode r ≠ spaceToZero langname) →
  GetFeatures (si1 ++ rec :: si2) langname features
  = applyValues rec features.
Proof.
  intros Hcode Hbefore. unfold GetFeatures.
  induction si1 as [|r si1 IH]; simpl.
  - by rewrite Hcode, Z.eqb_refl.
  - destruct (langcode r =? spaceToZero langname) eqn:Hr.
    + apply Z.eqb_eq in Hr. destruct (Hbefore r); [left | done].
    + apply IH. intros r' Hr'. apply Hbefore. by right.
Qed.
End WithFeat.

(** A font with the features 'kern' and 'lig\0', and a Sill table with
    a record for 'en  ' (stored as 'en\0\0') that sets 'kern', an
    unknown feature and 'lig\0'.  ([zeroToSpace] masks with [&], so
    'lig\0' comes back as it went in.) *)
Definition demoFeat : list (Z * Z) := [(0x6B65726E, 1); (0x6C696700, 2)].
Definition demoFind (tf : list (Z * Z)) (id : Z) : option (Z * Z) :=
  List.find (λ e, e.1 =? id) tf.
Definition demoSill : TableSill :=
  [ {| settings := []; langcode := 0x66720000 |};
    {| settings := [ {| FeatureId := 0x6B65726E; Value := 0 |};
                     {| FeatureId := 0x7A7A7A7A; Value := 1 |};
                     {| FeatureId := 0x6C696700; Value := 3 |} ];
       langcode := 0x656E0000 |} ].

Example GetFeatures_demo :
  GetFeatures (list (Z * Z)) (Z * Z) snd demoFind (λ _, []) demoSill
    0x656E2020 demoFeat
  = [ {| Id := 0x6B65726E; Flags := 1; FValue := 0 |};
      {| Id := 0x6C696700; Flags := 2; FValue := 3 |} ].
Proof. vm_compute. reflexivity. Qed.

Lemma GetFeatures_matched_witness :
  Sorted (λ a b, Id a ≤ Id b)
    (GetFeatures (list (Z * Z)) (Z * Z) snd demoFind (λ _, []) demoSill
       0x656E2020 demoFeat).
Proof.
  destruct (GetFeatures_matched_sorted_present (list (Z * Z)) (Z * Z) snd
              demoFind (λ _, []) demoSill 0x656E2020 demoFeat)
    as (rec & _ & _ & _ & Hsorted & _); [|exact Hsorted].
  exists {| settings := [ {| FeatureId := 0x6B65726E; Value := 0 |};
                          {| FeatureId := 0x7A7A7A7A; Value := 1 |};
                          {| FeatureId := 0x6C696700; Value := 3 |} ];
            langcode := 0x656E0000 |}.
  split; [|reflexivity]. right. left.
Defined.


(** *** The two conversions of a language or feature tag *)

Lemma spaceToZero_arith (x : Z) :
  0 ≤ x < 2 ^ 32 →
  spaceToZero x =
    if x =? 0x20202020 then 0
    else if x mod 2 ^ 24 =? 0x202020 then x - x mod 2 ^ 24
    else if x mod 2 ^ 16 =? 0x2020 then x - x mod 2 ^ 16
    else if x mod 2 ^ 8 =? 0x20 then x - x mod 2 ^ 8
    else x.
Proof.
  intros Hx. unfold spaceToZero.
  rewrite <- (land_high_mask x 24), <- (land_high_mask x 16),
    <- (land_high_mask x 8) by lia.
  rewrite <- (land_low_mask x 24), <- (land_low_mask x 16),
    <- (land_low_mask x 8) by lia.
  reflexivity.
Qed.

(** X1.  On a 32-bit tag [spaceToZero] returns a 32-bit tag whose last byte
    is never a space; a tag that does not end in a space is returned as
    it is, and so the conversion is idempotent. *)
Theorem spaceToZero_strips_trailing_space (x : Z) :
  0 ≤ x < 2 ^ 32 →
  0 ≤ spaceToZero x < 2 ^ 32 ∧
  spaceToZero x mod 256 ≠ 0x20 ∧
  (x mod 256 ≠ 0x20 → spaceToZero x = x) ∧
  spaceToZero (spaceToZero x) = spaceToZero x.
Proof.
  intros Hx.
  assert (Hfix : ∀ y, 0 ≤ y < 2 ^ 32 → y mod 256 ≠ 0x20 → spaceToZero y = y).
  { intros y Hy Hb. rewrite spaceToZero_arith by done.
    change (2 ^ 24) with 16777216. change (2 ^ 16) with 65536.
    change (2 ^ 8) with 256.
    repeat case_match; try done;
      repeat match goal with
             | H : (_ =? _) = true |- _ => apply Z.eqb_eq in H
             | H : (_ =? _) = false |- _ => clear H
             end; exfalso; Z.div_mod_to_equations; lia. }
  assert (Hres : 0 ≤ spaceToZero x < 2 ^ 32 ∧ spaceToZero x mod 256 ≠ 0x20).
  { rewrite spaceToZero_arith by done.
    change (2 ^ 32) with 4294967296 in *.
    change (2 ^ 24) with 16777216. change (2 ^ 16) with 65536.
    change (2 ^ 8) with 256.
    repeat case_match;
      repeat match goal with
             | H : (_ =? _) = true |- _ => apply Z.eqb_eq in H
             | H : (_ =? _) = false |- _ => apply Z.eqb_neq in H
             end; Z.div_mod_to_equations; lia. }
  destruct Hres as [Hr Hb]. repeat split; try done; try lia.
  - by apply Hfix.
  - by apply Hfix.
Qed.

Lemma spaceToZero_strips_witness :
  spaceToZero 0x656E2020 mod 256 ≠ 0x20.
Proof.
  apply (spaceToZero_strips_trailing_space 0x656E2020). lia.
Defined.

(** X2.  [zeroToSpace] masks with [&] where the padding would need [|]: on
    a 32-bit word it puts spaces only in place of the all-zero word,
    and returns every other word as it is.  Trailing zeros are never
    turned back into spaces, so the conversion does not undo
    [spaceToZero] on a tag that ends in one to three spaces. *)
Theorem zeroToSpace_identity_unless_zero (x : Z) :
  0 ≤ x < 2 ^ 32 →
  zeroToSpace x = (if x =? 0 then 0x20202020 else x) ∧
  (x mod 256 = 0x20 → x ≠ 0x20202020 → zeroToSpace (spaceToZero x) ≠ x).
Proof.
  intros Hx.
  assert (Hz : ∀ y, 0 ≤ y < 2 ^ 32 →
            zeroToSpace y = if y =? 0 then 0x20202020 else y).
  { clear x Hx. intros x Hx. unfold zeroToSpace.
    destruct (x =? 0); [done|].
    rewrite (land_low_mask x 24 ltac:(lia) : Z.land x 0x00FFFFFF = _).
    rewrite (land_low_mask x 16 ltac:(lia) : Z.land x 0x0000FFFF = _).
    rewrite (land_low_mask x 8 ltac:(lia) : Z.land x 0x000000FF = _).
    change 0xFF202020 with (Z.lor (2 ^ 32 - 2 ^ 24) 0x202020).
    change 0xFFFF2020 with (Z.lor (2 ^ 32 - 2 ^ 16) 0x2020).
    change 0xFFFFFF20 with (Z.lor (2 ^ 32 - 2 ^ 8) 0x20).
    rewrite !Z.land_lor_distr_r, !land_high_mask by lia.
    destruct (x mod 2 ^ 24 =? 0) eqn:E24.
    { apply Z.eqb_eq in E24. rewrite (land_low_zero x 24) by lia.
      rewrite E24, Z.lor_0_r. lia. }
    destruct (x mod 2 ^ 16 =? 0) eqn:E16.
    { apply Z.eqb_eq in E16. rewrite (land_low_zero x 16) by lia.
      rewrite E16, Z.lor_0_r. lia. }
    destruct (x mod 2 ^ 8 =? 0) eqn:E8; [|done].
    apply Z.eqb_eq in E8. rewrite (land_low_zero x 8) by lia.
    rewrite E8, Z.lor_0_r. lia. }
  split; [by apply Hz|]. intros Hb Hne.
  assert (Hs : 0 ≤ spaceToZero x < 2 ^ 32 ∧ spaceToZero x mod 256 ≠ 0x20).
  { rewrite spaceToZero_arith by done.
    change (2 ^ 32) with 4294967296 in *.
    change (2 ^ 24) with 16777216. change (2 ^ 16) with 65536.
    change (2 ^ 8) with 256.
    repeat case_match;
      repeat match goal with
             | H : (_ =? _) = true |- _ => apply Z.eqb_eq in H
             | H : (_ =? _) = false |- _ => apply Z.eqb_neq in H
             end; Z.div_mod_to_equations; lia. }
  destruct Hs as (Hr & Hlast).
  rewrite (Hz _ Hr). destruct (spaceToZero x =? 0); [lia|].
  intros Heq. rewrite Heq in Hlast. lia.
Qed.

Lemma zeroToSpace_identity_witness :
  zeroToSpace (spaceToZero 0x656E2020) ≠ 0x656E2020.
Proof.
  apply (zeroToSpace_identity_unless_zero 0x656E2020); [lia|done|done].
Defined.

Lemma GetFeatures_unknown_language_witness :
  GetFeatures (list (Z * Z)) (Z * Z) snd demoFind
    (λ _, [ {| Id := 0x6B65726E; Flags := 1; FValue := 1 |} ])
    demoSill 0x64652020 demoFeat
  = [ {| Id := 0x6B65726E; Flags := 1; FValue := 1 |} ].
Proof.
  apply (GetFeatures_unknown_language_defaults (list (Z * Z)) (Z * Z) snd
           demoFind
           (λ _, [ {| Id := 0x6B65726E; Flags := 1; FValue := 1 |} ])
           demoSill 0x64652020 demoFeat).
  intros rec Hin. unfold demoSill in Hin.
  apply elem_of_cons in Hin as [-> | Hin]; [done|].
  apply elem_of_cons in Hin as [-> | Hin]; [done|].
  by apply elem_of_nil in Hin.
Defined.

Lemma GetFeatures_first_match_witness :
  GetFeatures (list (Z * Z)) (Z * Z) snd demoFind (λ _, [])
    ([ {| settings := []; langcode := 0x66720000 |} ]
     ++ {| settings := [ {| FeatureId := 0x6C696700; Value := 3 |} ];
           langcode := 0x656E0000 |}
     :: [ {| settings := []; langcode := 0x656E0000 |} ])
    0x656E2020 demoFeat
  = applyValues (list (Z * Z)) (Z * Z) snd demoFind
      {| settings := [ {| FeatureId := 0x6C696700; Value := 3 |} ];
         langcode := 0x656E0000 |} demoFeat.
Proof.
  apply (GetFeatures_first_match (list (Z * Z)) (Z * Z) snd demoFind
           (λ _, [])); [reflexivity|].
  intros r Hin. apply list_elem_of_singleton in Hin. by subst r.
Defined.
End Graphite.

(** ** Complex-shaper dispatch ([hb_ot_shape_complex_categorize]) *)

Module Shaper.

(** The scripts the dispatch names.  In Go they are distinct constants
    of [language.Script]; every other script falls to [default]. *)
Inductive Script :=
| Arabic | Syriac | Thai | Lao | Hangul | Hebrew
| Bengali | Devanagari | Gujarati | Gurmukhi | Kannada
| Malayalam | Oriya | Tamil | Telugu | Sinhala
| Khmer | Myanmar | Myanmar_Zawgyi
| Tibetan | Mongolian | Buhid | Hanunoo | Tagalog
| Tagbanwa | Limbu | Tai_Le | Buginese | Kharoshthi
| Syloti_Nagri | Tifinagh | Balinese | Nko | Phags_Pa
| Cham | Kayah_Li | Lepcha | Rejang | Saurashtra
| Sundanese | Egyptian_Hieroglyphs | Javanese | Kaithi
| Meetei_Mayek | Tai_Tham | Tai_Viet | Batak
| Brahmi | Mandaic | Chakma | Miao | Sharada
| Takri | Duployan | Grantha | Khojki | Khudawadi
| Mahajani | Manichaean | Modi | Pahawh_Hmong
| Psalter_Pahlavi | Siddham | Tirhuta | Ahom | Multani
| Adlam | Bhaiksuki | Marchen | Newa | Masaram_Gondi
| Soyombo | Zanabazar_Square | Dogra | Gunjala_Gondi
| Hanifi_Rohingya | Makasar | Medefaidrin | Old_Sogdian
| Sogdian | Elymaic | Nandinagari | Nyiakeng_Puachue_Hmong
| Wancho | Chorasmian | Dives_Akuru
| OtherScript (tag : Z).

(** The shaper variants ([hb_ot_complex_shaper_t] implementations). *)
Inductive ComplexShaper :=
| complexShapedDefault (dumb : bool)
| complex_shaper_arabic
| complex_shaper_thai
| complex_shaper_hangul
| complex_shaper_hebrew
| complex_shaper_indic
| complex_shaper_use
| complex_shaper_khmer
| complex_shaper_myanmar
| complex_shaper_myanmar_zawgyi.

(** A tag packs four bytes, most significant first. *)
Definition newTag (a b c d : Z) : Z :=
  Z.lor (Z.lor (Z.lor (Z.shiftl a 24) (Z.shiftl b 16)) (Z.shiftl c 8)) d.

Definition tag_DFLT : Z := Eval cbv in newTag 68 70 76 84.   (* 'D','F','L','T' *)
Definition tag_latn : Z := Eval cbv in newTag 108 97 116 110. (* 'l','a','t','n' *)
Definition tag_mymr : Z := Eval cbv in newTag 109 121 109 114. (* 'm','y','m','r' *)
Definition HB_OT_TAG_DEFAULT_SCRIPT : Z := tag_DFLT.

Section Dispatch.
(** The text direction and its [isHorizontal] test are declared
    outside the sources at hand. *)
Variable Direction : Type.
Variable isHorizontal : Direction → bool.

(** What the dispatch reads of the planner. *)
Record planner := {
  script : Script;
  direction : Direction;
  chosen_script0 : Z      (* planner.map_.chosen_script[0] *)
}.

Definition defaultShaper : ComplexShaper := complexShapedDefault false.

Definition hb_ot_shape_complex_categorize (p : planner) : ComplexShaper :=
  match script p with
  | Arabic | Syriac =>
      if (negb (chosen_script0 p =? HB_OT_TAG_DEFAULT_SCRIPT)
          || match script p with Arabic => true | _ => false end)
         && isHorizontal (direction p)
      then complex_shaper_arabic
      else defaultShaper
  | Thai | Lao => complex_shaper_thai
  | Hangul => complex_shaper_hangul
  | Hebrew => complex_shaper_hebrew
  | Bengali | Devanagari | Gujarati | Gurmukhi | Kannada
  | Malayalam | Oriya | Tamil | Telugu | Sinhala =>
      if (chosen_script0 p =? tag_DFLT) || (chosen_script0 p =? tag_latn)
      then defaultShaper
      else if Z.land (chosen_script0 p) 0x000000FF =? 51 (* '3' *)
      then complex_shaper_use
      else complex_shaper_indic
  | Khmer => complex_shaper_khmer
  | Myanmar =>
      if (chosen_script0 p =? tag_DFLT) || (chosen_script0 p =? tag_latn)
         || (chosen_script0 p =? tag_mymr)
      then defaultShaper
      else complex_shaper_myanmar
  | Myanmar_Zawgyi => complex_shaper_myanmar_zawgyi
  | OtherScript _ => defaultShaper
  | _ =>
      if (chosen_script0 p =? tag_DFLT) || (chosen_script0 p =? tag_latn)
      then defaultShaper
      else complex_shaper_use
  end.

(** A script has a dedicated shaper when some tag and direction make
    the dispatch leave the default shaper. *)
Definition hasDedicatedShaper (s : Script) : Prop :=
  ∃ d t, hb_ot_shape_complex_categorize
           {| script := s; direction := d; chosen_script0 := t |}
         ≠ defaultShaper.

Definition genericTag (t : Z) : Prop := t = tag_DFLT ∨ t = tag_latn.

(** The scripts whose case tests the chosen tag against 'DFLT' and
    'latn' before anything else. *)
Definition tagGuarded (s : Script) : bool :=
  match s with
  | Arabic | Syriac | Thai | Lao | Hangul | Hebrew | Khmer
  | Myanmar_Zawgyi | OtherScript _ => false
  | _ => true
  end.

(** The scripts that keep their shaper whatever the chosen tag. *)
Definition tagBlind (s : Script) : option ComplexShaper :=
  match s with
  | Thai | Lao => Some complex_shaper_thai
  | Hangul => Some complex_shaper_hangul
  | Hebrew => Some complex_shaper_hebrew
  | Khmer => Some complex_shaper_khmer
  | Myanmar_Zawgyi => Some complex_shaper_myanmar_zawgyi
  | _ => None
  end.

Lemma tagGuarded_hasDedicated (d0 : Direction) s :
  tagGuarded s = true → hasDedicatedShaper s.
Proof. intros H. exists d0, 0. by destruct s. Qed.

(** C8, as amended.  For the Indic scripts, Myanmar and the scripts
    sent to the universal shaper, a chosen tag of 'DFLT' or 'latn'
    selects the default shaper; Thai, Lao, Hangul, Hebrew, Khmer and
    Zawgyi keep their own shaper whatever the tag; Arabic takes the
    Arabic shaper on every horizontal run, Syriac on a horizontal run
    unless the tag is 'DFLT'.  The dispatch is total: every planner
    gets exactly one shaper. *)
Theorem categorize_generic_tag_policy (p : planner) :
  (tagGuarded (script p) = true → genericTag (chosen_script0 p) →
     hb_ot_shape_complex_categorize p = defaultShaper) ∧
  (∀ sh, tagBlind (script p) = Some sh →
     hb_ot_shape_complex_categorize p = sh) ∧
  (script p = Arabic →
     hb_ot_shape_complex_categorize p =
       if isHorizontal (direction p) then complex_shaper_arabic
       else defaultShaper) ∧
  (script p = Syriac →
     hb_ot_shape_complex_categorize p =
       if negb (chosen_script0 p =? tag_DFLT) && isHorizontal (direction p)
       then complex_shaper_arabic else defaultShaper) ∧
  (∃ sh, hb_ot_shape_complex_categorize p = sh ∧
     ∀ sh', hb_ot_shape_complex_categorize p = sh' → sh' = sh).
Proof.
  destruct p as [s d t]; simpl. repeat split.
  - intros Hg [-> | ->]; by destruct s.
  - intros sh Hsh. destruct s; simpl in Hsh; by inversion Hsh.
  - intros ->. unfold hb_ot_shape_complex_categorize; simpl.
    by rewrite orb_true_r.
  - intros ->. unfold hb_ot_shape_complex_categorize; simpl.
    by rewrite orb_false_r.
  - eexists. split; [reflexivity|]. by intros sh' <-.
Qed.

(** *** Which planners get which shaper *)

(** The ten scripts of the Indic case. *)
Definition indicScript (s : Script) : bool :=
  match s with
  | Bengali | Devanagari | Gujarati | Gurmukhi | Kannada
  | Malayalam | Oriya | Tamil | Telugu | Sinhala => true
  | _ => false
  end.

Ltac tag_cases :=
  repeat match goal with
         | H : context [?a =? ?b] |- _ =>
             let E := fresh "E" in
             destruct (a =? b) eqn:E;
             [apply Z.eqb_eq in E | apply Z.eqb_neq in E]
         | |- context [?a =? ?b] =>
             let E := fresh "E" in
             destruct (a =? b) eqn:E;
             [apply Z.eqb_eq in E | apply Z.eqb_neq in E]
         end.

(** X6.  The Arabic shaper is selected on horizontal runs only, for the
    Arabic script whatever the chosen tag and for Syriac when a tag
    other than 'DFLT' was chosen; no other script ever gets it, and a
    vertical run of Arabic or Syriac gets the default shaper. *)
Theorem categorize_arabic_iff (p : planner) :
  (hb_ot_shape_complex_categorize p = complex_shaper_arabic ↔
     (script p = Arabic ∨
      (script p = Syriac ∧ chosen_script0 p ≠ tag_DFLT)) ∧
     isHorizontal (direction p) = true) ∧
  ((script p = Arabic ∨ script p = Syriac) →
   isHorizontal (direction p) = false →
   hb_ot_shape_complex_categorize p = defaultShaper).
Proof.
  destruct p as [s d t]. unfold hb_ot_shape_complex_categorize.
  cbn [script direction chosen_script0]. unfold HB_OT_TAG_DEFAULT_SCRIPT.
  split; [split|].
  - destruct s; tag_cases; cbn; destruct (isHorizontal d); cbn;
      try discriminate; intros _; (split; [|done]);
      first [by left | right; by split].
  - intros [[-> | [-> Hne]] Hh]; rewrite Hh.
    + by rewrite orb_true_r.
    + apply Z.eqb_neq in Hne. by rewrite Hne.
  - intros [-> | ->] Hh; rewrite Hh; by rewrite andb_false_r.
Qed.

(** X7.  For the ten Indic scripts the chosen tag alone decides between
    three shapers: 'DFLT' and 'latn' give the default shaper, any other
    tag whose last byte is the digit 3 (the third-generation tags such
    as 'dev3') gives the universal shaper, and every remaining tag
    gives the Indic shaper.  No script outside the ten gets the Indic
    shaper. *)
Theorem categorize_indic_by_tag (p : planner) :
  (indicScript (script p) = true →
   hb_ot_shape_complex_categorize p =
     if bool_decide (genericTag (chosen_script0 p)) then defaultShaper
     else if bool_decide (Z.land (chosen_script0 p) 0xFF = 51)
          then complex_shaper_use
          else complex_shaper_indic) ∧
  (hb_ot_shape_complex_categorize p = complex_shaper_indic →
   indicScript (script p) = true ∧ ¬ genericTag (chosen_script0 p) ∧
   Z.land (chosen_script0 p) 0xFF ≠ 51).
Proof.
  destruct p as [s d t]. unfold hb_ot_shape_complex_categorize, genericTag.
  cbn [script direction chosen_script0]. split.
  - intros Hs. destruct s; try discriminate Hs; clear Hs;
      tag_cases; cbn;
      repeat match goal with
             | |- context [bool_decide ?P] =>
                 destruct (decide P);
                 [ rewrite (bool_decide_eq_true_2 P) by done
                 | rewrite (bool_decide_eq_false_2 P) by done ]
             end; try done; intuition congruence.
  - destruct s; tag_cases; cbn;
      try destruct (isHorizontal d); cbn; try discriminate;
      intros _; (split; [done|]); (split; [intuition congruence|done]).
Qed.

(** X8.  The Myanmar shaper is selected for the Myanmar script alone, and
    only when the chosen tag is none of 'DFLT', 'latn' and 'mymr': a
    font that carries the old tag 'mymr', in use before the Myanmar
    shaping specification, is shaped by the default shaper. *)
Theorem categorize_myanmar_iff (p : planner) :
  hb_ot_shape_complex_categorize p = complex_shaper_myanmar ↔
    script p = Myanmar ∧ chosen_script0 p ≠ tag_DFLT ∧
    chosen_script0 p ≠ tag_latn ∧ chosen_script0 p ≠ tag_mymr.
Proof.
  destruct p as [s d t]. unfold hb_ot_shape_complex_categorize.
  cbn [script direction chosen_script0]. split.
  - destruct s; tag_cases; cbn;
      try destruct (isHorizontal d); cbn; try discriminate; done.
  - intros (-> & H1 & H2 & H3).
    apply Z.eqb_neq in H1, H2, H3. by rewrite H1, H2, H3.
Qed.

(** X9.  The universal shaper is selected exactly for a chosen tag other
    than 'DFLT' and 'latn', on an Indic script when the tag ends in
    the digit 3 and on every other script of the tag-guarded cases
    except Myanmar. *)
Theorem categorize_use_iff (p : planner) :
  hb_ot_shape_complex_categorize p = complex_shaper_use ↔
    ¬ genericTag (chosen_script0 p) ∧
    ((indicScript (script p) = true ∧
      Z.land (chosen_script0 p) 0xFF = 51) ∨
     (tagGuarded (script p) = true ∧ indicScript (script p) = false ∧
      script p ≠ Myanmar)).
Proof.
  destruct p as [s d t]. unfold hb_ot_shape_complex_categorize, genericTag.
  cbn [script direction chosen_script0]. split.
  - destruct s; tag_cases; cbn;
      try destruct (isHorizontal d); cbn; try discriminate;
      intros _; (split; [intuition congruence|]);
      first [left; by split | right; by repeat split].
  - intros [Hg Hs].
    assert (E1 : (t =? tag_DFLT) = false) by (apply Z.eqb_neq; intuition congruence).
    assert (E2 : (t =? tag_latn) = false) by (apply Z.eqb_neq; intuition congruence).
    rewrite E1, E2. cbn.
    destruct Hs as [[Hi H3] | (Hg' & Hi & Hm)].
    + apply Z.eqb_eq in H3. rewrite H3.
      destruct s; try discriminate Hi; done.
    + destruct s; try discriminate Hi; try discriminate Hg'; done.
Qed.
End Dispatch.

(** C8, as the claim states it, fails: Thai has a dedicated shaper and
    keeps it when the chosen tag is 'DFLT' (directions taken as their
    [isHorizontal] flag). *)
Lemma categorize_generic_tag_counterexample :
  ¬ (∀ s d t, hasDedicatedShaper bool id s → genericTag t →
       hb_ot_shape_complex_categorize bool id
         {| script := s; direction := d; chosen_script0 := t |}
       = defaultShaper).
Proof.
  intros H.
  specialize (H Thai true tag_DFLT).
  assert (Hd : hasDedicatedShaper bool id Thai) by (by exists true, 0).
  specialize (H Hd (or_introl eq_refl)). discriminate H.
Qed.

Example categorize_arabic_DFLT_horizontal :
  hb_ot_shape_complex_categorize bool id
    {| script := Arabic; direction := true; chosen_script0 := tag_DFLT |}
  = complex_shaper_arabic.
Proof. reflexivity. Qed.

End Shaper.

(** ** fontconfig/init.go: loading the configuration *)

Module Init.
Local Open Scope string_scope.

Definition CONFIGDIR : string := "/usr/local/etc/fonts/conf.d".
Definition FC_CACHEDIR : string := "/var/local/cache/fontconfig".
Definition FC_DEFAULT_FONTS : string := "<dir>/usr/share/fonts</dir>".
Definition FC_TEMPLATEDIR : string := "/usr/local/share/fontconfig/conf.avail".

Definition tab : string := String (Ascii.ascii_of_nat 9) EmptyString.
Definition nl : string := String (Ascii.ascii_of_nat 10) EmptyString.
Definition dq : string := String (Ascii.ascii_of_nat 34) EmptyString.

(** The text [fmt.Sprintf] builds in [initFallbackConfig]. *)
Definition fallbackText : string :=
  String.concat nl [
    tab;
    tab +:+ " <fontconfig>";
    tab +:+ "  " +:+ tab +:+ FC_DEFAULT_FONTS;
    tab +:+ tab +:+ "<cachedir>" +:+ FC_CACHEDIR +:+ "</cachedir>";
    tab +:+ tab +:+ "<cachedir prefix=" +:+ dq +:+ "xdg" +:+ dq
        +:+ ">fontconfig</cachedir>";
    tab +:+ tab +:+ "<include ignore_missing=" +:+ dq +:+ "yes" +:+ dq
        +:+ ">" +:+ CONFIGDIR +:+ "</include>";
    tab +:+ tab +:+ "<include ignore_missing=" +:+ dq +:+ "yes" +:+ dq
        +:+ " prefix=" +:+ dq +:+ "xdg" +:+ dq
        +:+ ">fontconfig/conf.d</include>";
    tab +:+ tab +:+ "<include ignore_missing=" +:+ dq +:+ "yes" +:+ dq
        +:+ " prefix=" +:+ dq +:+ "xdg" +:+ dq
        +:+ ">fontconfig/fonts.conf</include>";
    tab +:+ " </fontconfig>";
    tab +:+ " " ].

Section Loading.
(** [Config], its constructor and its two parsers are declared in
    files that are not among the sources.  A parser updates the
    configuration it is called on and may report an error. *)
Variable Config : Type.
Variable error : Type.
Variable NewConfig : Config.
Variable parseConfig : string → Config → Config * option error.
Variable LoadFromMemory : string → Config → Config * option error.

(** A Go result [( *Config, error )]: the pointer may be nil. *)
Definition result : Type := option Config * option error.

Definition initFallbackConfig : result :=
  let fallback := fallbackText in
  let config := NewConfig in
  let '(config, err) := LoadFromMemory fallback config in
  (Some config, err).

(** Load the configuration files *)
Definition initLoadOwnConfig : result :=
  let config := NewConfig in
  let '(config, err) := parseConfig "" config in
  match err with
  | Some _ => initFallbackConfig
  | None =>
      let '(config, err) := parseConfig FC_TEMPLATEDIR config in
      match err with
      | Some e => (None, Some e)
      | None => (Some config, None)
      end
  end.


(** *** The caller: [initLoadConfigAndFonts] *)

(** [config.BuildFonts(nil)] updates the configuration it is called
    on; the method is not among the sources. *)
Variable BuildFonts : Config → Config.

(** Loads the default configuration file and builds information about
    the available fonts.  [None] stands for the call of [BuildFonts]
    through a nil pointer. *)
Definition initLoadConfigAndFonts : option result :=
  let '(config, err) := initLoadOwnConfig in
  match err with
  | Some e => Some (None, Some e)
  | None =>
      match config with
      | None => None
      | Some config => Some (Some (BuildFonts config), None)
      end
  end.

Lemma initLoadOwnConfig_nil_has_error :
  initLoadOwnConfig.1 = None → is_Some initLoadOwnConfig.2.
Proof.
  unfold initLoadOwnConfig, initFallbackConfig.
  destruct (parseConfig "" NewConfig) as [c1 [e1|]].
  - by destruct (LoadFromMemory fallbackText NewConfig).
  - destruct (parseConfig FC_TEMPLATEDIR c1) as [c2 [e2|]]; [by eexists|done].
Qed.

(** X10.  When the primary configuration parses and the template directory
    does not, nothing is recovered: [initLoadOwnConfig] returns no
    configuration and the error of the second parse, without trying
    the built-in text, and [initLoadConfigAndFonts] passes that error
    on. *)
Theorem initLoadOwnConfig_template_failure (e : error) :
  (parseConfig "" NewConfig).2 = None →
  (parseConfig FC_TEMPLATEDIR (parseConfig "" NewConfig).1).2 = Some e →
  initLoadOwnConfig = (None, Some e) ∧
  initLoadConfigAndFonts = Some (None, Some e).
Proof.
  intros H1 H2. unfold initLoadConfigAndFonts, initLoadOwnConfig.
  destruct (parseConfig "" NewConfig) as [c1 e1]; simpl in *. subst e1.
  destruct (parseConfig FC_TEMPLATEDIR c1) as [c2 e2]; simpl in *.
  by subst e2.
Qed.

(** X11.  [initLoadConfigAndFonts] never reaches [BuildFonts] with a nil
    configuration, and it returns either a configuration without
    error or an error without configuration.  A configuration that
    [initLoadOwnConfig] returns together with an error (the built-in
    text loaded with an error) is dropped; when both parses succeed
    the fonts are built on the configuration that went through the two
    of them in turn. *)
Theorem initLoadConfigAndFonts_outcomes :
  (∃ r, initLoadConfigAndFonts = Some r ∧
     ((∃ c, r = (Some c, None)) ∨ (∃ e, r = (None, Some e)))) ∧
  (∀ e, initLoadOwnConfig.2 = Some e →
     initLoadConfigAndFonts = Some (None, Some e)) ∧
  (∀ c, initLoadOwnConfig = (Some c, None) →
     initLoadConfigAndFonts = Some (Some (BuildFonts c), None)) ∧
  ((parseConfig "" NewConfig).2 = None →
   (parseConfig FC_TEMPLATEDIR (parseConfig "" NewConfig).1).2 = None →
   initLoadConfigAndFonts =
     Some (Some (BuildFonts
                   (parseConfig FC_TEMPLATEDIR
                      (parseConfig "" NewConfig).1).1), None)).
Proof.
  pose proof initLoadOwnConfig_nil_has_error as Hnil.
  unfold initLoadConfigAndFonts.
  split; [|split; [|split]].
  - destruct initLoadOwnConfig as [c [e|]]; simpl in *.
    + eexists. split; [done|]. right. by eexists.
    + destruct c as [c|].
      * eexists. split; [done|]. left. by eexists.
      * by destruct (Hnil eq_refl).
  - intros e He. destruct initLoadOwnConfig as [c e']; simpl in *.
    by subst e'.
  - by intros c ->.
  - intros H1 H2. unfold initLoadOwnConfig.
    destruct (parseConfig "" NewConfig) as [c1 e1]; simpl in *. subst e1.
    destruct (parseConfig FC_TEMPLATEDIR c1) as [c2 e2]; simpl in *.
    by subst e2.
Qed.
End Loading.



(** An instance: the primary parse succeeds, the template directory
    fails. *)
Lemma initLoadOwnConfig_template_failure_witness :
  initLoadOwnConfig (list string) string []
      (λ s c, if String.eqb s "" then ((c ++ [s])%list, None)
              else (c, Some s))
      (λ s c, ((c ++ [s])%list, None))
    = (None, Some FC_TEMPLATEDIR).
Proof.
  exact (proj1
    (initLoadOwnConfig_template_failure (list string) string []
       (λ s c, if String.eqb s "" then ((c ++ [s])%list, None)
               else (c, Some s))
       (λ s c, ((c ++ [s])%list, None))
       (λ c, c) FC_TEMPLATEDIR eq_refl eq_refl)).
Defined.
End Init.

(** ** The Myanmar shaper: reordering of one syllable *)

Module Myanmar.

(** What the reordering reads and writes of a [cm.GlyphInfo]. *)
Record GlyphInfo := {
  Codepoint : Z;
  AuxCategory : Z;   (* uint8 *)
  Aux2 : Z           (* uint8 *)
}.

Definition withAux2 (v : Z) (g : GlyphInfo) : GlyphInfo :=
  {| Codepoint := Codepoint g; AuxCategory := AuxCategory g; Aux2 := v |}.

Definition OT_As : Z := 18.
Definition OT_MR : Z := 22.
Definition OT_VS : Z := 30.

Section Reordering.
(** Categories and positions shared with the Indic shaper, and the
    consonant test, are declared outside the sources at hand. *)
Variables OT_Ra OT_H OT_A OT_VBlw : Z.
Variables POS_PRE_C POS_BASE_C POS_AFTER_MAIN
          POS_BEFORE_SUB POS_BELOW_C POS_AFTER_SUB : Z.
Variable is_consonant : GlyphInfo → bool.

(** Modelled from the spec: [buffer.Sort] (the buffer is not among
    the sources), the stable sort of the glyphs in [start, end) by
    the comparison function, here the difference of [Aux2]; glyphs
    that compare equal keep their relative order. *)
Definition Sort (info : list GlyphInfo) (start end_ : nat)
  : list GlyphInfo :=
  take start info
    ++ sortSlice (lessKey Aux2) (drop start (take end_ info))
    ++ drop end_ info.

(** [info[i].Aux2 = v]; [None] is the run-time panic of an index out
    of range. *)
Definition setAux2 (i : nat) (v : Z) (info : list GlyphInfo)
  : option (list GlyphInfo) :=
  g ← info !! i; Some (<[i := withAux2 v g]> info).

(** [for ; i < hi; i++ { info[i].Aux2 = v }]; the index after the
    loop comes with the buffer. *)
Fixpoint fillAux2 (n : nat) (i : nat) (v : Z) (info : list GlyphInfo)
  : option (nat * list GlyphInfo) :=
  match n with
  | O => Some (i, info)
  | S n' => info' ← setAux2 i v info; fillAux2 n' (S i) v info'
  end.

(** [for i := limit; i < end; i++ { if is_consonant(info[i]) { base = i; break } }] *)
Fixpoint findBase (n : nat) (i : nat) (base : nat) (info : list GlyphInfo)
  : option nat :=
  match n with
  | O => Some base
  | S n' =>
      g ← info !! i;
      if is_consonant g then Some i else findBase n' (S i) base info
  end.

(** One round of the last loop; the pair is the running [pos] and
    the buffer. *)
Definition reorderStep (i : nat) (st : Z * list GlyphInfo)
  : option (Z * list GlyphInfo) :=
  let '(pos, info) := st in
  g ← info !! i;
  if AuxCategory g =? OT_MR then
    info' ← setAux2 i POS_PRE_C info; Some (pos, info')
  else if Aux2 g <? POS_BASE_C then Some (pos, info)
  else if AuxCategory g =? OT_VS then
    prev ← (if bool_decide (i = 0%nat) then None else info !! (i - 1)%nat);
    info' ← setAux2 i (Aux2 prev) info; Some (pos, info')
  else if (pos =? POS_AFTER_MAIN) && (AuxCategory g =? OT_VBlw) then
    info' ← setAux2 i POS_BELOW_C info; Some (POS_BELOW_C, info')
  else if (pos =? POS_BELOW_C) && (AuxCategory g =? OT_A) then
    info' ← setAux2 i POS_BEFORE_SUB info; Some (pos, info')
  else if (pos =? POS_BELOW_C) && (AuxCategory g =? OT_VBlw) then
    info' ← setAux2 i pos info; Some (pos, info')
  else if (pos =? POS_BELOW_C) && negb (AuxCategory g =? OT_A) then
    info' ← setAux2 i POS_AFTER_SUB info; Some (POS_AFTER_SUB, info')
  else
    info' ← setAux2 i pos info; Some (pos, info').

Fixpoint reorderLoop (n : nat) (i : nat) (st : Z * list GlyphInfo)
  : option (Z * list GlyphInfo) :=
  match n with
  | O => Some st
  | S n' => st' ← reorderStep i st; reorderLoop n' (S i) st'
  end.

(** The three reads of the repha test, left to right, each made only
    when the tests before it hold. *)
Definition rephaAt (info : list GlyphInfo) (start end_ : nat)
  : option bool :=
  if bool_decide (start + 3 ≤ end_)%nat then
    g0 ← info !! start;
    if AuxCategory g0 =? OT_Ra then
      g1 ← info !! (start + 1)%nat;
      if AuxCategory g1 =? OT_As then
        g2 ← info !! (start + 2)%nat;
        Some (AuxCategory g2 =? OT_H)
      else Some false
    else Some false
  else Some false.

Definition initialReorderingConsonantSyllable
    (info : list GlyphInfo) (start end_ : nat)
  : option (list GlyphInfo) :=
  let base := end_ in
  let limit := start in
  rephaAt info start end_ ≫= λ hasReph : bool,
  let limit := if hasReph then (limit + 3)%nat else limit in
  let base := if hasReph then start else base in
  let base := if negb hasReph then limit else base in
  base ← findBase (end_ - limit) limit base info;
  (* Reorder! *)
  let i := start in
  let end_ := start in
  let end_ := if hasReph then (start + 3)%nat else end_ in
  '(i, info) ← fillAux2 (end_ - i) i POS_AFTER_MAIN info;
  '(i, info) ← fillAux2 (base - i) i POS_PRE_C info;
  '(i, info) ←
     (if bool_decide (i < end_)%nat
      then info' ← setAux2 i POS_BASE_C info; Some (S i, info')
      else Some (i, info));
  let pos := POS_AFTER_MAIN in
  '(_, info) ← reorderLoop (end_ - i) i (pos, info);
  Some (Sort info start end_).

Lemma sortSlice_three_equal (a b c : GlyphInfo) :
  Aux2 a = Aux2 b → Aux2 b = Aux2 c →
  sortSlice (lessKey Aux2) [a; b; c] = [a; b; c].
Proof.
  intros Hab Hbc. unfold sortSlice, lessKey; simpl.
  rewrite !bool_decide_eq_false_2 by lia. simpl.
  rewrite !bool_decide_eq_false_2 by lia. done.
Qed.

(** C3, on the code.  On the syllable Ra, Asat, Halant, consonant,
    vowel-below the function rebinds [end] to [start+3] before it
    tags anything: the three repha glyphs get [POS_AFTER_MAIN], the
    base is never tagged, the last loop does not run and only the
    repha glyphs are sorted.  The glyphs come back in the order they
    went in, the consonant still behind the repha. *)
Theorem initialReordering_repha_stays_in_front
    (ra asat h c v : GlyphInfo) :
  AuxCategory ra = OT_Ra → AuxCategory asat = OT_As →
  AuxCategory h = OT_H → is_consonant c = true →
  AuxCategory v = OT_VBlw →
  initialReorderingConsonantSyllable [ra; asat; h; c; v] 0 5
  = Some [ withAux2 POS_AFTER_MAIN ra; withAux2 POS_AFTER_MAIN asat;
           withAux2 POS_AFTER_MAIN h; c; v ].
Proof.
  intros Hra Has Hh Hc Hv.
  unfold initialReorderingConsonantSyllable, rephaAt.
  simpl. rewrite Hra, Has, Hh, !Z.eqb_refl. simpl. rewrite Hc. simpl.
  unfold Sort; simpl. by rewrite sortSlice_three_equal.
Qed.

(** *** The function on every syllable *)

(** [info'] is [info] with some [Aux2] fields in [lo, hi) overwritten
    by one of the two positions the tagging loops write before the
    base. *)
Definition retags (lo hi : nat) (info info' : list GlyphInfo) : Prop :=
  ∀ j, info' !! j = info !! j ∨
       ((lo ≤ j < hi)%nat ∧
        ∃ v, (v = POS_AFTER_MAIN ∨ v = POS_PRE_C) ∧
             info' !! j = withAux2 v <$> info !! j).

Lemma withAux2_twice (v w : Z) (g : option GlyphInfo) :
  withAux2 v <$> (withAux2 w <$> g) = withAux2 v <$> g.
Proof. by destruct g. Qed.

Lemma retags_trans (lo hi : nat) (a b c : list GlyphInfo) :
  retags lo hi a b → retags lo hi b c → retags lo hi a c.
Proof.
  intros Hab Hbc j.
  destruct (Hbc j) as [-> | (Hj & v & Hv & ->)]; [apply Hab|].
  right. split; [done|]. exists v. split; [done|].
  destruct (Hab j) as [-> | (_ & w & _ & ->)]; [done|].
  apply withAux2_twice.
Qed.

Lemma retags_length (lo hi : nat) (info info' : list GlyphInfo) :
  retags lo hi info info' → length info' = length info.
Proof.
  intros Hr.
  assert (Hnone : ∀ j, info' !! j = None ↔ info !! j = None).
  { intros j. destruct (Hr j) as [-> | (_ & v & _ & ->)]; [done|].
    by destruct (info !! j). }
  destruct (Nat.lt_trichotomy (length info') (length info))
    as [Hlt | [Heq | Hgt]]; [|done|].
  - pose proof (proj1 (Hnone (length info'))
                  (lookup_ge_None_2 _ _ (Nat.le_refl _))) as Hn.
    apply lookup_ge_None_1 in Hn. lia.
  - pose proof (proj2 (Hnone (length info))
                  (lookup_ge_None_2 _ _ (Nat.le_refl _))) as Hn.
    apply lookup_ge_None_1 in Hn. lia.
Qed.

Lemma retags_fmap {B : Type} (f : GlyphInfo → B) (lo hi : nat)
    (info info' : list GlyphInfo) :
  (∀ v g, f (withAux2 v g) = f g) →
  retags lo hi info info' → f <$> info' = f <$> info.
Proof.
  intros Hf Hr. apply list_eq. intros j. rewrite !list_lookup_fmap.
  destruct (Hr j) as [-> | (_ & v & _ & ->)]; [done|].
  destruct (info !! j); simpl; [|done]. by rewrite Hf.
Qed.

Lemma fillAux2_Some (n i : nat) (v : Z) (info : list GlyphInfo) :
  (i + n ≤ length info)%nat →
  ∃ info', fillAux2 n i v info = Some ((i + n)%nat, info') ∧
    (∀ j, (i ≤ j < i + n)%nat → info' !! j = withAux2 v <$> info !! j) ∧
    (∀ j, ¬ (i ≤ j < i + n)%nat → info' !! j = info !! j).
Proof.
  revert i info. induction n as [|n IH]; intros i info Hlen.
  - exists info. rewrite Nat.add_0_r.
    split; [done|]. split; [|done]. intros j Hj. lia.
  - destruct (lookup_lt_is_Some_2 info i) as [g Hg]; [lia|].
    cbn [fillAux2]. unfold setAux2 at 1. rewrite Hg. cbn.
    destruct (IH (S i) (<[i := withAux2 v g]> info)) as (info' & Hf & Hin & Hout).
    { rewrite length_insert. lia. }
    exists info'. replace (i + S n)%nat with (S i + n)%nat by lia.
    split; [done|]. split.
    + intros j Hj. destruct (decide (j = i)) as [->|Hne].
      * rewrite Hout by lia. rewrite list_lookup_insert_eq by lia.
        by rewrite Hg.
      * rewrite Hin by lia. by rewrite list_lookup_insert_ne.
    + intros j Hj. rewrite Hout by lia.
      apply list_lookup_insert_ne. lia.
Qed.

Lemma findBase_Some (n i base : nat) (info : list GlyphInfo) :
  (i + n ≤ length info)%nat →
  ∃ b, findBase n i base info = Some b ∧
       (b = base ∨ (i ≤ b < i + n)%nat).
Proof.
  revert i. induction n as [|n IH]; intros i Hlen.
  - exists base. by split; [|left].
  - destruct (lookup_lt_is_Some_2 info i) as [g Hg]; [lia|].
    cbn [findBase]. rewrite Hg. cbn.
    destruct (is_consonant g).
    + exists i. split; [done|]. right. lia.
    + destruct (IH (S i)) as (b & Hb & Hr); [lia|].
      exists b. split; [done|]. destruct Hr; [by left | right; lia].
Qed.

Lemma rephaAt_Some (info : list GlyphInfo) (start end_ : nat) :
  (end_ ≤ length info)%nat →
  ∃ b : bool, rephaAt info start end_ = Some b ∧
    (b = true → (start + 3 ≤ end_)%nat).
Proof.
  intros Hlen. unfold rephaAt. case_bool_decide as Hr.
  - destruct (lookup_lt_is_Some_2 info start) as [g0 ->]; [lia|].
    destruct (lookup_lt_is_Some_2 info (start + 1)) as [g1 ->]; [lia|].
    destruct (lookup_lt_is_Some_2 info (start + 2)) as [g2 ->]; [lia|].
    cbn. destruct (AuxCategory g0 =? OT_Ra); [|by exists false].
    destruct (AuxCategory g1 =? OT_As); [|by exists false].
    by eexists.
  - by exists false.
Qed.

Lemma insertSorted_last (x : GlyphInfo) (l : list GlyphInfo) (v : Z) :
  Aux2 x = v → Forall (λ g, Aux2 g = v) l →
  insertSorted (lessKey Aux2) x l = l ++ [x].
Proof.
  intros Hx. induction 1 as [|y l Hy Hl IH]; [done|].
  simpl. unfold lessKey at 1. rewrite bool_decide_eq_false_2 by lia.
  by rewrite IH.
Qed.

Lemma sortSlice_equal_keys (l : list GlyphInfo) (v : Z) :
  Forall (λ g, Aux2 g = v) l → sortSlice (lessKey Aux2) l = l.
Proof.
  intros Hl. unfold sortSlice.
  cut (∀ acc, Forall (λ g, Aux2 g = v) acc →
         foldl (λ acc x, insertSorted (lessKey Aux2) x acc) acc l = acc ++ l).
  { intros Hcut. by rewrite (Hcut []). }
  induction Hl as [|x l Hx Hl IH]; intros acc Hacc; simpl.
  - by rewrite app_nil_r.
  - rewrite (insertSorted_last x acc v) by done.
    rewrite IH; [by rewrite <- app_assoc|].
    apply Forall_app. split; [done|]. by constructor.
Qed.

Lemma Sort_equal_keys (info : list GlyphInfo) (start end_ : nat) (v : Z) :
  (start ≤ end_)%nat →
  (∀ j g, (start ≤ j < end_)%nat → info !! j = Some g → Aux2 g = v) →
  Sort info start end_ = info.
Proof.
  intros Hle Hkeys. unfold Sort.
  rewrite (sortSlice_equal_keys _ v).
  - rewrite <- (take_drop end_ info) at 4.
    rewrite <- (take_drop start (take end_ info)) at 2.
    rewrite take_take, Nat.min_l by done. by rewrite <- app_assoc.
  - apply Forall_forall. intros g Hg.
    apply list_elem_of_lookup in Hg as [k Hk].
    rewrite lookup_drop in Hk.
    destruct (decide (start + k < end_)%nat) as [Hlt|Hge].
    + rewrite lookup_take_lt in Hk by done.
      apply (Hkeys (start + k)%nat); [lia | done].
    + by rewrite lookup_take_ge in Hk by lia.
Qed.

(** The function returns on every syllable inside the buffer, and
    what it returns is the buffer with some position tags changed. *)
Lemma initialReordering_retags (info : list GlyphInfo) (start end_ : nat) :
  (start ≤ end_ ≤ length info)%nat →
  ∃ info', initialReorderingConsonantSyllable info start end_ = Some info' ∧
    retags start end_ info info'.
Proof.
  intros [Hse Hlen]. unfold initialReorderingConsonantSyllable.
  destruct (rephaAt_Some info start end_ Hlen) as (hasReph & -> & Hreph).
  cbn [mbind option_bind]. destruct hasReph; cbn [negb].
  - specialize (Hreph eq_refl).
    destruct (findBase_Some (end_ - (start + 3)) (start + 3) start info)
      as (base & -> & Hbase); [lia|]. cbn [mbind option_bind].
    replace (start + 3 - start)%nat with 3%nat by lia.
    destruct (fillAux2_Some 3 start POS_AFTER_MAIN info)
      as (info1 & -> & Hin1 & Hout1); [lia|]. cbn [mbind option_bind].
    destruct (fillAux2_Some (base - (start + 3)) (start + 3) POS_PRE_C info1)
      as (info2 & -> & Hin2 & Hout2).
    { assert (length info1 = length info) as ->; [|lia].
      apply (retags_length start end_). intros j.
      destruct (decide (start ≤ j < start + 3)%nat).
      - right. split; [lia|]. exists POS_AFTER_MAIN. split; [by left|].
        by apply Hin1.
      - left. by apply Hout1. }
    cbn [mbind option_bind].
    rewrite bool_decide_eq_false_2 by lia. cbn [mbind option_bind].
    replace (start + 3 - (start + 3 + (base - (start + 3))))%nat
      with 0%nat by lia.
    cbn [reorderLoop mbind option_bind].
    rewrite (Sort_equal_keys info2 start (start + 3) POS_AFTER_MAIN); [| lia |].
    + eexists. split; [done|].
      apply (retags_trans _ _ _ info1).
      * intros j. destruct (decide (start ≤ j < start + 3)%nat).
        -- right. split; [lia|]. exists POS_AFTER_MAIN. split; [by left|].
           by apply Hin1.
        -- left. by apply Hout1.
      * intros j.
        destruct (decide (start + 3 ≤ j < start + 3 + (base - (start + 3)))%nat).
        -- right. split; [lia|]. exists POS_PRE_C. split; [by right|].
           by apply Hin2.
        -- left. by apply Hout2.
    + intros j g Hj Hg. rewrite Hout2, Hin1 in Hg by lia.
      destruct (info !! j); [|done]. by inversion Hg.
  - destruct (findBase_Some (end_ - start) start start info)
      as (base & -> & Hbase); [lia|]. cbn [mbind option_bind].
    rewrite Nat.sub_diag. cbn [fillAux2 mbind option_bind].
    destruct (fillAux2_Some (base - start) start POS_PRE_C info)
      as (info2 & -> & Hin2 & Hout2); [lia|]. cbn [mbind option_bind].
    rewrite bool_decide_eq_false_2 by lia. cbn [mbind option_bind].
    replace (start - (start + (base - start)))%nat with 0%nat by lia.
    cbn [reorderLoop mbind option_bind].
    rewrite (Sort_equal_keys info2 start start 0); [|lia|lia].
    eexists. split; [done|]. intros j.
    destruct (decide (start ≤ j < start + (base - start))%nat).
    + right. split; [lia|]. exists POS_PRE_C. split; [by right|].
      by apply Hin2.
    + left. by apply Hout2.
Qed.

(** X12.  On every syllable [start, end) that lies inside the buffer the
    function returns, and it moves nothing: the glyphs come back in
    the order they went in, with their code points and categories.
    The parameter [end] is overwritten with [start] (or [start+3]
    behind a repha) before anything is tagged, so the base is never
    tagged, the loop that implements the reordering rules never runs
    and the final sort sees at most the three repha glyphs, all with
    the same key.  All the function changes is the position tag of
    glyphs of the syllable, which it sets to [POS_AFTER_MAIN] or
    [POS_PRE_C]; the glyphs outside the syllable are as they were.
    [buffer.Sort] is the stable sort of the model above. *)
Theorem initialReordering_moves_nothing
    (info : list GlyphInfo) (start end_ : nat) :
  (start ≤ end_ ≤ length info)%nat →
  ∃ info', initialReorderingConsonantSyllable info start end_ = Some info' ∧
    Codepoint <$> info' = Codepoint <$> info ∧
    AuxCategory <$> info' = AuxCategory <$> info ∧
    (∀ j, (j < start ∨ end_ ≤ j)%nat → info' !! j = info !! j) ∧
    (∀ j g', info' !! j = Some g' →
       ∃ g, info !! j = Some g ∧
         (Aux2 g' = Aux2 g ∨ Aux2 g' = POS_AFTER_MAIN ∨ Aux2 g' = POS_PRE_C)).
Proof.
  intros Hrange.
  destruct (initialReordering_retags info start end_ Hrange)
    as (info' & Hrun & Hr).
  exists info'. split; [done|].
  split; [by apply (retags_fmap Codepoint start end_)|].
  split; [by apply (retags_fmap AuxCategory start end_)|].
  split.
  - intros j Hj. destruct (Hr j) as [-> | (Hin & _)]; [done | lia].
  - intros j g' Hg'. destruct (Hr j) as [Heq | (_ & v & Hv & Heq)];
      rewrite Heq in Hg'.
    + exists g'. split; [done | by left].
    + destruct (info !! j) as [g|]; [|done]. exists g. split; [done|].
      inversion Hg'; subst g'. cbn. right. by destruct Hv as [-> | ->]; [left | right].
Qed.

(** *** Tagging a syllable and dispatching on the tag *)

(** The syllable types come with the syllable machine, which is not
    among the sources. *)
Variables myanmarBrokenCluster myanmarConsonantSyllable : Z.

(** [*syllableSerial << 4] and [*syllableSerial++] are [uint8]
    arithmetic.  The new serial comes with the buffer. *)
Definition foundSyllableMyanmar (syllableType : Z) (ts te : nat)
    (info : list GlyphInfo) (syllableSerial : Z)
  : option (list GlyphInfo * Z) :=
  '(_, info) ←
     fillAux2 (te - ts) ts
       (Z.lor (Z.shiftl syllableSerial 4 mod 256) syllableType) info;
  let syllableSerial := (syllableSerial + 1) mod 256 in
  let syllableSerial :=
    if syllableSerial =? 16 then 1 else syllableSerial in
  Some (info, syllableSerial).

Definition reorderSyllableMyanmar (info : list GlyphInfo) (start end_ : nat)
  : option (list GlyphInfo) :=
  g ← info !! start;
  let syllableType := Z.land (Aux2 g) 0x0F in
  if (syllableType =? myanmarBrokenCluster)
     || (syllableType =? myanmarConsonantSyllable)
  then initialReorderingConsonantSyllable info start end_
  else Some info.

Lemma serial_type_packed (serial type_ : Z) :
  0 ≤ serial < 16 → 0 ≤ type_ < 16 →
  Z.land (Z.lor (Z.shiftl serial 4 mod 256) type_) 0x0F = type_ ∧
  Z.shiftr (Z.lor (Z.shiftl serial 4 mod 256) type_) 4 = serial.
Proof.
  intros Hs Ht.
  rewrite Z.mod_small by (rewrite Z.shiftl_mul_pow2 by lia; lia).
  split.
  - rewrite Z.land_lor_distr_l.
    change 0x0F with (Z.ones 4). rewrite !Z.land_ones by lia.
    rewrite Z.shiftl_mul_pow2 by lia.
    rewrite Z.mod_mul by lia. rewrite Z.mod_small by lia. done.
  - rewrite Z.shiftr_lor, Z.shiftr_shiftl_l by lia.
    rewrite Z.sub_diag, Z.shiftl_0_r.
    rewrite (Z.shiftr_div_pow2 type_) by lia.
    rewrite Z.div_small by lia. apply Z.lor_0_r.
Qed.

(** X13.  A syllable tagged by [foundSyllableMyanmar] is read back by
    [reorderSyllableMyanmar] with the type it was given.  For a type
    below 16 and a serial from 1 to 15, on a range inside the buffer:
    each glyph of the range carries the type in the low four bits of
    [Aux2] and the serial in the high four, every other glyph and
    field is untouched, and the serial moves on within 1..15, from 15
    back to 1 (never to 0).  [reorderSyllableMyanmar] on the range
    then reorders when the type is one of broken cluster and
    consonant syllable, and returns the buffer as it is for every
    other type. *)
Theorem foundSyllable_tag_read_back
    (syllableType : Z) (ts te : nat) (info : list GlyphInfo) (serial : Z) :
  0 ≤ syllableType < 16 → 1 ≤ serial < 16 →
  (ts < te ≤ length info)%nat →
  ∃ info' serial',
    foundSyllableMyanmar syllableType ts te info serial
      = Some (info', serial') ∧
    serial' = (if serial =? 15 then 1 else serial + 1) ∧
    1 ≤ serial' < 16 ∧
    (∀ j, (ts ≤ j < te)%nat →
       ∃ g, info !! j = Some g ∧
         info' !! j = Some (withAux2 (16 * serial + syllableType) g) ∧
         Z.land (16 * serial + syllableType) 0x0F = syllableType ∧
         Z.shiftr (16 * serial + syllableType) 4 = serial) ∧
    (∀ j, ¬ (ts ≤ j < te)%nat → info' !! j = info !! j) ∧
    reorderSyllableMyanmar info' ts te =
      (if bool_decide (syllableType = myanmarBrokenCluster ∨
                       syllableType = myanmarConsonantSyllable)
       then initialReorderingConsonantSyllable info' ts te
       else Some info').
Proof.
  intros Ht Hs Hrange. unfold foundSyllableMyanmar.
  destruct (serial_type_packed serial syllableType) as [Hlow Hhigh];
    [lia | lia |].
  assert (Hpack : Z.lor (Z.shiftl serial 4 mod 256) syllableType
                  = 16 * serial + syllableType).
  { rewrite <- (Z.lor_ldiff_and (Z.lor _ _) (Z.ones 4)) at 1.
    change (Z.ones 4) with 0x0F at 2. rewrite Hlow.
    rewrite Z.ldiff_ones_r by lia. rewrite Hhigh.
    rewrite Z.shiftl_mul_pow2 by lia.
    rewrite Z.lor_comm, <- Z.add_nocarry_lor; [lia|].
    change (2 ^ 4) with 16. apply Z.bits_inj'. intros n Hn.
    rewrite Z.land_spec, Z.bits_0.
    destruct (decide (n < 4)) as [Hlt|Hge].
    - replace (serial * 16) with (Z.shiftl serial 4)
        by (rewrite Z.shiftl_mul_pow2 by lia; lia).
      rewrite Z.shiftl_spec_low by done. apply andb_false_r.
    - replace (Z.testbit syllableType n) with false; [done|].
      symmetry. destruct (decide (syllableType = 0)) as [->|];
        [apply Z.bits_0|].
      apply Z.bits_above_log2; [lia|].
      assert (Z.log2 syllableType < 4); [|lia].
      apply Z.log2_lt_pow2; lia. }
  rewrite Hpack in *.
  destruct (fillAux2_Some (te - ts) ts (16 * serial + syllableType) info)
    as (info' & -> & Hin & Hout); [lia|]. cbn [mbind option_bind].
  replace (ts + (te - ts))%nat with te in Hin, Hout by lia.
  exists info'. eexists. split; [done|].
  assert (Hser : (if (serial + 1) mod 256 =? 16 then 1
                  else (serial + 1) mod 256)
                 = if serial =? 15 then 1 else serial + 1).
  { rewrite Z.mod_small by lia.
    destruct (serial =? 15) eqn:E15.
    - apply Z.eqb_eq in E15. by subst serial.
    - apply Z.eqb_neq in E15.
      rewrite (proj2 (Z.eqb_neq _ _)) by lia. done. }
  rewrite Hser. split; [done|]. split.
  { destruct (serial =? 15) eqn:E15; [lia|]. apply Z.eqb_neq in E15. lia. }
  split; [|split; [done|]].
  - intros j Hj. destruct (lookup_lt_is_Some_2 info j) as [g Hg]; [lia|].
    exists g. split; [done|]. rewrite Hin by done. by rewrite Hg.
  - unfold reorderSyllableMyanmar.
    destruct (lookup_lt_is_Some_2 info ts) as [g Hg]; [lia|].
    rewrite Hin by lia. rewrite Hg. cbn. rewrite Hlow.
    destruct (decide (syllableType = myanmarBrokenCluster ∨
                      syllableType = myanmarConsonantSyllable)) as [Hd|Hd].
    + rewrite bool_decide_eq_true_2 by done.
      destruct Hd as [<- | <-]; rewrite Z.eqb_refl; by rewrite ?orb_true_r.
    + rewrite bool_decide_eq_false_2 by done.
      rewrite (proj2 (Z.eqb_neq _ _)), (proj2 (Z.eqb_neq _ _)); [done| |];
        intros Heq; apply Hd; [by right | by left].
Qed.

(** X14.  [reorderSyllableMyanmar] panics on a syllable that starts past
    the end of the buffer; on a syllable inside the buffer it returns,
    whatever the tag, a buffer with the glyphs in the order they had:
    no syllable type leads to a reordering. *)
Theorem reorderSyllable_moves_nothing
    (info : list GlyphInfo) (start end_ : nat) :
  ((length info ≤ start)%nat →
     reorderSyllableMyanmar info start end_ = None) ∧
  ((start < end_ ≤ length info)%nat →
   ∃ info', reorderSyllableMyanmar info start end_ = Some info' ∧
     Codepoint <$> info' = Codepoint <$> info ∧
     AuxCategory <$> info' = AuxCategory <$> info).
Proof.
  unfold reorderSyllableMyanmar. split.
  - intros Hlen. by rewrite lookup_ge_None_2.
  - intros Hrange.
    destruct (lookup_lt_is_Some_2 info start) as [g ->]; [lia|]. cbn.
    destruct (_ || _).
    + destruct (initialReordering_retags info start end_)
        as (info' & Hrun & Hr); [lia|].
      exists info'. split; [done|].
      split; [by apply (retags_fmap Codepoint start end_)|].
      by apply (retags_fmap AuxCategory start end_).
    + by exists info.
Qed.
End Reordering.

(** The categories and positions of the Indic shaper, as HarfBuzz
    numbers them, for a run on concrete glyphs: U+1004 U+103A U+1039
    U+1000 U+102F. *)
Definition demo_is_consonant (g : GlyphInfo) : bool :=
  bool_decide (AuxCategory g ∈ [1; 16]).   (* OT_C, OT_Ra *)

Definition demoSyllable : list GlyphInfo :=
  [ {| Codepoint := 0x1004; AuxCategory := 16; Aux2 := 15 |};
    {| Codepoint := 0x103A; AuxCategory := 18; Aux2 := 15 |};
    {| Codepoint := 0x1039; AuxCategory := 4;  Aux2 := 15 |};
    {| Codepoint := 0x1000; AuxCategory := 1;  Aux2 := 15 |};
    {| Codepoint := 0x102F; AuxCategory := 27; Aux2 := 8 |} ].

Lemma initialReordering_repha_witness :
  initialReorderingConsonantSyllable 16 4 10 27 3 4 5 7 8 9
    demo_is_consonant demoSyllable 0 5
  = Some
    [ {| Codepoint := 0x1004; AuxCategory := 16; Aux2 := 5 |};
      {| Codepoint := 0x103A; AuxCategory := 18; Aux2 := 5 |};
      {| Codepoint := 0x1039; AuxCategory := 4;  Aux2 := 5 |};
      {| Codepoint := 0x1000; AuxCategory := 1;  Aux2 := 15 |};
      {| Codepoint := 0x102F; AuxCategory := 27; Aux2 := 8 |} ].
Proof.
  apply (initialReordering_repha_stays_in_front 16 4 10 27 3 4 5 7 8 9
           demo_is_consonant); reflexivity.
Defined.


(** A syllable without repha: U+1000 U+103C U+102F, tagged as the
    first syllable of the buffer with type 0. *)
Definition demoSyllablePlain : list GlyphInfo :=
  [ {| Codepoint := 0x1000; AuxCategory := 1;  Aux2 := 15 |};
    {| Codepoint := 0x103C; AuxCategory := 22; Aux2 := 15 |};
    {| Codepoint := 0x102F; AuxCategory := 27; Aux2 := 8 |} ].

Lemma initialReordering_moves_nothing_witness :
  ∃ info',
    initialReorderingConsonantSyllable 16 4 10 27 3 4 5 7 8 9
      demo_is_consonant demoSyllablePlain 0 3 = Some info' ∧
    Codepoint <$> info' = [0x1000; 0x103C; 0x102F].
Proof.
  destruct (initialReordering_moves_nothing 16 4 10 27 3 4 5 7 8 9
              demo_is_consonant demoSyllablePlain 0 3)
    as (info' & Hrun & Hcp & _); [simpl; lia|].
  exists info'. split; [exact Hrun | exact Hcp].
Defined.

Lemma foundSyllable_tag_read_back_witness :
  ∃ info' serial',
    foundSyllableMyanmar 0 0 3 demoSyllablePlain 15 = Some (info', serial') ∧
    serial' = 1.
Proof.
  destruct (foundSyllable_tag_read_back 16 4 10 27 3 4 5 7 8 9
              demo_is_consonant 2 0 0 0 3 demoSyllablePlain 15)
    as (info' & serial' & Hrun & Hserial & _); [lia | lia | simpl; lia |].
  exists info', serial'. split; [exact Hrun | exact Hserial].
Defined.
End Myanmar.

(** ** fontconfig: patterns *)

Module Fontconfig.

(** An [Object] is a small integer naming a font property. *)
Abbreviation Object := Z.

(** The value kinds: the dynamic types a [Value] can have.  [KNil] is
    the kind of the nil interface value. *)
Inductive Kind :=
| KNil | KBool | KInt | KFloat | KString | KMatrix | KCharset | KRange
| KLangset.

(** [Value] is the tagged union of the value types ([Bool] is a small
    integer type: false, true, don't care). *)
Inductive Value :=
| Nil
| Bool (b : Z)
| Int (n : Z)
| Float (f : float)
| String (s : string)
| Matrix (xx xy yx yy : float)
| Charset (cs : list Z)
| Range (Begin End : float)
| Langset (ls : list string).

Definition kindOf (v : Value) : Kind :=
  match v with
  | Nil => KNil | Bool _ => KBool | Int _ => KInt | Float _ => KFloat
  | String _ => KString | Matrix _ _ _ _ => KMatrix
  | Charset _ => KCharset | Range _ _ => KRange | Langset _ => KLangset
  end.

Inductive ValueBinding := ValueBindingWeak | ValueBindingStrong.

Record valueElt := { Value_ : Value; Binding : ValueBinding }.

Abbreviation valueList := (list valueElt).

(** [Pattern] is [map[Object]*valueList].  No operation stores a nil
    pointer, and every read treats a nil pointer as a missing key, so an
    entry is either absent or a list. *)
Abbreviation Pattern := (gmap Object valueList).

Inductive Result :=
| ResultMatch | ResultNoMatch | ResultTypeMismatch | ResultNoId.

(** One line written by [log.Printf]: the object and the value it does
    not accept. *)
Definition LogLine : Type := Object * Value.

(** NewPattern returns an empty, initalized pattern *)
Definition NewPattern : Pattern := ∅.

(** Duplicate copies every list; lists are values here. *)
Definition Duplicate (p : Pattern) : Pattern := (λ l : valueList, l) <$> p.

(** Del remove all the values associated to [object] *)
Definition Del (p : Pattern) (object : Object) : Pattern := delete object p.

(** resolve the nil values *)
Definition getVals (p : Pattern) (obj : Object) : valueList :=
  match p !! obj with
  | None => []
  | Some out => out
  end.

(** remove the nil and empty lists *)
Definition canon (p : Pattern) (object : Object) : Pattern :=
  match p !! object with
  | None => delete object p
  | Some e => if bool_decide (length e = 0%nat) then delete object p else p
  end.

(** The element of [e] at [id]; [None] is the run-time panic of an index
    out of range. *)
Definition index (e : valueList) (id : Z) : option valueElt :=
  if id <? 0 then None else e !! Z.to_nat id.

(** GetAt returns the value in position [id] for [object], without type
    conversion. *)
Definition GetAt (p : Pattern) (object : Object) (id : Z)
  : option (Value * Result) :=
  match p !! object with
  | None => Some (Nil, ResultNoMatch)
  | Some e =>
      if bool_decide (id >= Z.of_nat (length e))%Z then Some (Nil, ResultNoId)
      else v ← index e id; Some (Value_ v, ResultMatch)
  end.

Definition isMatch (r : Result) : bool :=
  match r with ResultMatch => true | _ => false end.

(** GetBool return the potential Bool at [object], index 0, if any. *)
Definition GetBool (p : Pattern) (object : Object) : option (Z * bool) :=
  '(v, r) ← GetAt p object 0;
  if negb (isMatch r) then Some (0, false)
  else Some (match v with Bool out => (out, true) | _ => (0, false) end).

(** GetString return the potential string at [object], index 0, if any. *)
Definition GetString (p : Pattern) (object : Object)
  : option (string * bool) :=
  '(v, r) ← GetAt p object 0;
  if negb (isMatch r) then Some (EmptyString, false)
  else Some (match v with
             | String out => (out, true)
             | _ => (EmptyString, false)
             end).

Definition GetAtString (p : Pattern) (object : Object) (id : Z)
  : option (string * Result) :=
  '(v, r) ← GetAt p object id;
  if negb (isMatch r) then Some (EmptyString, r)
  else Some (match v with
             | String out => (out, ResultMatch)
             | _ => (EmptyString, ResultTypeMismatch)
             end).

(** GetCharset return the potential Charset at [object], index 0, if any. *)
Definition GetCharset (p : Pattern) (object : Object)
  : option (list Z * bool) :=
  '(v, r) ← GetAt p object 0;
  if negb (isMatch r) then Some ([], false)
  else Some (match v with Charset out => (out, true) | _ => ([], false) end).

(** GetFloat return the potential first float at [object], if any. *)
Definition GetFloat (p : Pattern) (object : Object) : option (float * bool) :=
  '(v, r) ← GetAt p object 0;
  if negb (isMatch r) then Some (0%float, false)
  else Some (match v with
             | Float out => (out, true)
             | _ => (0%float, false)
             end).

(** GetInt return the potential first int at [object], if any. *)
Definition GetInt (p : Pattern) (object : Object) : option (Z * bool) :=
  '(v, r) ← GetAt p object 0;
  if negb (isMatch r) then Some (0, false)
  else Some (match v with Int out => (out, true) | _ => (0, false) end).

(** GetMatrix return the potential Matrix at [object], index 0, if any. *)
Definition GetMatrix (p : Pattern) (object : Object)
  : option (Value * bool) :=
  '(v, r) ← GetAt p object 0;
  if negb (isMatch r) then Some (Matrix 0 0 0 0, false)
  else Some (match v with
             | Matrix xx xy yx yy => (Matrix xx xy yx yy, true)
             | _ => (Matrix 0 0 0 0, false)
             end).

Section Typed.
(** The table of admissible value kinds, one set per object, is declared
    with the objects, outside the sources at hand. *)
Variable admissible : Object → Kind → bool.

(** Modelled from the spec: [Object.hasValidType] (not among the
    sources).  Each Object has a declared set of admissible Value kinds;
    a value is valid for an object when its kind is in the set. *)
Definition hasValidType (object : Object) (v : Value) : bool :=
  admissible object (kindOf v).

(** Add adds the given list of values for the given object.
    [appendMode] controls the location of insertion in the current list:
    behind the values that are there, or ([valueList.prepend]) in front
    of them.  The second component is what the call writes to the log. *)
Definition AddList (p : Pattern) (object : Object) (list_ : valueList)
    (appendMode : bool) : Pattern * list LogLine :=
  (* Make sure the stored type is valid for built-in objects *)
  match List.find (λ value, negb (hasValidType object (Value_ value))) list_ with
  | Some value => (p, [(object, Value_ value)])
  | None =>
      let e := getVals p object in
      (<[object := if appendMode then e ++ list_ else list_ ++ e]> p, [])
  end.

Definition addWithBinding (p : Pattern) (object : Object) (value : Value)
    (binding : ValueBinding) (appendMode : bool) : Pattern * list LogLine :=
  let newV := {| Value_ := value; Binding := binding |} in
  AddList p object [newV] appendMode.

(** Add adds the given value for the given object, with a strong
    binding. *)
Definition Add (p : Pattern) (object : Object) (value : Value)
    (appendMode : bool) : Pattern * list LogLine :=
  addWithBinding p object value ValueBindingStrong appendMode.

Definition AddBool (p : Pattern) (object : Object) (value : bool)
  : Pattern * list LogLine :=
  let fBool := if value then 1 else 0 in
  Add p object (Bool fBool) true.

Definition AddInteger (p : Pattern) (object : Object) (value : Z)
  : Pattern * list LogLine := Add p object (Int value) true.

Definition AddFloat (p : Pattern) (object : Object) (value : float)
  : Pattern * list LogLine := Add p object (Float value) true.

Definition AddString (p : Pattern) (object : Object) (value : string)
  : Pattern * list LogLine := Add p object (String value) true.

(** Add all of the elements in 's' to 'p' *)
Definition append (p s : Pattern) : Pattern * list LogLine :=
  foldl (λ acc (ol : Object * valueList),
           foldl (λ acc v,
                    let '(p', lg) :=
                      addWithBinding acc.1 ol.1 (Value_ v) (Binding v) true in
                    (p', acc.2 ++ lg))
                 acc ol.2)
        (p, []) (map_to_list s).

Record PatternElement := { PE_Object : Object; PE_Value : Value }.

Definition BuildPattern (elements : list PatternElement)
  : Pattern * list LogLine :=
  foldl (λ acc el,
           let '(p', lg) := Add acc.1 (PE_Object el) (PE_Value el) true in
           (p', acc.2 ++ lg))
        (NewPattern, []) elements.

(** Modelled from the spec: [valueList.insert] at position -1 (the
    method is not among the sources).  Values whose kind is not
    admissible for the object are rejected at insertion time, the list
    staying as it was; otherwise the new values go to the tail in append
    mode and to the head in prepend mode. *)
Definition insert_ (e : valueList) (appendMode : bool) (list_ : valueList)
    (object : Object) : valueList :=
  if forallb (λ value, hasValidType object (Value_ value)) list_
  then (if appendMode then e ++ list_ else list_ ++ e)
  else e.

(** The family table that [addWithTable] and [delWithTable] keep up to
    date is no part of the pattern and is left out. *)
Definition addWithTable (p : Pattern) (object : Object) (list_ : valueList)
    (append : bool) : Pattern :=
  let e := getVals p object in
  <[object := insert_ e append list_ object]> p.

(** Delete all values associated with a field *)
Definition delWithTable (p : Pattern) (object : Object) : Pattern :=
  delete object p.

(** *** Rejected values: [Add] and [AddList] *)

Lemma find_invalid_Some (object : Object) (list_ : valueList) (v : valueElt) :
  v ∈ list_ → hasValidType object (Value_ v) = false →
  ∃ w, List.find (λ value, negb (hasValidType object (Value_ value))) list_
         = Some w ∧
       w ∈ list_ ∧ hasValidType object (Value_ w) = false.
Proof.
  intros Hin Hbad.
  destruct (List.find _ list_) as [w|] eqn:Hfind.
  - apply find_some in Hfind as [Hw Hneg]. exists w.
    split; [done|]. split; [by apply list_elem_of_In|].
    by apply negb_true_iff in Hneg.
  - apply list_elem_of_In in Hin.
    pose proof (find_none _ _ Hfind _ Hin) as Hn. simpl in Hn.
    rewrite Hbad in Hn. done.
Qed.

Lemma find_invalid_None (object : Object) (list_ : valueList) :
  List.find (λ value, negb (hasValidType object (Value_ value))) list_ = None ↔
  Forall (λ value, hasValidType object (Value_ value) = true) list_.
Proof.
  induction list_ as [|x l IH]; simpl.
  - split; [constructor | done].
  - destruct (hasValidType object (Value_ x)) eqn:Hx; simpl.
    + rewrite IH. split; [by constructor | by inversion 1].
    + split; [done | inversion 1; congruence].
Qed.


(** *** Lookups *)

Lemma index_in_range (e : valueList) (id : Z) :
  0 ≤ id < Z.of_nat (length e) →
  ∃ v, index e id = Some v ∧ e !! Z.to_nat id = Some v.
Proof.
  intros [H0 Hlt]. unfold index.
  destruct (id <? 0) eqn:Hneg; [apply Z.ltb_lt in Hneg; lia|].
  destruct (lookup_lt_is_Some_2 e (Z.to_nat id)) as [v Hv]; [lia|].
  exists v. by rewrite Hv.
Qed.

Lemma GetAt_nonneg (p : Pattern) (object : Object) (id : Z) :
  0 ≤ id →
  GetAt p object id =
    match p !! object with
    | None => Some (Nil, ResultNoMatch)
    | Some e =>
        match e !! Z.to_nat id with
        | None => Some (Nil, ResultNoId)
        | Some v => Some (Value_ v, ResultMatch)
        end
    end.
Proof.
  intros H0. unfold GetAt. destruct (p !! object) as [e|]; [|done].
  case_bool_decide as Hge.
  - rewrite lookup_ge_None_2; [done | lia].
  - destruct (index_in_range e id) as (v & Hi & Hv); [lia|].
    by rewrite Hi, Hv.
Qed.

(** What a lookup can find at [(object, id)]. *)
Inductive Found :=
| Absent                 (* no such object *)
| OutOfRange             (* the object has no value at [id] *)
| Holds (v : Value).     (* the value at [id] *)

Definition found (p : Pattern) (object : Object) (id : Z) : Found :=
  match p !! object with
  | None => Absent
  | Some e =>
      match e !! Z.to_nat id with
      | None => OutOfRange
      | Some v => Holds (Value_ v)
      end
  end.

Lemma GetAt_found (p : Pattern) (object : Object) (id : Z) :
  0 ≤ id →
  GetAt p object id =
    Some (match found p object id with
          | Absent => (Nil, ResultNoMatch)
          | OutOfRange => (Nil, ResultNoId)
          | Holds v => (v, ResultMatch)
          end).
Proof.
  intros H0. rewrite GetAt_nonneg by done. unfold found.
  destruct (p !! object) as [e|]; [|done].
  by destruct (e !! Z.to_nat id).
Qed.

(** C6, as amended.  For an index [id ≥ 0] a lookup never panics:
    [GetAt] answers "no match" for an absent object, "no id" for an
    index past the end of the list, and the value otherwise.
    [GetAtString] tells the cases apart: "no match" or "no id" when
    there is no value, "type mismatch" when the value is not a string.
    The index-0 accessors [GetBool], [GetString], [GetInt], [GetFloat],
    [GetMatrix] and [GetCharset] do not: they return the zero value and
    [false] both when there is no value and when the value has another
    type. *)
Theorem GetAt_distinguished_results
    (p : Pattern) (object : Object) (id : Z) :
  0 ≤ id →
  GetAt p object id =
    Some (match found p object id with
          | Absent => (Nil, ResultNoMatch)
          | OutOfRange => (Nil, ResultNoId)
          | Holds v => (v, ResultMatch)
          end) ∧
  GetAtString p object id =
    Some (match found p object id with
          | Absent => (EmptyString, ResultNoMatch)
          | OutOfRange => (EmptyString, ResultNoId)
          | Holds (String s) => (s, ResultMatch)
          | Holds _ => (EmptyString, ResultTypeMismatch)
          end) ∧
  GetBool p object =
    Some (match found p object 0 with
          | Holds (Bool b) => (b, true) | _ => (0, false) end) ∧
  GetString p object =
    Some (match found p object 0 with
          | Holds (String s) => (s, true) | _ => (EmptyString, false) end) ∧
  GetInt p object =
    Some (match found p object 0 with
          | Holds (Int n) => (n, true) | _ => (0, false) end) ∧
  GetFloat p object =
    Some (match found p object 0 with
          | Holds (Float f) => (f, true) | _ => (0%float, false) end) ∧
  GetMatrix p object =
    Some (match found p object 0 with
          | Holds (Matrix xx xy yx yy) => (Matrix xx xy yx yy, true)
          | _ => (Matrix 0 0 0 0, false) end) ∧
  GetCharset p object =
    Some (match found p object 0 with
          | Holds (Charset cs) => (cs, true) | _ => ([], false) end).
Proof.
  intros H0.
  unfold GetAtString, GetBool, GetString, GetInt, GetFloat, GetMatrix,
    GetCharset.
  rewrite (GetAt_found p object id H0), (GetAt_found p object 0) by lia.
  destruct (found p object id) as [| |[]];
    destruct (found p object 0) as [| |[]]; done.
Qed.

(** *** Default substitution *)

(** The identifiers of the objects that [SubstituteDefault] names.  Their
    numbers are declared with the object table, outside the sources at
    hand; all that is used of them is that they are distinct. *)
Class Objects := {
  WEIGHT : Object; SLANT : Object; WIDTH : Object;
  HINTING : Object; VERTICAL_LAYOUT : Object; AUTOHINT : Object;
  GLOBAL_ADVANCE : Object; EMBEDDED_BITMAP : Object; DECORATIVE : Object;
  SYMBOL : Object; VARIABLE : Object;
  SIZE : Object; SCALE : Object; DPI : Object; PIXEL_SIZE : Object;
  FONTVERSION : Object; HINT_STYLE : Object; NAMELANG : Object;
  FAMILYLANG : Object; STYLELANG : Object; FULLNAMELANG : Object;
  PRGNAME : Object; ORDER : Object
}.

Context `{Objects}.

Definition objectList : list Object :=
  [ WEIGHT; SLANT; WIDTH; HINTING; VERTICAL_LAYOUT; AUTOHINT;
    GLOBAL_ADVANCE; EMBEDDED_BITMAP; DECORATIVE; SYMBOL; VARIABLE;
    SIZE; SCALE; DPI; PIXEL_SIZE; FONTVERSION; HINT_STYLE; NAMELANG;
    FAMILYLANG; STYLELANG; FULLNAMELANG; PRGNAME; ORDER ].

(** The named constants of the value tables and the two reads of the
    process environment. *)
Variables WEIGHT_NORMAL SLANT_ROMAN WIDTH_NORMAL HINT_FULL : Z.
Variable getDefaultLang : string.
Variable getProgramName : string.

Definition boolDefaults : list (Object * bool) :=
  [ (HINTING, true);          (* !FT_LOAD_NO_HINTING *)
    (VERTICAL_LAYOUT, false); (* LOAD_VERTICAL_LAYOUT *)
    (AUTOHINT, false);        (* LOAD_FORCE_AUTOHINT *)
    (GLOBAL_ADVANCE, true);   (* !LOAD_IGNORE_GLOBAL_ADVANCE_WIDTH *)
    (EMBEDDED_BITMAP, true);  (* !LOAD_NO_BITMAP *)
    (DECORATIVE, false);
    (SYMBOL, false);
    (VARIABLE, false) ].

(** [pattern[object] == nil] *)
Definition isNil (p : Pattern) (object : Object) : bool :=
  match p !! object with None => true | Some _ => false end.

(** The reads of [SubstituteDefault], each with the value it falls back
    to.  [size := 12.0; sizeObj, _ := pattern.GetAt(SIZE, 0)] and the
    type switch on [sizeObj]: *)
Definition readSize (pattern : Pattern) : option float :=
  let size := 12%float in
  '(sizeObj, _) ← GetAt pattern SIZE 0;
  Some (match sizeObj with
        | Float sizeObj => sizeObj
        | Range Begin End => ((Begin + End) * 0.5)%float
        | _ => size
        end).

(** [x, ok := pattern.GetFloat(object); if !ok { x = fallback }] *)
Definition readFloat (pattern : Pattern) (object : Object) (fallback : float)
  : option float :=
  '(x, ok) ← GetFloat pattern object;
  Some (if ok : bool then x else fallback).

(** [namelang, _ := pattern.GetAt(NAMELANG, 0)] *)
Definition readNamelang (pattern : Pattern) : option Value :=
  '(namelang, _) ← GetAt pattern NAMELANG 0; Some namelang.

(** [if pattern[object] == nil { ... }]: the body runs on the pattern
    when the object is absent. *)
Definition ifNil (pattern : Pattern) (object : Object)
    (body : Pattern → Pattern) : Pattern :=
  if isNil pattern object then body pattern else pattern.

(** SubstituteDefault performs default substitutions in a pattern.  The
    lines the [Add] calls write to the log are no part of the pattern
    and are dropped here. *)
Definition SubstituteDefault (pattern : Pattern) : option Pattern :=
  let pattern := ifNil pattern WEIGHT (λ pattern,
    (AddInteger pattern WEIGHT WEIGHT_NORMAL).1) in
  let pattern := ifNil pattern SLANT (λ pattern,
    (AddInteger pattern SLANT SLANT_ROMAN).1) in
  let pattern := ifNil pattern WIDTH (λ pattern,
    (AddInteger pattern WIDTH WIDTH_NORMAL).1) in
  let pattern :=
    foldl (λ pattern (boolDef : Object * bool),
             ifNil pattern boolDef.1 (λ pattern,
               (AddBool pattern boolDef.1 boolDef.2).1))
          pattern boolDefaults in
  size ← readSize pattern;
  scale ← readFloat pattern SCALE 1;
  dpi ← readFloat pattern DPI 75;
  let '(pattern, size) :=
    match getVals pattern PIXEL_SIZE with
    | [] =>
        let pattern := Del pattern SCALE in
        let pattern := (AddFloat pattern SCALE scale).1 in
        let pixelsize := (size * scale)%float in
        let pattern := Del pattern DPI in
        let pattern := (AddFloat pattern DPI dpi).1 in
        let pixelsize := (pixelsize * (dpi / 72))%float in
        let pattern := (AddFloat pattern PIXEL_SIZE pixelsize).1 in
        (pattern, size)
    | pixelSize0 :: _ =>
        let sizeF :=
          match Value_ pixelSize0 with Float f => f | _ => 0%float end in
        (pattern, (sizeF / dpi * 72 / scale)%float)
    end in
  let pattern := Del pattern SIZE in
  let pattern := (AddFloat pattern SIZE size).1 in
  let pattern := ifNil pattern FONTVERSION (λ pattern,
    (AddInteger pattern FONTVERSION 0x7fffffff).1) in
  let pattern := ifNil pattern HINT_STYLE (λ pattern,
    (AddInteger pattern HINT_STYLE HINT_FULL).1) in
  let pattern := ifNil pattern NAMELANG (λ pattern,
    (AddString pattern NAMELANG getDefaultLang).1) in
  (* shouldn't be failed. *)
  namelang ← readNamelang pattern;
  let lang := String "en-us" in
  let pattern := ifNil pattern FAMILYLANG (λ pattern,
    let pattern := (Add pattern FAMILYLANG namelang true).1 in
    (addWithBinding pattern FAMILYLANG lang ValueBindingWeak true).1) in
  let pattern := ifNil pattern STYLELANG (λ pattern,
    let pattern := (Add pattern STYLELANG namelang true).1 in
    (addWithBinding pattern STYLELANG lang ValueBindingWeak true).1) in
  let pattern := ifNil pattern FULLNAMELANG (λ pattern,
    let pattern := (Add pattern FULLNAMELANG namelang true).1 in
    (addWithBinding pattern FULLNAMELANG lang ValueBindingWeak true).1) in
  let pattern := ifNil pattern PRGNAME (λ pattern,
    let prgname := getProgramName in
    if negb (String.eqb prgname "")
    then (AddString pattern PRGNAME prgname).1 else pattern) in
  let pattern := ifNil pattern ORDER (λ pattern,
    (AddInteger pattern ORDER 0).1) in
  Some pattern.

(** The function in blocks: the objects filled when absent, the size
    block, the language blocks. *)

Definition elt (v : Value) (b : ValueBinding) : valueElt :=
  {| Value_ := v; Binding := b |}.

Definition boolValue (b : bool) : Value := Bool (if b then 1 else 0).

Definition fill (o : Object) (v : Value) (p : Pattern) : Pattern :=
  ifNil p o (λ p, (Add p o v true).1).

Definition fillAll (l : list (Object * Value)) (p : Pattern) : Pattern :=
  foldl (λ p ov, fill ov.1 ov.2 p) p l.

Definition fillsA : list (Object * Value) :=
  [ (WEIGHT, Int WEIGHT_NORMAL); (SLANT, Int SLANT_ROMAN);
    (WIDTH, Int WIDTH_NORMAL) ]
  ++ map (λ bd : Object * bool, (bd.1, boolValue bd.2)) boolDefaults.

Definition fillsB : list (Object * Value) :=
  [ (FONTVERSION, Int 0x7fffffff); (HINT_STYLE, Int HINT_FULL);
    (NAMELANG, String getDefaultLang) ].

Definition fillsC : list (Object * Value) :=
  (if negb (String.eqb getProgramName "")
   then [(PRGNAME, String getProgramName)] else [])
  ++ [(ORDER, Int 0)].

Definition sizeOf (p : Pattern) : float :=
  match found p SIZE 0 with
  | Holds (Float f) => f
  | Holds (Range Begin End) => ((Begin + End) * 0.5)%float
  | _ => 12%float
  end.

Definition floatOr (d : float) (p : Pattern) (o : Object) : float :=
  match found p o 0 with Holds (Float f) => f | _ => d end.

Definition scaleOf (p : Pattern) : float := floatOr 1 p SCALE.
Definition dpiOf (p : Pattern) : float := floatOr 75 p DPI.

Definition namelangOf (p : Pattern) : Value :=
  match found p NAMELANG 0 with Holds v => v | _ => Nil end.

(** The pixel size computed from the point size, and the point size
    computed back from the pixel size, as the code groups them. *)
Definition pixelSizeOf (size scale dpi : float) : float :=
  (size * scale * (dpi / 72))%float.

Definition pointSizeOf (pixelSize scale dpi : float) : float :=
  (pixelSize / dpi * 72 / scale)%float.

Definition floatOfValue (v : Value) : float :=
  match v with Float f => f | _ => 0%float end.

Definition sizeBlock (p : Pattern) : Pattern :=
  let size := sizeOf p in
  let scale := scaleOf p in
  let dpi := dpiOf p in
  let '(pattern, size) :=
    match getVals p PIXEL_SIZE with
    | [] =>
        let pattern := (AddFloat (Del p SCALE) SCALE scale).1 in
        let pattern := (AddFloat (Del pattern DPI) DPI dpi).1 in
        ((AddFloat pattern PIXEL_SIZE (pixelSizeOf size scale dpi)).1, size)
    | pixelSize0 :: _ =>
        (p, pointSizeOf (floatOfValue (Value_ pixelSize0)) scale dpi)
    end in
  (AddFloat (Del pattern SIZE) SIZE size).1.

Definition enUS : Value := String "en-us".

Definition langFill (namelang : Value) (o : Object) (p : Pattern) : Pattern :=
  ifNil p o (λ p,
    (addWithBinding (Add p o namelang true).1 o enUS ValueBindingWeak true).1).

Definition langBlock (p : Pattern) : Pattern :=
  let namelang := namelangOf p in
  langFill namelang FULLNAMELANG
    (langFill namelang STYLELANG (langFill namelang FAMILYLANG p)).

Definition substituteDefault (p : Pattern) : Pattern :=
  fillAll fillsC (langBlock (fillAll fillsB (sizeBlock (fillAll fillsA p)))).

Lemma GetAt_0 (p : Pattern) (o : Object) :
  GetAt p o 0 =
    Some (match found p o 0 with
          | Absent => (Nil, ResultNoMatch)
          | OutOfRange => (Nil, ResultNoId)
          | Holds v => (v, ResultMatch)
          end).
Proof. by apply GetAt_found. Qed.

Lemma GetFloat_0 (p : Pattern) (o : Object) :
  GetFloat p o =
    Some (match found p o 0 with
          | Holds (Float f) => (f, true) | _ => (0%float, false) end).
Proof.
  unfold GetFloat. rewrite GetAt_0. simpl.
  by destruct (found p o 0) as [| |[]].
Qed.

Lemma ifNil_same (p : Pattern) (o : Object) : ifNil p o (λ p, p) = p.
Proof. unfold ifNil. by destruct (isNil p o). Qed.

Lemma readSize_total (p : Pattern) : readSize p = Some (sizeOf p).
Proof.
  unfold readSize, sizeOf. rewrite GetAt_0. simpl.
  by destruct (found p SIZE 0) as [| |[]].
Qed.

Lemma readFloat_total (p : Pattern) (o : Object) (d : float) :
  readFloat p o d = Some (floatOr d p o).
Proof.
  unfold readFloat, floatOr. rewrite GetFloat_0. simpl.
  by destruct (found p o 0) as [| |[]].
Qed.

Lemma readNamelang_total (p : Pattern) :
  readNamelang p = Some (namelangOf p).
Proof.
  unfold readNamelang, namelangOf. rewrite GetAt_0. simpl.
  by destruct (found p NAMELANG 0).
Qed.

Lemma boolDefaults_fillAll (l : list (Object * bool)) (p : Pattern) :
  foldl (λ pattern (boolDef : Object * bool),
           ifNil pattern boolDef.1 (λ pattern,
             (AddBool pattern boolDef.1 boolDef.2).1)) p l
  = fillAll (map (λ bd : Object * bool, (bd.1, boolValue bd.2)) l) p.
Proof.
  revert p. induction l as [|bd l IH]; intros p; [done|].
  simpl. rewrite IH. done.
Qed.

Lemma fillAll_app (l1 l2 : list (Object * Value)) (p : Pattern) :
  fillAll (l1 ++ l2) p = fillAll l2 (fillAll l1 p).
Proof. apply foldl_app. Qed.

(** [SubstituteDefault] always returns, and returns the composition of
    the blocks. *)
Lemma SubstituteDefault_blocks (p : Pattern) :
  SubstituteDefault p = Some (substituteDefault p).
Proof.
  unfold SubstituteDefault, substituteDefault.
  rewrite boolDefaults_fillAll.
  unfold fillsA. rewrite (fillAll_app _ _ p).
  change (fillAll [_; _; _] p) with
    (ifNil
       (ifNil
          (ifNil p WEIGHT
             (λ pattern, (AddInteger pattern WEIGHT WEIGHT_NORMAL).1))
          SLANT (λ pattern, (AddInteger pattern SLANT SLANT_ROMAN).1))
       WIDTH (λ pattern, (AddInteger pattern WIDTH WIDTH_NORMAL).1)).
  generalize (fillAll (map (λ bd : Object * bool, (bd.1, boolValue bd.2))
                         boolDefaults)
               (ifNil
                  (ifNil
                     (ifNil p WEIGHT
                        (λ pattern,
                           (AddInteger pattern WEIGHT WEIGHT_NORMAL).1))
                     SLANT
                     (λ pattern, (AddInteger pattern SLANT SLANT_ROMAN).1))
                  WIDTH
                  (λ pattern, (AddInteger pattern WIDTH WIDTH_NORMAL).1))).
  clear p. intros p.
  rewrite readSize_total, (readFloat_total p SCALE), (readFloat_total p DPI).
  change (Some ?x ≫= ?f) with (f x). cbv beta.
  change (Some ?x ≫= ?f) with (f x). cbv beta.
  change (Some ?x ≫= ?f) with (f x). cbv beta.
  assert (Hsize :
    (let '(pattern, size) :=
       match getVals p PIXEL_SIZE with
       | [] =>
           ((AddFloat
               (AddFloat
                  (Del (AddFloat (Del p SCALE) SCALE (floatOr 1 p SCALE)).1
                     DPI) DPI (floatOr 75 p DPI)).1 PIXEL_SIZE
               (sizeOf p * floatOr 1 p SCALE * (floatOr 75 p DPI / 72))).1,
            sizeOf p)
       | pixelSize0 :: _ =>
           (p, (match Value_ pixelSize0 with Float f => f | _ => 0 end
                / floatOr 75 p DPI * 72 / floatOr 1 p SCALE)%float)
       end in (AddFloat (Del pattern SIZE) SIZE size).1) = sizeBlock p).
  { unfold sizeBlock. by destruct (getVals p PIXEL_SIZE). }
  revert Hsize. generalize (sizeBlock p).
  destruct (getVals p PIXEL_SIZE) as [|pixelSize0 rest];
    intros q ->; clear p.
  all: rewrite readNamelang_total;
    change (Some ?x ≫= ?f) with (f x); cbv beta;
    match goal with |- context [namelangOf ?x] =>
      change x with (fillAll fillsB q) end;
    generalize (fillAll fillsB q); clear q; intros q;
    unfold fillsC; destruct (negb (getProgramName =? "")%string);
    rewrite ?ifNil_same; reflexivity.
Qed.

(** *** What the blocks do to each object *)

Lemma addWithBinding_pat (p : Pattern) (o : Object) (v : Value)
    (b : ValueBinding) :
  (addWithBinding p o v b true).1 =
    if hasValidType o v then <[o := getVals p o ++ [elt v b]]> p else p.
Proof.
  unfold addWithBinding, AddList. simpl.
  by destruct (hasValidType o v).
Qed.

Lemma Add_pat (p : Pattern) (o : Object) (v : Value) :
  (Add p o v true).1 =
    if hasValidType o v
    then <[o := getVals p o ++ [elt v ValueBindingStrong]]> p else p.
Proof. apply addWithBinding_pat. Qed.

Lemma Add_lookup_ne (p : Pattern) (o o' : Object) (v : Value) :
  o ≠ o' → (Add p o v true).1 !! o' = p !! o'.
Proof.
  intros Hne. rewrite Add_pat. destruct (hasValidType o v); [|done].
  by rewrite lookup_insert_ne.
Qed.

Lemma isNil_None (p : Pattern) (o : Object) : isNil p o = true ↔ p !! o = None.
Proof. unfold isNil. by destruct (p !! o). Qed.

Lemma isNil_Some (p : Pattern) (o : Object) :
  isNil p o = false ↔ is_Some (p !! o).
Proof.
  unfold isNil. destruct (p !! o); split; done.
Qed.

Lemma fill_lookup_ne (o o' : Object) (v : Value) (p : Pattern) :
  o ≠ o' → fill o v p !! o' = p !! o'.
Proof.
  intros Hne. unfold fill, ifNil. destruct (isNil p o); [|done].
  by apply Add_lookup_ne.
Qed.

Lemma fill_lookup (o : Object) (v : Value) (p : Pattern) :
  fill o v p !! o =
    match p !! o with
    | Some l => Some l
    | None =>
        if hasValidType o v then Some [elt v ValueBindingStrong] else None
    end.
Proof.
  unfold fill, ifNil, isNil. destruct (p !! o) as [l|] eqn:Hl; [done|].
  rewrite Add_pat. destruct (hasValidType o v); [|done].
  rewrite lookup_insert_eq. unfold getVals. by rewrite Hl.
Qed.

(** Nothing is left for the fill of [o] with [v] to do on [q]: the object
    is there, or it does not admit the value. *)
Definition settled (o : Object) (v : Value) (q : Pattern) : Prop :=
  is_Some (q !! o) ∨ hasValidType o v = false.

Lemma settled_ext (o : Object) (v : Value) (q q' : Pattern) :
  q !! o = q' !! o → settled o v q → settled o v q'.
Proof. unfold settled. by intros ->. Qed.

Lemma fill_settled (o : Object) (v : Value) (p : Pattern) :
  settled o v (fill o v p).
Proof.
  unfold settled. rewrite fill_lookup.
  destruct (p !! o); [left; by eexists|].
  destruct (hasValidType o v); [left; by eexists | by right].
Qed.

Lemma fill_id (o : Object) (v : Value) (q : Pattern) :
  settled o v q → fill o v q = q.
Proof.
  intros [Hs | Hbad]; unfold fill, ifNil.
  - apply isNil_Some in Hs. by rewrite Hs.
  - destruct (isNil q o); [|done]. by rewrite Add_pat, Hbad.
Qed.

Lemma fillAll_lookup_notin (l : list (Object * Value)) (o : Object)
    (p : Pattern) :
  o ∉ l.*1 → fillAll l p !! o = p !! o.
Proof.
  revert p. induction l as [|[o' v] l IH]; intros p Hnotin; [done|].
  simpl in *. apply not_elem_of_cons in Hnotin as [Hne Hnotin].
  unfold fillAll in *. simpl. rewrite IH by done.
  by apply fill_lookup_ne.
Qed.

Lemma fillAll_settled (l : list (Object * Value)) (o : Object) (v : Value)
    (p : Pattern) :
  NoDup l.*1 → (o, v) ∈ l → settled o v (fillAll l p).
Proof.
  revert p. induction l as [|[o' v'] l IH]; intros p Hnd Hin.
  - by apply elem_of_nil in Hin.
  - simpl in Hnd. apply NoDup_cons in Hnd as [Hnotin Hnd].
    change (fillAll ((o', v') :: l) p) with (fillAll l (fill o' v' p)).
    apply elem_of_cons in Hin as [Heq | Hin].
    + inversion Heq; subst o' v'.
      eapply settled_ext; [|apply (fill_settled o v p)].
      symmetry. by apply fillAll_lookup_notin.
    + by apply IH.
Qed.

Lemma fillAll_id (l : list (Object * Value)) (q : Pattern) :
  (∀ o v, (o, v) ∈ l → settled o v q) → fillAll l q = q.
Proof.
  induction l as [|[o v] l IH]; intros Hall; [done|].
  change (fillAll ((o, v) :: l) q) with (fillAll l (fill o v q)).
  rewrite fill_id by (apply Hall; left).
  apply IH. intros o' v' Hin. apply Hall. by right.
Qed.

(** The language blocks. *)
Definition langSettled (namelang : Value) (o : Object) (q : Pattern) : Prop :=
  is_Some (q !! o) ∨
  (hasValidType o namelang = false ∧ hasValidType o enUS = false).

Lemma langFill_lookup_ne (nl : Value) (o o' : Object) (p : Pattern) :
  o ≠ o' → langFill nl o p !! o' = p !! o'.
Proof.
  intros Hne. unfold langFill, ifNil. destruct (isNil p o); [|done].
  rewrite addWithBinding_pat, Add_pat.
  destruct (hasValidType o enUS), (hasValidType o nl);
    by rewrite ?lookup_insert_ne.
Qed.

Lemma langFill_settled (nl : Value) (o : Object) (p : Pattern) :
  langSettled nl o (langFill nl o p).
Proof.
  unfold langSettled, langFill, ifNil.
  destruct (isNil p o) eqn:Hnil; [|left; by apply isNil_Some].
  rewrite addWithBinding_pat, Add_pat.
  destruct (hasValidType o enUS), (hasValidType o nl);
    rewrite ?lookup_insert_eq; try (left; by eexists).
  by right.
Qed.

Lemma langFill_id (nl : Value) (o : Object) (q : Pattern) :
  langSettled nl o q → langFill nl o q = q.
Proof.
  intros [Hs | [Hb1 Hb2]]; unfold langFill, ifNil.
  - apply isNil_Some in Hs. by rewrite Hs.
  - destruct (isNil q o); [|done].
    by rewrite addWithBinding_pat, Add_pat, Hb1, Hb2.
Qed.

Lemma langSettled_ext (nl : Value) (o : Object) (q q' : Pattern) :
  q !! o = q' !! o → langSettled nl o q → langSettled nl o q'.
Proof. unfold langSettled. by intros ->. Qed.

(** *** Distinct objects *)

Definition objsA : list Object :=
  [ WEIGHT; SLANT; WIDTH; HINTING; VERTICAL_LAYOUT; AUTOHINT;
    GLOBAL_ADVANCE; EMBEDDED_BITMAP; DECORATIVE; SYMBOL; VARIABLE ].
Definition sizeObjs : list Object := [SIZE; SCALE; DPI; PIXEL_SIZE].
Definition objsB : list Object := [FONTVERSION; HINT_STYLE; NAMELANG].
Definition langObjs : list Object := [FAMILYLANG; STYLELANG; FULLNAMELANG].
Definition objsC : list Object := [PRGNAME; ORDER].

Hypothesis objs_distinct : NoDup objectList.

Lemma objs_ne (i j : nat) (x y : Object) :
  objectList !! i = Some x → objectList !! j = Some y → i ≠ j → x ≠ y.
Proof.
  intros Hi Hj Hij Heq. subst y. apply Hij.
  by eapply NoDup_lookup.
Qed.

Ltac index_of x l :=
  lazymatch l with
  | x :: _ => constr:(O)
  | _ :: ?l' => let n := index_of x l' in constr:(S n)
  end.

Ltac obj_ne :=
  lazymatch goal with
  | |- ?a ≠ ?b =>
      let l := eval unfold objectList in objectList in
      let i := index_of a l in
      let j := index_of b l in
      apply (objs_ne i j); [reflexivity | reflexivity | discriminate]
  end.

Ltac obj_notin :=
  repeat (apply not_elem_of_cons; split; [obj_ne|]); apply not_elem_of_nil.

Ltac obj_in := solve [repeat first [left | right]].

Lemma groups_disjoint :
  NoDup objsA ∧ NoDup objsB ∧ NoDup objsC ∧
  (∀ o, o ∈ objsA →
     (o ∉ sizeObjs) ∧ (o ∉ objsB) ∧ (o ∉ langObjs) ∧ (o ∉ objsC)) ∧
  (∀ o, o ∈ sizeObjs → (o ∉ objsB) ∧ (o ∉ langObjs) ∧ (o ∉ objsC)) ∧
  (∀ o, o ∈ objsB → (o ∉ sizeObjs) ∧ (o ∉ langObjs) ∧ (o ∉ objsC)) ∧
  (∀ o, o ∈ langObjs → (o ∉ sizeObjs) ∧ (o ∉ objsC)) ∧
  (∀ o, o ∈ objsC → o ∉ sizeObjs).
Proof.
  pose proof objs_distinct as Hnd.
  change objectList with
    (objsA ++ sizeObjs ++ objsB ++ langObjs ++ objsC) in Hnd.
  apply NoDup_app in Hnd as (HA & HA' & Hnd).
  apply NoDup_app in Hnd as (HS & HS' & Hnd).
  apply NoDup_app in Hnd as (HB & HB' & Hnd).
  apply NoDup_app in Hnd as (HL & HL' & HC).
  split; [done|]. split; [done|]. split; [done|].
  repeat split; try (intros o Hin); intros Hx.
  all: match goal with Hin : ?o ∈ _ |- _ =>
         first [ solve [apply (HA' o); [done | rewrite ?elem_of_app; tauto]]
               | solve [apply (HS' o); [done | rewrite ?elem_of_app; tauto]]
               | solve [apply (HB' o); [done | rewrite ?elem_of_app; tauto]]
               | solve [apply (HL' o); [done | rewrite ?elem_of_app; tauto]] ]
       end.
Qed.

(** *** The size block *)

Definition single (f : float) : valueList := [elt (Float f) ValueBindingStrong].

Lemma found_ext (p q : Pattern) (o : Object) (id : Z) :
  p !! o = q !! o → found p o id = found q o id.
Proof. unfold found. by intros ->. Qed.

Lemma getVals_ext (p q : Pattern) (o : Object) :
  p !! o = q !! o → getVals p o = getVals q o.
Proof. unfold getVals. by intros ->. Qed.

Lemma floatOr_single (d f : float) (p : Pattern) (o : Object) :
  p !! o = Some (single f) → floatOr d p o = f.
Proof. intros Hp. unfold floatOr, found. by rewrite Hp. Qed.

Lemma AddFloat_pat (p : Pattern) (o : Object) (f : float) :
  (AddFloat p o f).1 =
    if admissible o KFloat
    then <[o := getVals p o ++ single f]> p else p.
Proof. unfold AddFloat. by rewrite Add_pat. Qed.

Lemma getVals_Del (p : Pattern) (o : Object) : getVals (Del p o) o = [].
Proof. unfold getVals, Del. by rewrite lookup_delete_eq. Qed.

(** Delete, then add: the object holds the one value, or nothing when
    it does not admit floats. *)
Lemma Del_AddFloat (p : Pattern) (o : Object) (f : float) :
  (AddFloat (Del p o) o f).1 =
    if admissible o KFloat then <[o := single f]> p else delete o p.
Proof.
  rewrite AddFloat_pat, getVals_Del. destruct (admissible o KFloat); [|done].
  unfold Del. by rewrite insert_delete_eq.
Qed.

Ltac map_lookup :=
  repeat first
    [ rewrite lookup_insert_eq
    | rewrite lookup_delete_eq
    | rewrite lookup_insert_ne by obj_ne
    | rewrite lookup_delete_ne by obj_ne ].

Lemma sizeBlock_lookup_other (p : Pattern) (o : Object) :
  o ∉ sizeObjs → sizeBlock p !! o = p !! o.
Proof.
  intros Hnotin. unfold sizeObjs in Hnotin.
  repeat (apply not_elem_of_cons in Hnotin as [? Hnotin]).
  unfold sizeBlock.
  destruct (getVals p PIXEL_SIZE) as [|v l].
  - rewrite !Del_AddFloat, AddFloat_pat.
    repeat match goal with
           | |- context [admissible ?x KFloat] => destruct (admissible x KFloat)
           end.
    all: by repeat first [ rewrite lookup_insert_ne by congruence
                         | rewrite lookup_delete_ne by congruence ].
  - rewrite Del_AddFloat. destruct (admissible SIZE KFloat);
      by repeat first [ rewrite lookup_insert_ne by congruence
                      | rewrite lookup_delete_ne by congruence ].
Qed.

(** Without a pixel size: scale, dpi, the computed pixel size and the
    size are stored, each where the object admits a float. *)
Lemma sizeBlock_without_pixel_size (p : Pattern) :
  getVals p PIXEL_SIZE = [] →
  sizeBlock p !! SCALE =
    (if admissible SCALE KFloat then Some (single (scaleOf p)) else None) ∧
  sizeBlock p !! DPI =
    (if admissible DPI KFloat then Some (single (dpiOf p)) else None) ∧
  sizeBlock p !! PIXEL_SIZE =
    (if admissible PIXEL_SIZE KFloat
     then Some (single (pixelSizeOf (sizeOf p) (scaleOf p) (dpiOf p)))
     else p !! PIXEL_SIZE) ∧
  sizeBlock p !! SIZE =
    (if admissible SIZE KFloat then Some (single (sizeOf p)) else None).
Proof.
  intros Hpx. unfold sizeBlock. rewrite Hpx.
  rewrite !Del_AddFloat, AddFloat_pat.
  assert (Hpx' : ∀ q : Pattern, q !! PIXEL_SIZE = p !! PIXEL_SIZE →
                  getVals q PIXEL_SIZE = []).
  { intros q Hq. by rewrite (getVals_ext q p). }
  destruct (admissible SCALE KFloat), (admissible DPI KFloat),
    (admissible PIXEL_SIZE KFloat), (admissible SIZE KFloat).
  all: rewrite ?Hpx' by (by map_lookup).
  all: repeat split; by map_lookup.
Qed.

(** With a pixel size: only the size changes, computed back from the
    first pixel-size value. *)
Lemma sizeBlock_with_pixel_size (p : Pattern) (v : valueElt) (l : valueList) :
  getVals p PIXEL_SIZE = v :: l →
  sizeBlock p !! SCALE = p !! SCALE ∧
  sizeBlock p !! DPI = p !! DPI ∧
  sizeBlock p !! PIXEL_SIZE = p !! PIXEL_SIZE ∧
  sizeBlock p !! SIZE =
    (if admissible SIZE KFloat
     then Some (single (pointSizeOf (floatOfValue (Value_ v))
                          (scaleOf p) (dpiOf p)))
     else None).
Proof.
  intros Hpx. unfold sizeBlock. rewrite Hpx, Del_AddFloat.
  destruct (admissible SIZE KFloat); repeat split; by map_lookup.
Qed.

(** *** Which block writes which object *)

Lemma fillsA_objs : fillsA.*1 = objsA.
Proof. reflexivity. Qed.

Lemma fillsB_objs : fillsB.*1 = objsB.
Proof. reflexivity. Qed.

Lemma fillsC_objs (o : Object) : o ∈ fillsC.*1 → o ∈ objsC.
Proof.
  unfold fillsC, objsC. destruct (negb _); simpl; [done|].
  intros Hin. by right.
Qed.

Lemma fillsC_NoDup : NoDup fillsC.*1.
Proof.
  destruct groups_disjoint as (_ & _ & HC & _).
  unfold fillsC. destruct (negb _); simpl; [done|].
  apply NoDup_singleton.
Qed.

Lemma langBlock_lookup_notin (p : Pattern) (o : Object) :
  o ∉ langObjs → langBlock p !! o = p !! o.
Proof.
  intros Hnotin. unfold langObjs in Hnotin.
  repeat (apply not_elem_of_cons in Hnotin as [? Hnotin]).
  unfold langBlock. by rewrite !langFill_lookup_ne by congruence.
Qed.

Lemma substituteDefault_lookup_A (p : Pattern) (o : Object) :
  o ∈ objsA → substituteDefault p !! o = fillAll fillsA p !! o.
Proof.
  intros Hin. destruct groups_disjoint as (_ & _ & _ & HA & _).
  destruct (HA o Hin) as (HnS & HnB & HnL & HnC). unfold substituteDefault.
  rewrite fillAll_lookup_notin by (intros Hc; by apply HnC, fillsC_objs).
  rewrite langBlock_lookup_notin by done.
  rewrite fillAll_lookup_notin by (by rewrite fillsB_objs).
  by rewrite sizeBlock_lookup_other.
Qed.

Lemma substituteDefault_lookup_size (p : Pattern) (o : Object) :
  o ∈ sizeObjs →
  substituteDefault p !! o = sizeBlock (fillAll fillsA p) !! o.
Proof.
  intros Hin. destruct groups_disjoint as (_ & _ & _ & _ & HS & _).
  destruct (HS o Hin) as (HnB & HnL & HnC). unfold substituteDefault.
  rewrite fillAll_lookup_notin by (intros Hc; by apply HnC, fillsC_objs).
  rewrite langBlock_lookup_notin by done.
  by rewrite fillAll_lookup_notin by (by rewrite fillsB_objs).
Qed.

Lemma substituteDefault_lookup_B (p : Pattern) (o : Object) :
  o ∈ objsB →
  substituteDefault p !! o
  = fillAll fillsB (sizeBlock (fillAll fillsA p)) !! o.
Proof.
  intros Hin. destruct groups_disjoint as (_ & _ & _ & _ & _ & HB & _).
  destruct (HB o Hin) as (HnS & HnL & HnC). unfold substituteDefault.
  rewrite fillAll_lookup_notin by (intros Hc; by apply HnC, fillsC_objs).
  by rewrite langBlock_lookup_notin.
Qed.

Lemma substituteDefault_lookup_lang (p : Pattern) (o : Object) :
  o ∈ langObjs →
  substituteDefault p !! o
  = langBlock (fillAll fillsB (sizeBlock (fillAll fillsA p))) !! o.
Proof.
  intros Hin.
  destruct groups_disjoint as (_ & _ & _ & _ & _ & _ & HL & _).
  destruct (HL o Hin) as (HnS & HnC). unfold substituteDefault.
  by rewrite fillAll_lookup_notin by (intros Hc; by apply HnC, fillsC_objs).
Qed.

Lemma fillsA_lookup_size (p : Pattern) (o : Object) :
  o ∈ sizeObjs → fillAll fillsA p !! o = p !! o.
Proof.
  intros Hin. apply fillAll_lookup_notin. rewrite fillsA_objs.
  destruct groups_disjoint as (_ & _ & _ & HA & _).
  intros Hc. by destruct (HA o Hc) as (HnS & _).
Qed.

Lemma sizeObjs_elems :
  SIZE ∈ sizeObjs ∧ SCALE ∈ sizeObjs ∧ DPI ∈ sizeObjs ∧ PIXEL_SIZE ∈ sizeObjs.
Proof. unfold sizeObjs. repeat split; obj_in. Qed.

(** The readings of the size block do not see the fills before it. *)
Lemma fillsA_size_reads (p : Pattern) :
  sizeOf (fillAll fillsA p) = sizeOf p ∧
  scaleOf (fillAll fillsA p) = scaleOf p ∧
  dpiOf (fillAll fillsA p) = dpiOf p ∧
  getVals (fillAll fillsA p) PIXEL_SIZE = getVals p PIXEL_SIZE.
Proof.
  destruct sizeObjs_elems as (H1 & H2 & H3 & H4).
  unfold sizeOf, scaleOf, dpiOf, floatOr.
  rewrite (found_ext _ p SIZE), (found_ext _ p SCALE), (found_ext _ p DPI),
    (getVals_ext _ p PIXEL_SIZE) by (by apply fillsA_lookup_size).
  done.
Qed.

(** C7. [SubstituteDefault] returns a pattern [q] in which size and
    pixel size are resolved, where SCALE, DPI, PIXEL_SIZE and SIZE admit
    floats.  With [size] the first SIZE value of [p] (a float, or the
    midpoint of a range; 12 when SIZE is absent or holds another kind),
    [scale] its first SCALE value (1 when absent) and [dpi] its first
    DPI value (75 when absent): if [p] has no pixel-size value, [q]
    holds [scale], [dpi], the pixel size [size * scale * (dpi / 72)] and
    [size]; if [p] has one, [q] keeps it and holds the point size
    [pixelSize / dpi * 72 / scale] computed back from the first of
    them.  The arithmetic is that of [float64], grouped as written. *)
Theorem SubstituteDefault_size_resolution (p : Pattern) :
  admissible SCALE KFloat = true → admissible DPI KFloat = true →
  admissible PIXEL_SIZE KFloat = true → admissible SIZE KFloat = true →
  ∃ q, SubstituteDefault p = Some q ∧
    (getVals p PIXEL_SIZE = [] →
       q !! SCALE = Some (single (scaleOf p)) ∧
       q !! DPI = Some (single (dpiOf p)) ∧
       q !! PIXEL_SIZE =
         Some (single (sizeOf p * scaleOf p * (dpiOf p / 72))%float) ∧
       q !! SIZE = Some (single (sizeOf p))) ∧
    (∀ v l, getVals p PIXEL_SIZE = v :: l →
       q !! SIZE =
         Some (single (floatOfValue (Value_ v) / dpiOf p * 72
                       / scaleOf p)%float) ∧
       q !! PIXEL_SIZE = p !! PIXEL_SIZE ∧
       q !! SCALE = p !! SCALE ∧ q !! DPI = p !! DPI) ∧
    (p !! SIZE = None → sizeOf p = 12%float) ∧
    (∀ f b l, p !! SIZE = Some (elt (Float f) b :: l) → sizeOf p = f) ∧
    (∀ lo hi b l, p !! SIZE = Some (elt (Range lo hi) b :: l) →
       sizeOf p = ((lo + hi) * 0.5)%float) ∧
    (p !! SCALE = None → scaleOf p = 1%float) ∧
    (∀ f b l, p !! SCALE = Some (elt (Float f) b :: l) → scaleOf p = f) ∧
    (p !! DPI = None → dpiOf p = 75%float) ∧
    (∀ f b l, p !! DPI = Some (elt (Float f) b :: l) → dpiOf p = f).
Proof.
  intros HaS HaD HaP HaZ. exists (substituteDefault p).
  split; [apply SubstituteDefault_blocks|].
  destruct sizeObjs_elems as (H1 & H2 & H3 & H4).
  destruct (fillsA_size_reads p) as (Esize & Escale & Edpi & Epx).
  rewrite !substituteDefault_lookup_size by done.
  split; [|split].
  - intros Hpx.
    destruct (sizeBlock_without_pixel_size (fillAll fillsA p))
      as (-> & -> & -> & ->); [by rewrite Epx|].
    by rewrite HaS, HaD, HaP, HaZ, Esize, Escale, Edpi.
  - intros v l Hpx.
    destruct (sizeBlock_with_pixel_size (fillAll fillsA p) v l)
      as (-> & -> & -> & ->); [by rewrite Epx|].
    rewrite HaZ, Escale, Edpi.
    by rewrite !fillsA_lookup_size by done.
  - unfold sizeOf, scaleOf, dpiOf, floatOr, found.
    repeat split; intros; by simplify_option_eq.
Qed.

(** *** Running the function a second time *)

Lemma sizeBlock_ext (q q' : Pattern) :
  (∀ o, o ∈ sizeObjs → q !! o = q' !! o) →
  ∀ o, o ∈ sizeObjs → sizeBlock q !! o = sizeBlock q' !! o.
Proof.
  intros Hagree.
  destruct sizeObjs_elems as (H1 & H2 & H3 & H4).
  assert (Esize : sizeOf q = sizeOf q').
  { unfold sizeOf. by rewrite (found_ext q q' SIZE) by auto. }
  assert (Escale : scaleOf q = scaleOf q').
  { unfold scaleOf, floatOr. by rewrite (found_ext q q' SCALE) by auto. }
  assert (Edpi : dpiOf q = dpiOf q').
  { unfold dpiOf, floatOr. by rewrite (found_ext q q' DPI) by auto. }
  assert (Epx : getVals q PIXEL_SIZE = getVals q' PIXEL_SIZE).
  { apply getVals_ext. auto. }
  assert (Hcases : sizeBlock q !! SIZE = sizeBlock q' !! SIZE ∧
                   sizeBlock q !! SCALE = sizeBlock q' !! SCALE ∧
                   sizeBlock q !! DPI = sizeBlock q' !! DPI ∧
                   sizeBlock q !! PIXEL_SIZE = sizeBlock q' !! PIXEL_SIZE).
  { destruct (getVals q PIXEL_SIZE) as [|v l] eqn:Hpx.
    - destruct (sizeBlock_without_pixel_size q Hpx) as (-> & -> & -> & ->).
      destruct (sizeBlock_without_pixel_size q') as (-> & -> & -> & ->);
        [done|].
      by rewrite Esize, Escale, Edpi, (Hagree PIXEL_SIZE).
    - destruct (sizeBlock_with_pixel_size q v l Hpx) as (-> & -> & -> & ->).
      destruct (sizeBlock_with_pixel_size q' v l) as (-> & -> & -> & ->);
        [done|].
      by rewrite Escale, Edpi, !Hagree. }
  destruct Hcases as (E1 & E2 & E3 & E4).
  intros o Hin. unfold sizeObjs in Hin.
  repeat (apply elem_of_cons in Hin as [-> | Hin]; [done|]).
  by apply elem_of_nil in Hin.
Qed.

(** A second size block leaves scale, dpi and pixel size as the first
    left them; it leaves the size too when the pattern came with a
    pixel size. *)
Lemma sizeBlock_twice (p : Pattern) :
  sizeBlock (sizeBlock p) !! SCALE = sizeBlock p !! SCALE ∧
  sizeBlock (sizeBlock p) !! DPI = sizeBlock p !! DPI ∧
  sizeBlock (sizeBlock p) !! PIXEL_SIZE = sizeBlock p !! PIXEL_SIZE ∧
  (getVals p PIXEL_SIZE ≠ [] →
     sizeBlock (sizeBlock p) !! SIZE = sizeBlock p !! SIZE).
Proof.
  destruct (getVals p PIXEL_SIZE) as [|v l] eqn:Hpx.
  - destruct (sizeBlock_without_pixel_size p Hpx) as (ES & ED & EP & EZ).
    destruct (admissible PIXEL_SIZE KFloat) eqn:HaP.
    + destruct (sizeBlock_with_pixel_size (sizeBlock p)
                  (elt (Float (pixelSizeOf (sizeOf p) (scaleOf p) (dpiOf p)))
                       ValueBindingStrong) [])
        as (-> & -> & -> & _); [|done].
      unfold getVals. by rewrite EP.
    + assert (Hpx' : getVals (sizeBlock p) PIXEL_SIZE = []).
      { by rewrite (getVals_ext _ p). }
      destruct (sizeBlock_without_pixel_size (sizeBlock p) Hpx')
        as (-> & -> & -> & _).
      rewrite HaP, ES, ED. repeat split; try done.
      * destruct (admissible SCALE KFloat); [|done].
        unfold scaleOf. by rewrite (floatOr_single _ (scaleOf p)).
      * destruct (admissible DPI KFloat); [|done].
        unfold dpiOf. by rewrite (floatOr_single _ (dpiOf p)).
  - destruct (sizeBlock_with_pixel_size p v l Hpx) as (ES & ED & EP & EZ).
    assert (Hpx' : getVals (sizeBlock p) PIXEL_SIZE = v :: l).
    { by rewrite (getVals_ext _ p). }
    destruct (sizeBlock_with_pixel_size (sizeBlock p) v l Hpx')
      as (-> & -> & -> & ->).
    repeat split; try done. intros _. rewrite EZ.
    unfold scaleOf, dpiOf, floatOr.
    by rewrite (found_ext _ p SCALE), (found_ext _ p DPI).
Qed.

(** After one run nothing is left to fill. *)
Lemma substituteDefault_settled (p : Pattern) :
  let q := substituteDefault p in
  (∀ o v, (o, v) ∈ fillsA → settled o v q) ∧
  (∀ o v, (o, v) ∈ fillsB → settled o v q) ∧
  (∀ o v, (o, v) ∈ fillsC → settled o v q) ∧
  namelangOf q
    = namelangOf (fillAll fillsB (sizeBlock (fillAll fillsA p))) ∧
  (∀ o, o ∈ langObjs → langSettled (namelangOf q) o q).
Proof.
  intros q. destruct groups_disjoint as (HA & HB & HC & _).
  assert (Hnl : namelangOf q
    = namelangOf (fillAll fillsB (sizeBlock (fillAll fillsA p)))).
  { unfold namelangOf.
    rewrite (found_ext q (fillAll fillsB (sizeBlock (fillAll fillsA p)))
               NAMELANG); [done|].
    apply substituteDefault_lookup_B. unfold objsB. obj_in. }
  repeat split; try done.
  - intros o v Hin. eapply settled_ext.
    + symmetry. apply substituteDefault_lookup_A. rewrite <- fillsA_objs.
      by apply (list_elem_of_fmap_2 fst _ (o, v)).
    + apply fillAll_settled; [by rewrite fillsA_objs | done].
  - intros o v Hin. eapply settled_ext.
    + symmetry. apply substituteDefault_lookup_B. rewrite <- fillsB_objs.
      by apply (list_elem_of_fmap_2 fst _ (o, v)).
    + apply fillAll_settled; [by rewrite fillsB_objs | done].
  - intros o v Hin. apply fillAll_settled; [apply fillsC_NoDup | done].
  - intros o Hin. rewrite Hnl.
    set (p3 := fillAll fillsB (sizeBlock (fillAll fillsA p))).
    eapply langSettled_ext.
    + symmetry. by apply substituteDefault_lookup_lang.
    + fold p3. unfold langBlock. cbv zeta.
      set (nl := namelangOf p3).
      unfold langObjs in Hin.
      apply elem_of_cons in Hin as [-> | Hin];
        [|apply elem_of_cons in Hin as [-> | Hin];
          [|apply elem_of_cons in Hin as [-> | Hin];
            [|by apply elem_of_nil in Hin]]].
      * eapply langSettled_ext; [|apply (langFill_settled nl FAMILYLANG p3)].
        by rewrite (langFill_lookup_ne nl FULLNAMELANG FAMILYLANG),
          (langFill_lookup_ne nl STYLELANG FAMILYLANG) by obj_ne.
      * eapply langSettled_ext;
          [|apply (langFill_settled nl STYLELANG
                     (langFill nl FAMILYLANG p3))].
        by rewrite (langFill_lookup_ne nl FULLNAMELANG STYLELANG) by obj_ne.
      * apply langFill_settled.
Qed.

(** A second run only redoes the size block. *)
Lemma second_run_is_sizeBlock (p : Pattern) :
  substituteDefault (substituteDefault p) = sizeBlock (substituteDefault p).
Proof.
  destruct (substituteDefault_settled p) as (SA & SB & SC & _ & SL).
  destruct groups_disjoint as (_ & _ & _ & _ & _ & DB & DL & DC).
  set (q := substituteDefault p) in *.
  unfold substituteDefault at 1.
  rewrite (fillAll_id fillsA q) by exact SA.
  set (q2 := sizeBlock q).
  assert (Hother : ∀ o, o ∉ sizeObjs → q2 !! o = q !! o).
  { intros o Ho. by apply sizeBlock_lookup_other. }
  rewrite (fillAll_id fillsB q2).
  2:{ intros o v Hin. eapply settled_ext; [|by apply (SB o v)].
      symmetry. apply Hother.
      apply (DB o). rewrite <- fillsB_objs.
      by apply (list_elem_of_fmap_2 fst _ (o, v)). }
  assert (Hnl : namelangOf q2 = namelangOf q).
  { unfold namelangOf. rewrite (found_ext q2 q NAMELANG); [done|].
    apply Hother, (DB NAMELANG). unfold objsB. obj_in. }
  assert (HL : ∀ o, o ∈ langObjs → langSettled (namelangOf q2) o q2).
  { intros o Hin. rewrite Hnl.
    eapply langSettled_ext; [|by apply SL].
    symmetry. by apply Hother, (DL o). }
  unfold langBlock.
  rewrite (langFill_id _ FAMILYLANG q2) by (apply HL; unfold langObjs; obj_in).
  rewrite (langFill_id _ STYLELANG q2) by (apply HL; unfold langObjs; obj_in).
  rewrite (langFill_id _ FULLNAMELANG q2) by (apply HL; unfold langObjs; obj_in).
  apply fillAll_id. intros o v Hin.
  eapply settled_ext; [|by apply (SC o v)].
  symmetry. apply Hother, (DC o), fillsC_objs.
  by apply (list_elem_of_fmap_2 fst _ (o, v)).
Qed.

(** C2, as amended.  [SubstituteDefault] always returns.  Applied to its
    own result it only runs the size block again: every object but SIZE
    stays as the first run left it, and the point size is computed anew
    from the stored pixel size, dpi and scale.  When the pattern came
    with a pixel-size value the second run changes nothing at all. *)
Theorem SubstituteDefault_twice (p : Pattern) :
  ∃ q q', SubstituteDefault p = Some q ∧ SubstituteDefault q = Some q' ∧
    q' = sizeBlock q ∧
    (∀ o, o ≠ SIZE → q' !! o = q !! o) ∧
    (getVals p PIXEL_SIZE ≠ [] → q' = q).
Proof.
  exists (substituteDefault p), (substituteDefault (substituteDefault p)).
  split; [apply SubstituteDefault_blocks|].
  split; [apply SubstituteDefault_blocks|].
  rewrite second_run_is_sizeBlock. split; [done|].
  set (q := substituteDefault p).
  destruct sizeObjs_elems as (H1 & H2 & H3 & H4).
  assert (Hq : ∀ o, o ∈ sizeObjs →
            q !! o = sizeBlock (fillAll fillsA p) !! o).
  { intros o Ho. by apply substituteDefault_lookup_size. }
  pose proof (sizeBlock_ext q (sizeBlock (fillAll fillsA p)) Hq) as Hext.
  destruct (sizeBlock_twice (fillAll fillsA p)) as (TS & TD & TP & TZ).
  assert (Hthree : sizeBlock q !! SCALE = q !! SCALE ∧
                   sizeBlock q !! DPI = q !! DPI ∧
                   sizeBlock q !! PIXEL_SIZE = q !! PIXEL_SIZE).
  { by rewrite !Hext, !Hq, TS, TD, TP by done. }
  destruct Hthree as (ES & ED & EP).
  assert (Hoff : ∀ o, o ≠ SIZE → sizeBlock q !! o = q !! o).
  { intros o Hne.
    destruct (decide (o = SCALE)) as [->|]; [done|].
    destruct (decide (o = DPI)) as [->|]; [done|].
    destruct (decide (o = PIXEL_SIZE)) as [->|]; [done|].
    apply sizeBlock_lookup_other. unfold sizeObjs.
    repeat (apply not_elem_of_cons; split; [done|]). apply not_elem_of_nil. }
  split; [done|].
  intros Hpx. apply map_eq. intros o.
  destruct (decide (o = SIZE)) as [->|Hne]; [|by apply Hoff].
  rewrite Hext, Hq by done. apply TZ.
  by destruct (fillsA_size_reads p) as (_ & _ & _ & ->).
Qed.

(** *** Stored values are admissible *)

Definition valid (o : Object) (e : valueElt) : Prop :=
  hasValidType o (Value_ e) = true.

(** Every value stored under an object has a kind admissible for it. *)
Definition wellTyped (p : Pattern) : Prop :=
  ∀ o l, p !! o = Some l → Forall (valid o) l.

Lemma wellTyped_empty : wellTyped NewPattern.
Proof. intros o l Hl. unfold NewPattern in Hl. by rewrite lookup_empty in Hl. Qed.

Lemma wellTyped_getVals (p : Pattern) (o : Object) :
  wellTyped p → Forall (valid o) (getVals p o).
Proof.
  intros Hp. unfold getVals. destruct (p !! o) as [l|] eqn:Hl; [|done].
  by apply (Hp o).
Qed.

Lemma wellTyped_insert (p : Pattern) (o : Object) (l : valueList) :
  wellTyped p → Forall (valid o) l → wellTyped (<[o := l]> p).
Proof.
  intros Hp Hl o' l' Hlook.
  destruct (decide (o = o')) as [->|Hne].
  - rewrite lookup_insert_eq in Hlook. by inversion Hlook; subst.
  - rewrite lookup_insert_ne in Hlook by done. by apply (Hp o').
Qed.

Lemma wellTyped_delete (p : Pattern) (o : Object) :
  wellTyped p → wellTyped (delete o p).
Proof.
  intros Hp o' l' Hlook. apply lookup_delete_Some in Hlook as [_ Hlook].
  by apply (Hp o').
Qed.

Lemma AddList_stores_checked (p : Pattern) (o : Object) (list_ : valueList)
    (appendMode : bool) :
  (Forall (valid o) list_ ∧
   AddList p o list_ appendMode =
     (<[o := if appendMode then getVals p o ++ list_
             else list_ ++ getVals p o]> p, [])) ∨
  (¬ Forall (valid o) list_ ∧ (AddList p o list_ appendMode).1 = p).
Proof.
  unfold AddList.
  destruct (List.find _ list_) as [w|] eqn:Hfind.
  - right. split; [|done]. intros Hall.
    apply find_invalid_None in Hall. congruence.
  - left. split; [|done]. by apply find_invalid_None.
Qed.

Lemma AddList_wellTyped (p : Pattern) (o : Object) (list_ : valueList)
    (appendMode : bool) :
  wellTyped p → wellTyped (AddList p o list_ appendMode).1.
Proof.
  intros Hp.
  destruct (AddList_stores_checked p o list_ appendMode)
    as [[Hall ->] | [_ ->]]; [|done].
  simpl. apply wellTyped_insert; [done|].
  pose proof (wellTyped_getVals p o Hp).
  destruct appendMode; by apply Forall_app.
Qed.

Lemma addWithBinding_wellTyped (p : Pattern) (o : Object) (v : Value)
    (b : ValueBinding) (appendMode : bool) :
  wellTyped p → wellTyped (addWithBinding p o v b appendMode).1.
Proof. apply AddList_wellTyped. Qed.

Lemma append_wellTyped (p s : Pattern) : wellTyped p → wellTyped (append p s).1.
Proof.
  unfold append. generalize (map_to_list s). intros entries.
  generalize (@nil LogLine). revert p.
  induction entries as [|[o l] entries IH]; intros p lg Hp; [done|].
  simpl.
  assert (Hinner : ∀ (l' : valueList) (acc : Pattern * list LogLine),
            wellTyped acc.1 →
            wellTyped
              (foldl (λ acc v,
                        let '(p', lg) :=
                          addWithBinding acc.1 o (Value_ v) (Binding v) true in
                        (p', acc.2 ++ lg)) acc l').1).
  { induction l' as [|v l' IHl]; intros acc Hacc; [done|].
    simpl. apply IHl.
    pose proof (addWithBinding_wellTyped acc.1 o (Value_ v) (Binding v)
                  true Hacc) as Hstep.
    by destruct (addWithBinding acc.1 o (Value_ v) (Binding v) true). }
  specialize (Hinner l (p, lg) Hp).
  destruct (foldl _ (p, lg) l) as [p' lg']. by apply IH.
Qed.

Lemma BuildPattern_wellTyped (elements : list PatternElement) :
  wellTyped (BuildPattern elements).1.
Proof.
  unfold BuildPattern.
  pose proof wellTyped_empty as Hp. revert Hp.
  generalize NewPattern. generalize (@nil LogLine).
  induction elements as [|el elements IH]; intros lg p Hp; [done|].
  simpl.
  pose proof (addWithBinding_wellTyped p (PE_Object el) (PE_Value el)
                ValueBindingStrong true Hp) as Hstep.
  unfold Add.
  destruct (addWithBinding p (PE_Object el) (PE_Value el)
              ValueBindingStrong true) as [p' lg'].
  by apply IH.
Qed.

Lemma insert__valid (e list_ : valueList) (appendMode : bool) (o : Object) :
  Forall (valid o) e → Forall (valid o) (insert_ e appendMode list_ o).
Proof.
  intros He. unfold insert_.
  destruct (forallb _ list_) eqn:Hall; [|done].
  assert (Forall (valid o) list_).
  { apply Forall_forall. intros x Hx.
    apply list_elem_of_In in Hx.
    by apply (proj1 (forallb_forall _ _) Hall). }
  destruct appendMode; by apply Forall_app.
Qed.

Lemma addWithTable_wellTyped (p : Pattern) (o : Object) (list_ : valueList)
    (appendMode : bool) :
  wellTyped p → wellTyped (addWithTable p o list_ appendMode).
Proof.
  intros Hp. apply wellTyped_insert; [done|].
  by apply insert__valid, wellTyped_getVals.
Qed.

Lemma canon_wellTyped (p : Pattern) (o : Object) :
  wellTyped p → wellTyped (canon p o).
Proof.
  intros Hp. unfold canon. destruct (p !! o); [case_bool_decide|];
    try done; by apply wellTyped_delete.
Qed.

Lemma Duplicate_wellTyped (p : Pattern) : wellTyped p → wellTyped (Duplicate p).
Proof.
  intros Hp o l Hl. unfold Duplicate in Hl. rewrite lookup_fmap in Hl.
  destruct (p !! o) as [l'|] eqn:Hl'; [|done].
  inversion Hl; subst. by apply (Hp o).
Qed.

Lemma ifNil_wellTyped (p : Pattern) (o : Object) (body : Pattern → Pattern) :
  (∀ q, wellTyped q → wellTyped (body q)) →
  wellTyped p → wellTyped (ifNil p o body).
Proof. intros Hbody Hp. unfold ifNil. destruct (isNil p o); auto. Qed.

Lemma fillAll_wellTyped (l : list (Object * Value)) (p : Pattern) :
  wellTyped p → wellTyped (fillAll l p).
Proof.
  revert p. induction l as [|[o v] l IH]; intros p Hp; [done|].
  apply IH. apply ifNil_wellTyped; [|done].
  intros q Hq. by apply addWithBinding_wellTyped.
Qed.

Lemma substituteDefault_wellTyped (p : Pattern) :
  wellTyped p → wellTyped (substituteDefault p).
Proof.
  intros Hp. unfold substituteDefault.
  apply fillAll_wellTyped. unfold langBlock, langFill.
  repeat (apply ifNil_wellTyped;
          [intros q Hq; by do 2 apply addWithBinding_wellTyped|]).
  apply fillAll_wellTyped.
  unfold sizeBlock, AddFloat, Add, Del.
  destruct (getVals _ PIXEL_SIZE);
    repeat first [ apply addWithBinding_wellTyped | apply wellTyped_delete ];
    by apply fillAll_wellTyped.
Qed.

(** C4.  Every operation of the pattern keeps the values stored under an
    object admissible for it.  [AddList], through which [Add],
    [addWithBinding], the typed [Add...], [append], [BuildPattern] and
    [SubstituteDefault] insert, stores a list only when each of its
    values passed [hasValidType]; [addWithTable] stores what the
    insertion of the value list lets through; deleting and copying
    store nothing new. *)
Theorem pattern_values_admissible (p : Pattern) :
  wellTyped p →
  (∀ o list_ m, wellTyped (AddList p o list_ m).1 ∧
     (Forall (valid o) list_ ∨ (AddList p o list_ m).1 = p)) ∧
  (∀ o v b m, wellTyped (addWithBinding p o v b m).1) ∧
  (∀ o v m, wellTyped (Add p o v m).1) ∧
  (∀ o b, wellTyped (AddBool p o b).1) ∧
  (∀ o n, wellTyped (AddInteger p o n).1) ∧
  (∀ o f, wellTyped (AddFloat p o f).1) ∧
  (∀ o s, wellTyped (AddString p o s).1) ∧
  (∀ s, wellTyped (append p s).1) ∧
  (∀ o list_ m, wellTyped (addWithTable p o list_ m)) ∧
  (∀ o, wellTyped (Del p o)) ∧
  (∀ o, wellTyped (delWithTable p o)) ∧
  (∀ o, wellTyped (canon p o)) ∧
  wellTyped (Duplicate p) ∧
  (∀ q, SubstituteDefault p = Some q → wellTyped q) ∧
  wellTyped NewPattern ∧
  (∀ elements, wellTyped (BuildPattern elements).1).
Proof.
  intros Hp. repeat split.
  - by apply AddList_wellTyped.
  - destruct (AddList_stores_checked p o list_ m) as [[? _] | [_ ?]]; auto.
  - intros. by apply addWithBinding_wellTyped.
  - intros. by apply addWithBinding_wellTyped.
  - intros. by apply addWithBinding_wellTyped.
  - intros. by apply addWithBinding_wellTyped.
  - intros. by apply addWithBinding_wellTyped.
  - intros. by apply addWithBinding_wellTyped.
  - intros. by apply append_wellTyped.
  - intros. by apply addWithTable_wellTyped.
  - intros. by apply wellTyped_delete.
  - intros. by apply wellTyped_delete.
  - intros. by apply canon_wellTyped.
  - by apply Duplicate_wellTyped.
  - intros q Hq. rewrite SubstituteDefault_blocks in Hq.
    inversion Hq; subst. by apply substituteDefault_wellTyped.
  - apply wellTyped_empty.
  - apply BuildPattern_wellTyped.
Qed.

(** *** Hash *)

(** [byte(x)], [uint16(x)], [uint32(x)] *)
Definition byte (x : Z) : Z := x mod 256.
Definition uint16 (x : Z) : Z := x mod 2 ^ 16.
Definition uint32 (x : Z) : Z := x mod 2 ^ 32.

(** [binary.BigEndian.PutUint16] and [PutUint32]: the bytes written. *)
Definition PutUint16 (v : Z) : list Z := [byte (Z.shiftr v 8); byte v].
Definition PutUint32 (v : Z) : list Z :=
  [byte (Z.shiftr v 24); byte (Z.shiftr v 16); byte (Z.shiftr v 8); byte v].

(** The hash of a value list is computed by [valueList.Hash], which is
    not among the sources. *)
Variable vlHash : valueList → list Z.

Definition sortedKeys (p : Pattern) : list Object :=
  let keys := (map_to_list p).*1 in
  sortSlice (lessKey (λ k : Object, k)) keys.

(** Hash returns a value, usable as map key, and defining the pattern in
    terms of equality. *)
Definition Hash (p : Pattern) : list Z :=
  foldl (λ hash object,
           match p !! object with
           | None => hash
           | Some v =>
               if bool_decide (length v = 0%nat) then hash
               else
                 (* to make the hash unique, we add the length of each
                    object value *)
                 let tmp := vlHash v in
                 let buf := PutUint16 (uint16 object)
                            ++ PutUint32 (uint32 (Z.of_nat (length tmp))) in
                 (hash ++ buf) ++ tmp
           end) [] (sortedKeys p).

(** The pattern without its empty lists: what [Hash] reads. *)
Definition nonEmpty (p : Pattern) : Pattern :=
  filter (λ ol : Object * valueList, ol.2 ≠ []) p.

Lemma PutUint16_inj (a b : Z) :
  PutUint16 (uint16 a) = PutUint16 (uint16 b) → uint16 a = uint16 b.
Proof.
  unfold PutUint16, byte, uint16. rewrite !Z.shiftr_div_pow2 by lia.
  intros Heq. inversion Heq as [[H1 H2]]. clear Heq.
  change (2 ^ 16) with 65536 in *. change (2 ^ 8) with 256 in *.
  revert H1 H2. generalize (a mod 65536) (b mod 65536) (Z.mod_pos_bound a 65536 eq_refl) (Z.mod_pos_bound b 65536 eq_refl).
  intros x y Hx Hy H1 H2. Z.div_mod_to_equations. lia.
Qed.

Lemma PutUint32_inj (a b : Z) :
  PutUint32 (uint32 a) = PutUint32 (uint32 b) → uint32 a = uint32 b.
Proof.
  unfold PutUint32, byte, uint32. rewrite !Z.shiftr_div_pow2 by lia.
  intros Heq. inversion Heq as [[H1 H2 H3 H4]]. clear Heq.
  change (2 ^ 32) with 4294967296 in *. change (2 ^ 24) with 16777216 in *.
  change (2 ^ 16) with 65536 in *. change (2 ^ 8) with 256 in *.
  revert H1 H2 H3 H4.
  generalize (a mod 4294967296) (b mod 4294967296)
    (Z.mod_pos_bound a 4294967296 eq_refl)
    (Z.mod_pos_bound b 4294967296 eq_refl).
  intros x y Hx Hy H1 H2 H3 H4. Z.div_mod_to_equations. lia.
Qed.

(** One object's share of the hash: the header and the bytes of its
    value list. *)
Definition enc (o : Object) (tmp : list Z) : list Z :=
  (PutUint16 (uint16 o) ++ PutUint32 (uint32 (Z.of_nat (length tmp)))) ++ tmp.

(** The objects that contribute to the hash, in the order of the loop. *)
Definition hashedKeys (p : Pattern) : list Object :=
  filter (λ o, getVals p o ≠ []) (sortedKeys p).

Lemma Hash_concat (p : Pattern) :
  Hash p = concat (map (λ o, enc o (vlHash (getVals p o))) (hashedKeys p)).
Proof.
  unfold Hash, hashedKeys. generalize (sortedKeys p). intros l.
  rewrite <- (app_nil_l (concat _)). generalize (@nil Z).
  induction l as [|o l IH]; intros acc.
  - simpl. by rewrite app_nil_r.
  - cbn [foldl]. rewrite IH, filter_cons. cbv beta.
    destruct (decide (getVals p o ≠ [])) as [Hne|He].
    + cbn [map concat]. unfold getVals in Hne |- *.
      destruct (p !! o) as [v|]; [|done].
      rewrite bool_decide_eq_false_2 by (by destruct v).
      unfold enc. by rewrite <- !app_assoc.
    + assert (Hnil : getVals p o = []).
      { destruct (getVals p o); [done|]. by destruct He. }
      unfold getVals in Hnil. destruct (p !! o) as [v|]; [|done].
      by rewrite Hnil.
Qed.

Lemma enc_concat_inj (l1 l2 : list (Z * list Z)) :
  Forall (λ ot, Z.of_nat (length ot.2) < 2 ^ 32) l1 →
  Forall (λ ot, Z.of_nat (length ot.2) < 2 ^ 32) l2 →
  concat (map (λ ot, enc ot.1 ot.2) l1) = concat (map (λ ot, enc ot.1 ot.2) l2) →
  map (λ ot, (uint16 ot.1, ot.2)) l1 = map (λ ot, (uint16 ot.1, ot.2)) l2.
Proof.
  revert l2. induction l1 as [|[o1 t1] l1 IH]; intros [|[o2 t2] l2] H1 H2 Heq;
    try done.
  simpl in Heq. unfold enc in Heq. simpl in Heq.
  inversion Heq as [[E0 E1 E2 E3 E4 E5 Erest]]. clear Heq.
  assert (Eo : uint16 o1 = uint16 o2).
  { apply PutUint16_inj. unfold PutUint16. by rewrite E0, E1. }
  assert (El : uint32 (Z.of_nat (length t1)) = uint32 (Z.of_nat (length t2))).
  { apply PutUint32_inj. unfold PutUint32. by rewrite E2, E3, E4, E5. }
  apply Forall_cons in H1 as [B1 H1]. apply Forall_cons in H2 as [B2 H2].
  simpl in B1, B2. unfold uint32 in El.
  rewrite !Z.mod_small in El by lia.
  apply app_inj_1 in Erest as [-> Erest]; [|lia].
  simpl. rewrite Eo. f_equal. by apply IH.
Qed.

Lemma sortedKeys_elem_of (p : Pattern) (o : Object) :
  o ∈ sortedKeys p ↔ is_Some (p !! o).
Proof.
  unfold sortedKeys. rewrite sortSlice_elem_of, list_elem_of_fmap. split.
  - intros ([o' l] & -> & Hin). apply elem_of_map_to_list in Hin. by eexists.
  - intros [l Hl]. exists (o, l). split; [done|].
    by apply elem_of_map_to_list.
Qed.

Lemma sortedKeys_NoDup (p : Pattern) : NoDup (sortedKeys p).
Proof.
  unfold sortedKeys. rewrite sortSlice_Permutation.
  apply NoDup_fst_map_to_list.
Qed.

Lemma sortedKeys_Sorted (p : Pattern) : StronglySorted Z.le (sortedKeys p).
Proof.
  apply Sorted_StronglySorted; [apply _|].
  exact (sortSlice_Sorted (λ k : Object, k) _).
Qed.

Lemma hashedKeys_elem_of (p : Pattern) (o : Object) :
  o ∈ hashedKeys p ↔ nonEmpty p !! o = Some (getVals p o).
Proof.
  unfold hashedKeys, nonEmpty.
  rewrite list_elem_of_filter, sortedKeys_elem_of, map_lookup_filter_Some.
  unfold getVals. simpl. split.
  - intros [Hne [l Hl]]. rewrite Hl in *. done.
  - intros [Hl Hne]. destruct (p !! o) as [l|]; [|done].
    inversion Hl; subst. split; [done | by eexists].
Qed.

Lemma nonEmpty_lookup_hashed (p : Pattern) (o : Object) (l : valueList) :
  nonEmpty p !! o = Some l → o ∈ hashedKeys p ∧ getVals p o = l.
Proof.
  intros Hl. assert (Hg : getVals p o = l).
  { unfold nonEmpty in Hl. apply map_lookup_filter_Some in Hl as [Hl _].
    unfold getVals. by rewrite Hl. }
  split; [|done]. apply hashedKeys_elem_of. by rewrite Hg.
Qed.

Lemma StronglySorted_filter_le (P : Z → Prop) `{∀ x, Decision (P x)}
    (l : list Z) :
  StronglySorted Z.le l → StronglySorted Z.le (filter P l).
Proof.
  induction 1 as [|x l Hl IH Hx]; [constructor|].
  rewrite filter_cons. destruct (decide (P x)); [|done].
  constructor; [done|].
  apply Forall_forall. intros y Hy. apply list_elem_of_filter in Hy as [_ Hy].
  by apply (proj1 (Forall_forall _ _) Hx).
Qed.

Lemma hashedKeys_determined (p q : Pattern) :
  nonEmpty p = nonEmpty q →
  hashedKeys p = hashedKeys q ∧
  ∀ o, o ∈ hashedKeys p → getVals p o = getVals q o.
Proof.
  intros Heq.
  assert (Hmem : ∀ o, o ∈ hashedKeys p ↔ o ∈ hashedKeys q).
  { intros o. rewrite !hashedKeys_elem_of. split; intros Ho.
    - rewrite Heq in Ho.
      destruct (nonEmpty_lookup_hashed _ _ _ Ho) as [_ Hg]. by rewrite Hg.
    - rewrite <- Heq in Ho.
      destruct (nonEmpty_lookup_hashed _ _ _ Ho) as [_ Hg]. by rewrite Hg. }
  split.
  - apply (StronglySorted_unique Z.le).
    + apply StronglySorted_filter_le, sortedKeys_Sorted.
    + apply StronglySorted_filter_le, sortedKeys_Sorted.
    + apply NoDup_Permutation; [| |done];
        apply NoDup_filter, sortedKeys_NoDup.
  - intros o Ho. apply hashedKeys_elem_of in Ho. rewrite Heq in Ho.
    by apply nonEmpty_lookup_hashed in Ho as [_ ->].
Qed.

Lemma keyed_map_inj (f1 f2 : Z → list Z) (K1 K2 : list Z) :
  map (λ o, (uint16 o, f1 o)) K1 = map (λ o, (uint16 o, f2 o)) K2 →
  (∀ o, o ∈ K1 → uint16 o = o) → (∀ o, o ∈ K2 → uint16 o = o) →
  K1 = K2 ∧ ∀ o, o ∈ K1 → f1 o = f2 o.
Proof.
  revert K2. induction K1 as [|o1 K1 IH]; intros [|o2 K2] Heq H1 H2;
    try done.
  - split; [done|]. intros o Ho. by apply elem_of_nil in Ho.
  - simpl in Heq. inversion Heq as [[Eo Ef Erest]].
    rewrite (H1 o1), (H2 o2) in Eo by left. subst o2.
    destruct (IH K2 Erest) as [-> Hf].
    + intros o Ho. apply H1. by right.
    + intros o Ho. apply H2. by right.
    + split; [done|]. intros o Ho.
      apply elem_of_cons in Ho as [-> | Ho]; [done | by apply Hf].
Qed.

Lemma nonEmpty_of_hashedKeys (p q : Pattern) :
  hashedKeys p = hashedKeys q →
  (∀ o, o ∈ hashedKeys p → getVals p o = getVals q o) →
  nonEmpty p = nonEmpty q.
Proof.
  intros HK Hvals. apply map_eq. intros o. apply option_eq. intros l.
  split; intros Hl.
  - destruct (nonEmpty_lookup_hashed _ _ _ Hl) as [Hin Hg].
    rewrite <- Hg, (Hvals o Hin). apply hashedKeys_elem_of. by rewrite <- HK.
  - destruct (nonEmpty_lookup_hashed _ _ _ Hl) as [Hin Hg].
    rewrite <- HK in Hin.
    rewrite <- Hg, <- (Hvals o Hin). by apply hashedKeys_elem_of.
Qed.

Lemma hashedKeys_lookup (p : Pattern) (o : Object) :
  o ∈ hashedKeys p → p !! o = Some (getVals p o) ∧ getVals p o ≠ [].
Proof.
  intros Hin. apply hashedKeys_elem_of in Hin.
  unfold nonEmpty in Hin. by apply map_lookup_filter_Some in Hin.
Qed.

Lemma Add_commute (A B : Object) (x y : Value) :
  A ≠ B →
  (Add (Add NewPattern A x true).1 B y true).1
  = (Add (Add NewPattern B y true).1 A x true).1.
Proof.
  intros Hne. rewrite !Add_pat. unfold NewPattern.
  destruct (hasValidType A x), (hasValidType B y); try done.
  unfold getVals.
  rewrite lookup_insert_ne, (lookup_insert_ne _ B A), !lookup_empty by done.
  by apply insert_insert_ne.
Qed.



(** *** Adding, deleting and reading back *)

Lemma AddList_valid (p : Pattern) (o : Object) (list_ : valueList)
    (appendMode : bool) :
  Forall (valid o) list_ →
  AddList p o list_ appendMode =
    (<[o := if appendMode then getVals p o ++ list_
            else list_ ++ getVals p o]> p, []).
Proof.
  intros Hall. unfold AddList.
  by rewrite (proj2 (find_invalid_None o list_) Hall).
Qed.

Lemma GetAt_ext (p q : Pattern) (o : Object) (id : Z) :
  p !! o = q !! o → GetAt p o id = GetAt q o id.
Proof. unfold GetAt. by intros ->. Qed.

Lemma GetAt_getVals (p : Pattern) (o : Object) (id : Z) (v : valueElt) :
  0 ≤ id → getVals p o !! Z.to_nat id = Some v →
  GetAt p o id = Some (Value_ v, ResultMatch).
Proof.
  intros H0 Hv. rewrite GetAt_nonneg by done. unfold getVals in Hv.
  destruct (p !! o) as [e|]; [by rewrite Hv | done].
Qed.

(** X15.  A value that the object admits can be read back where [Add] put
    it.  In append mode it is the last value of the object, behind the
    values that were there, which keep their indices; in prepend mode
    it is the value at index 0 and the old values move up by one.
    Nothing is logged and no other object changes. *)
Theorem Add_then_GetAt (p : Pattern) (o : Object) (v : Value) :
  hasValidType o v = true →
  let n := Z.of_nat (length (getVals p o)) in
  Add p o v true = (<[o := getVals p o ++ [elt v ValueBindingStrong]]> p, []) ∧
  GetAt (Add p o v true).1 o n = Some (v, ResultMatch) ∧
  GetAt (Add p o v true).1 o (n + 1) = Some (Nil, ResultNoId) ∧
  (∀ id, 0 ≤ id < n →
     GetAt (Add p o v true).1 o id = GetAt p o id) ∧
  GetAt (Add p o v false).1 o 0 = Some (v, ResultMatch) ∧
  (∀ id, 0 ≤ id < n →
     GetAt (Add p o v false).1 o (id + 1) = GetAt p o id) ∧
  (∀ m o' id, o' ≠ o → GetAt (Add p o v m).1 o' id = GetAt p o' id).
Proof.
  intros Hv n.
  assert (Hadd : ∀ m, Add p o v m =
    (<[o := if m then getVals p o ++ [elt v ValueBindingStrong]
            else [elt v ValueBindingStrong] ++ getVals p o]> p, [])).
  { intros m. unfold Add, addWithBinding. apply AddList_valid.
    by repeat constructor. }
  assert (Hold : ∀ id, 0 ≤ id < n →
            ∃ w, getVals p o !! Z.to_nat id = Some w ∧
                 GetAt p o id = Some (Value_ w, ResultMatch)).
  { intros id Hid.
    destruct (lookup_lt_is_Some_2 (getVals p o) (Z.to_nat id)) as [w Hw];
      [lia|].
    exists w. split; [done|]. apply GetAt_getVals; [lia | done]. }
  split; [apply (Hadd true)|]. rewrite !Hadd. cbn [fst].
  split; [|split; [|split; [|split; [|split]]]].
  - apply (GetAt_getVals _ _ _ (elt v ValueBindingStrong)); [lia|].
    unfold getVals at 1. rewrite lookup_insert_eq.
    rewrite lookup_app_r by lia.
    replace (Z.to_nat n - length (getVals p o))%nat with 0%nat by lia. done.
  - rewrite GetAt_nonneg by lia. rewrite lookup_insert_eq.
    rewrite lookup_ge_None_2; [done|].
    rewrite length_app. simpl. lia.
  - intros id Hid. destruct (Hold id Hid) as (w & Hw & ->).
    apply (GetAt_getVals _ _ _ w); [lia|].
    unfold getVals at 1. rewrite lookup_insert_eq.
    by rewrite lookup_app_l by lia.
  - apply (GetAt_getVals _ _ _ (elt v ValueBindingStrong)); [lia|].
    unfold getVals at 1. by rewrite lookup_insert_eq.
  - intros id Hid. destruct (Hold id Hid) as (w & Hw & ->).
    apply (GetAt_getVals _ _ _ w); [lia|].
    unfold getVals at 1. rewrite lookup_insert_eq.
    replace (Z.to_nat (id + 1)) with (S (Z.to_nat id)) by lia. done.
  - intros m o' id Hne. apply GetAt_ext. rewrite Hadd. cbn [fst].
    by rewrite lookup_insert_ne.
Qed.

(** X16.  After [Del] every lookup of the object answers "no match", at any
    index, negative ones included; the other objects are as they
    were; deleting an object that is not there changes nothing, and a
    value added after the deletion is the only value of the object. *)
Theorem Del_then_GetAt (p : Pattern) (o : Object) :
  (∀ id, GetAt (Del p o) o id = Some (Nil, ResultNoMatch)) ∧
  (∀ o' id, o' ≠ o → GetAt (Del p o) o' id = GetAt p o' id) ∧
  (p !! o = None → Del p o = p) ∧
  Del (Del p o) o = Del p o ∧
  (∀ v, hasValidType o v = true →
     getVals (Add (Del p o) o v true).1 o = [elt v ValueBindingStrong]).
Proof.
  unfold Del. split; [|split; [|split; [|split]]].
  - intros id. unfold GetAt. by rewrite lookup_delete_eq.
  - intros o' id Hne. apply GetAt_ext. by rewrite lookup_delete_ne.
  - apply delete_id.
  - apply delete_id, lookup_delete_eq.
  - intros v Hv. rewrite Add_pat, Hv. unfold getVals.
    by rewrite lookup_insert_eq, lookup_delete_eq.
Qed.

(** *** The lists of typed values *)

(** GetFloats returns the values with type Float at [object] *)
Definition GetFloats (p : Pattern) (object : Object) : list float :=
  foldl (λ out v,
           match Value_ v with
           | Float m => out ++ [m]
           | _ => out
           end) [] (getVals p object).

(** GetInts returns the values with type Int at [object] *)
Definition GetInts (p : Pattern) (object : Object) : list Z :=
  foldl (λ out v,
           match Value_ v with
           | Int m => out ++ [m]
           | _ => out
           end) [] (getVals p object).

(** GetMatrices returns the values with type FcMatrix at [object] *)
Definition GetMatrices (p : Pattern) (object : Object) : list Value :=
  foldl (λ out v,
           match Value_ v with
           | Matrix xx xy yx yy => out ++ [Matrix xx xy yx yy]
           | _ => out
           end) [] (getVals p object).

Definition floatOf (v : valueElt) : option float :=
  match Value_ v with Float m => Some m | _ => None end.
Definition intOf (v : valueElt) : option Z :=
  match Value_ v with Int m => Some m | _ => None end.
Definition matrixOf (v : valueElt) : option Value :=
  match Value_ v with
  | Matrix xx xy yx yy => Some (Matrix xx xy yx yy)
  | _ => None
  end.

Lemma foldl_pointwise {A B : Type} (f g : A → B → A) (l : list B) (a : A) :
  (∀ a b, f a b = g a b) → foldl f a l = foldl g a l.
Proof.
  intros Hfg. revert a. induction l as [|b l IH]; intros a; [done|].
  simpl. by rewrite Hfg, IH.
Qed.

Lemma collect_omap {A : Type} (f : valueElt → option A) (l : valueList)
    (acc : list A) :
  foldl (λ out v, match f v with Some m => out ++ [m] | None => out end)
    acc l
  = acc ++ omap f l.
Proof.
  revert acc. induction l as [|v l IH]; intros acc; simpl.
  - by rewrite app_nil_r.
  - rewrite IH. destruct (f v); [by rewrite <- app_assoc | done].
Qed.

Lemma GetFloats_omap (p : Pattern) (o : Object) :
  GetFloats p o = omap floatOf (getVals p o).
Proof.
  rewrite <- (app_nil_l (omap _ _)), <- collect_omap. unfold GetFloats.
  apply foldl_pointwise. intros out v. unfold floatOf. by destruct (Value_ v).
Qed.

Lemma GetInts_omap (p : Pattern) (o : Object) :
  GetInts p o = omap intOf (getVals p o).
Proof.
  rewrite <- (app_nil_l (omap _ _)), <- collect_omap. unfold GetInts.
  apply foldl_pointwise. intros out v. unfold intOf. by destruct (Value_ v).
Qed.

Lemma GetMatrices_omap (p : Pattern) (o : Object) :
  GetMatrices p o = omap matrixOf (getVals p o).
Proof.
  rewrite <- (app_nil_l (omap _ _)), <- collect_omap. unfold GetMatrices.
  apply foldl_pointwise. intros out v. unfold matrixOf. by destruct (Value_ v).
Qed.

Lemma getVals_Add (p : Pattern) (o : Object) (v : Value) :
  hasValidType o v = true →
  getVals (Add p o v true).1 o = getVals p o ++ [elt v ValueBindingStrong].
Proof.
  intros Hv. rewrite Add_pat, Hv. unfold getVals at 1.
  by rewrite lookup_insert_eq.
Qed.

(** X17.  [GetFloats], [GetInts] and [GetMatrices] return the values of
    their type in the order of the value list, skipping the others,
    and the empty list for an object that is not there.  A typed add
    extends the list of its own type at the end and leaves the two
    other lists alone; when [GetFloat] finds a float, it is the first
    element of [GetFloats], but [GetFloats] can be non-empty where
    [GetFloat] finds nothing, since [GetFloat] looks at index 0
    only. *)
Theorem typed_lists (p : Pattern) (o : Object) :
  (p !! o = None →
     GetFloats p o = [] ∧ GetInts p o = [] ∧ GetMatrices p o = []) ∧
  (∀ f, admissible o KFloat = true →
     GetFloats (AddFloat p o f).1 o = GetFloats p o ++ [f] ∧
     GetInts (AddFloat p o f).1 o = GetInts p o ∧
     GetMatrices (AddFloat p o f).1 o = GetMatrices p o) ∧
  (∀ n, admissible o KInt = true →
     GetInts (AddInteger p o n).1 o = GetInts p o ++ [n] ∧
     GetFloats (AddInteger p o n).1 o = GetFloats p o ∧
     GetMatrices (AddInteger p o n).1 o = GetMatrices p o) ∧
  (∀ f, GetFloat p o = Some (f, true) →
     ∃ rest, GetFloats p o = f :: rest) ∧
  (∀ n b l f, p !! o = Some (elt (Int n) b :: l ++ [elt (Float f) b]) →
     GetFloat p o = Some (0%float, false) ∧ f ∈ GetFloats p o).
Proof.
  split; [|split; [|split; [|split]]].
  - intros Hn. unfold GetFloats, GetInts, GetMatrices, getVals.
    by rewrite Hn.
  - intros f Ha. rewrite !GetFloats_omap, !GetInts_omap, !GetMatrices_omap.
    unfold AddFloat. rewrite getVals_Add by done.
    rewrite !omap_app. cbn. by rewrite !app_nil_r.
  - intros n Ha. rewrite !GetFloats_omap, !GetInts_omap, !GetMatrices_omap.
    unfold AddInteger. rewrite getVals_Add by done.
    rewrite !omap_app. cbn. by rewrite !app_nil_r.
  - intros f Hf. rewrite GetFloat_0 in Hf. rewrite GetFloats_omap.
    unfold found, getVals in *. destruct (p !! o) as [[|v l]|]; try done.
    change (Z.to_nat 0) with 0%nat in Hf. cbn in Hf.
    unfold floatOf at 1. cbn.
    destruct (Value_ v) as [| | |f0| | | | |]; try done.
    apply (f_equal (λ r, match r with Some (x, _) => x | None => f end)) in Hf.
    cbn in Hf. subst f0. by eexists.
  - intros n b l f Hp. rewrite GetFloat_0, GetFloats_omap.
    unfold found, getVals. rewrite Hp. cbn. split; [done|].
    rewrite omap_app. apply elem_of_app. right. cbn. left.
Qed.

(** *** [canon], empty value lists and the hash *)

Lemma Hash_nonEmpty (P Q : Pattern) :
  nonEmpty P = nonEmpty Q → Hash P = Hash Q.
Proof.
  intros Heq. rewrite !Hash_concat.
  destruct (hashedKeys_determined P Q Heq) as [HK Hvals].
  rewrite <- HK. f_equal. apply map_ext_in. intros o Ho.
  apply list_elem_of_In in Ho. by rewrite (Hvals o Ho).
Qed.

Lemma canon_delete (p : Pattern) (o : Object) :
  canon p o = if decide (getVals p o = []) then delete o p else p.
Proof.
  unfold canon, getVals. destruct (p !! o) as [e|]; [|done].
  destruct e; by cbn.
Qed.

Lemma nonEmpty_delete_empty (p : Pattern) (o : Object) :
  getVals p o = [] → nonEmpty (delete o p) = nonEmpty p.
Proof.
  intros He. unfold nonEmpty. rewrite map_filter_delete.
  apply delete_id. apply map_lookup_filter_None. unfold getVals in He.
  destruct (p !! o) as [e|]; [|by left].
  right. intros x Hx. inversion Hx; subst. cbn. by intros Hn.
Qed.

Lemma canon_Hash (p : Pattern) (o : Object) : Hash (canon p o) = Hash p.
Proof.
  rewrite canon_delete. destruct (decide (getVals p o = [])); [|done].
  apply Hash_nonEmpty. by apply nonEmpty_delete_empty.
Qed.

(** X18.  [canon] removes an object exactly when it holds no value, and so
    changes nothing that the value lists or the hash show: every
    object has the values it had, the hash is the same, and a second
    [canon] does nothing.  What changes is the answer of [GetAt] for
    an object with an empty list: "no id" before, "no match" after. *)
Theorem canon_keeps_values_and_hash (p : Pattern) (o : Object) :
  (∀ o', getVals (canon p o) o' = getVals p o') ∧
  Hash (canon p o) = Hash p ∧
  canon (canon p o) o = canon p o ∧
  (getVals p o ≠ [] → canon p o = p) ∧
  (getVals p o = [] → canon p o !! o = None) ∧
  (p !! o = Some [] →
     GetAt p o 0 = Some (Nil, ResultNoId) ∧
     GetAt (canon p o) o 0 = Some (Nil, ResultNoMatch)).
Proof.
  split; [|split; [apply canon_Hash|]].
  - intros o'. rewrite canon_delete.
    destruct (decide (getVals p o = [])) as [He|Hne]; [|done].
    destruct (decide (o' = o)) as [->|Hd].
    + rewrite He. unfold getVals. by rewrite lookup_delete_eq.
    + unfold getVals. by rewrite lookup_delete_ne.
  - rewrite (canon_delete p o).
    destruct (decide (getVals p o = [])) as [He|Hne].
    + assert (He' : getVals (delete o p) o = []).
      { unfold getVals. by rewrite lookup_delete_eq. }
      rewrite canon_delete, decide_True by done.
      split; [|split; [|split]].
      * apply delete_id, lookup_delete_eq.
      * done.
      * intros _. apply lookup_delete_eq.
      * intros Hp. unfold GetAt. by rewrite Hp, lookup_delete_eq.
    + rewrite canon_delete, decide_False by done.
      split; [done|]. split; [done|]. split; [done|].
      intros Hp. unfold getVals in Hne. by rewrite Hp in Hne.
Qed.

(** X19.  [AddList] with an empty list is not a no-op on a pattern that
    lacks the object: the object is created with an empty value list
    and nothing is logged.  The lookup at index 0 then answers "no id"
    where it answered "no match"; the hash does not change; [canon]
    undoes the call. *)
Theorem AddList_empty_creates_object
    (p : Pattern) (o : Object) (appendMode : bool) :
  p !! o = None →
  AddList p o [] appendMode = (<[o := []]> p, []) ∧
  (AddList p o [] appendMode).1 ≠ p ∧
  GetAt p o 0 = Some (Nil, ResultNoMatch) ∧
  GetAt (AddList p o [] appendMode).1 o 0 = Some (Nil, ResultNoId) ∧
  Hash (AddList p o [] appendMode).1 = Hash p ∧
  canon (AddList p o [] appendMode).1 o = p.
Proof.
  intros Hp.
  assert (Hadd : AddList p o [] appendMode = (<[o := []]> p, [])).
  { unfold AddList. cbn. unfold getVals. rewrite Hp. by destruct appendMode. }
  rewrite Hadd. cbn [fst].
  assert (Hcanon : canon (<[o := []]> p) o = p).
  { unfold canon. rewrite lookup_insert_eq. cbn.
    rewrite delete_insert_eq. by apply delete_id. }
  split; [done|]. split; [|split; [|split; [|split]]].
  - intros Heq. rewrite <- Heq, lookup_insert_eq in Hp. done.
  - unfold GetAt. by rewrite Hp.
  - unfold GetAt. by rewrite lookup_insert_eq.
  - rewrite <- Hcanon at 2. symmetry. apply canon_Hash.
  - done.
Qed.

(** *** Building and merging patterns *)

Lemma addWithBinding_cases (p : Pattern) (o : Object) (v : Value)
    (b : ValueBinding) :
  addWithBinding p o v b true =
    if hasValidType o v then (<[o := getVals p o ++ [elt v b]]> p, [])
    else (p, [(o, v)]).
Proof.
  unfold addWithBinding, AddList. cbn. by destruct (hasValidType o v).
Qed.

Lemma getVals_addWithBinding (p : Pattern) (o o' : Object) (v : Value)
    (b : ValueBinding) :
  getVals (addWithBinding p o v b true).1 o' =
    getVals p o' ++
      (if decide (o = o' ∧ hasValidType o v = true) then [elt v b] else []).
Proof.
  rewrite addWithBinding_cases.
  destruct (hasValidType o v) eqn:Hv; cbn [fst].
  - destruct (decide (o = o')) as [->|Hne].
    + rewrite decide_True by done. unfold getVals at 1.
      by rewrite lookup_insert_eq.
    + rewrite decide_False by (by intros [? _]).
      unfold getVals at 1. rewrite lookup_insert_ne by done.
      by rewrite app_nil_r.
  - rewrite decide_False by (by intros [_ ?]). by rewrite app_nil_r.
Qed.

Lemma Add_cases (p : Pattern) (o : Object) (v : Value) :
  Add p o v true =
    if hasValidType o v
    then (<[o := getVals p o ++ [elt v ValueBindingStrong]]> p, [])
    else (p, [(o, v)]).
Proof. apply addWithBinding_cases. Qed.

(** The values [BuildPattern] stores under [o], and the lines it logs. *)
Definition accepted (o : Object) (elements : list PatternElement)
  : valueList :=
  (λ el, elt (PE_Value el) ValueBindingStrong) <$>
    filter (λ el, PE_Object el = o ∧
                  hasValidType o (PE_Value el) = true) elements.

Definition rejected (elements : list PatternElement) : list LogLine :=
  (λ el, (PE_Object el, PE_Value el)) <$>
    filter (λ el, hasValidType (PE_Object el) (PE_Value el) = false) elements.

Lemma BuildPattern_loop (elements : list PatternElement) (p : Pattern)
    (lg : list LogLine) (o : Object) :
  let r := foldl (λ acc el,
                    let '(p', lg) := Add acc.1 (PE_Object el) (PE_Value el) true in
                    (p', acc.2 ++ lg)) (p, lg) elements in
  getVals r.1 o = getVals p o ++ accepted o elements ∧
  r.2 = lg ++ rejected elements.
Proof.
  revert p lg. induction elements as [|el els IH]; intros p lg.
  - cbn. unfold accepted, rejected. cbn. by rewrite !app_nil_r.
  - cbn [foldl fst snd].
    pose proof (getVals_addWithBinding p (PE_Object el) o (PE_Value el)
                  ValueBindingStrong) as Hg.
    rewrite (Add_cases p (PE_Object el) (PE_Value el)).
    rewrite addWithBinding_cases in Hg.
    unfold accepted, rejected. rewrite !filter_cons.
    destruct (hasValidType (PE_Object el) (PE_Value el)) eqn:Hv;
      cbn [fst] in Hg.
    + destruct (IH (<[PE_Object el :=
                       getVals p (PE_Object el)
                       ++ [elt (PE_Value el) ValueBindingStrong]]> p)
                  (lg ++ [])) as [IH1 IH2].
      cbn zeta in *. rewrite IH1, IH2, Hg, app_nil_r.
      rewrite (decide_False (P := true = false)) by done.
      split; [|done].
      destruct (decide (PE_Object el = o)) as [Ho|Ho].
      * subst o. rewrite !decide_True by done. cbn.
        by rewrite <- app_assoc.
      * rewrite !decide_False by (by intros [? _]). by rewrite app_nil_r.
    + destruct (IH p (lg ++ [(PE_Object el, PE_Value el)])) as [IH1 IH2].
      cbn zeta in *. rewrite IH1, IH2.
      rewrite (decide_True (P := false = false)) by done.
      rewrite decide_False.
      2:{ intros [Ho Hv']. subst o. congruence. }
      cbn. by rewrite <- app_assoc.
Qed.

(** X20.  [BuildPattern] stores under each object the values given for it
    that the object admits, in the order of the arguments and with a
    strong binding, and nothing else; the values an object does not
    admit are dropped one by one (the others of the same object are
    kept) and logged in the order of the arguments. *)
Theorem BuildPattern_contents (elements : list PatternElement) (o : Object) :
  getVals (BuildPattern elements).1 o = accepted o elements ∧
  (BuildPattern elements).2 = rejected elements ∧
  ((∀ el, el ∈ elements → PE_Object el ≠ o) →
     GetAt (BuildPattern elements).1 o 0 = Some (Nil, ResultNoMatch)).
Proof.
  destruct (BuildPattern_loop elements NewPattern [] o) as [Hg Hl].
  cbn zeta in *. unfold BuildPattern.
  assert (Hacc : getVals (foldl (λ acc el,
                    let '(p', lg) := Add acc.1 (PE_Object el) (PE_Value el) true in
                    (p', acc.2 ++ lg)) (NewPattern, []) elements).1 o
                 = accepted o elements).
  { rewrite Hg. unfold getVals, NewPattern. by rewrite lookup_empty. }
  split; [done|]. split; [done|].
  intros Hnone. unfold GetAt.
  cut (∀ p lg, p !! o = None →
         (foldl (λ acc el,
                   let '(p', lg) := Add acc.1 (PE_Object el) (PE_Value el) true in
                   (p', acc.2 ++ lg)) (p, lg) elements).1 !! o = None).
  { intros Hcut. rewrite Hcut; [done|]. apply lookup_empty. }
  clear Hg Hl Hacc. induction elements as [|el els IH]; intros p lg Hp; [done|].
  cbn [foldl fst snd]. rewrite Add_cases.
  assert (Hne : PE_Object el ≠ o) by (apply Hnone; left).
  destruct (hasValidType (PE_Object el) (PE_Value el)).
  - apply IH; [intros el' Hel'; apply Hnone; by right|].
    by rewrite lookup_insert_ne.
  - apply IH; [intros el' Hel'; apply Hnone; by right | done].
Qed.

(** One object of [s] added value by value. *)
Lemma append_inner (o o' : Object) (l : valueList) (acc : Pattern * list LogLine) :
  getVals
    (foldl (λ acc v,
              let '(p', lg) :=
                addWithBinding acc.1 o (Value_ v) (Binding v) true in
              (p', acc.2 ++ lg)) acc l).1 o'
  = getVals acc.1 o' ++
      (if decide (o = o')
       then filter (λ v, hasValidType o (Value_ v) = true) l else []).
Proof.
  revert acc. induction l as [|v l IH]; intros acc.
  - cbn. destruct (decide (o = o')); by rewrite app_nil_r.
  - cbn [foldl].
    pose proof (getVals_addWithBinding acc.1 o o' (Value_ v) (Binding v)) as Hg.
    destruct (addWithBinding acc.1 o (Value_ v) (Binding v) true)
      as [p' lg'] eqn:Hadd.
    rewrite IH. cbn [fst] in *. rewrite Hg, filter_cons.
    destruct (decide (o = o')) as [->|Hne].
    + destruct (hasValidType o' (Value_ v)) eqn:Hv.
      * rewrite !decide_True by done. rewrite <- app_assoc.
        by destruct v.
      * rewrite decide_False by (by intros [_ ?]).
        rewrite (decide_False (P := false = true)) by done.
        by rewrite app_nil_r.
    + rewrite decide_False by (by intros [? _]). by rewrite !app_nil_r.
Qed.

Lemma append_outer (entries : list (Object * valueList))
    (acc : Pattern * list LogLine) (o : Object) :
  NoDup entries.*1 →
  getVals
    (foldl (λ acc (ol : Object * valueList),
              foldl (λ acc v,
                       let '(p', lg) :=
                         addWithBinding acc.1 ol.1 (Value_ v) (Binding v) true in
                       (p', acc.2 ++ lg))
                    acc ol.2) acc entries).1 o
  = getVals acc.1 o ++
      filter (λ v, hasValidType o (Value_ v) = true)
        (getVals (list_to_map entries) o).
Proof.
  revert acc. induction entries as [|[o1 l1] entries IH]; intros acc Hnd.
  - cbn [foldl list_to_map foldr].
    replace (getVals (∅ : Pattern) o) with (@nil valueElt); [by rewrite app_nil_r|].
    unfold getVals. by rewrite lookup_empty.
  - cbn [fmap list_fmap fst] in Hnd. apply NoDup_cons in Hnd as [Hnotin Hnd].
    cbn [foldl fst snd list_to_map foldr]. rewrite (IH _ Hnd).
    rewrite append_inner. rewrite <- app_assoc. f_equal.
    destruct (decide (o1 = o)) as [->|Hne].
    + unfold getVals. rewrite lookup_insert_eq.
      rewrite (not_elem_of_list_to_map_1 _ o) by done. cbn.
      by rewrite app_nil_r.
    + unfold getVals. by rewrite lookup_insert_ne.
Qed.

(** X21.  [p.append(s)] extends, for every object, the values of [p] by the
    values of [s] that the object admits, in the order they have in
    [s] and with their bindings; the values of [p] stay in front.  The
    order in which the objects of [s] are visited plays no part in the
    result. *)
Theorem append_contents (p s : Pattern) (o : Object) :
  getVals (append p s).1 o =
    getVals p o ++ filter (λ v, hasValidType o (Value_ v) = true) (getVals s o).
Proof.
  unfold append.
  rewrite (append_outer (map_to_list s) (p, []) o)
    by apply NoDup_fst_map_to_list.
  by rewrite list_to_map_to_list.
Qed.

(** *** The sorted keys *)

(** X22.  [sortedKeys] lists each object of the pattern exactly once, in
    strictly increasing order, whatever order the map is ranged in;
    objects with an empty value list are listed too. *)
Theorem sortedKeys_spec (p : Pattern) :
  (∀ o, o ∈ sortedKeys p ↔ is_Some (p !! o)) ∧
  NoDup (sortedKeys p) ∧
  StronglySorted Z.lt (sortedKeys p) ∧
  length (sortedKeys p) = size p.
Proof.
  split; [apply sortedKeys_elem_of|]. split; [apply sortedKeys_NoDup|].
  split.
  - pose proof (sortedKeys_NoDup p) as Hnd.
    pose proof (sortedKeys_Sorted p) as Hs.
    induction Hs as [|x l Hl IH Hx]; [constructor|].
    apply NoDup_cons in Hnd as [Hnotin Hnd].
    constructor; [by apply IH|].
    apply Forall_forall. intros y Hy.
    pose proof (proj1 (Forall_forall _ _) Hx y Hy) as Hle.
    assert (x ≠ y) by (intros ->; done). lia.
  - unfold sortedKeys. rewrite sortSlice_Permutation.
    by rewrite length_fmap, length_map_to_list.
Qed.

(** *** What [SubstituteDefault] keeps and what it fills in *)

Lemma fillAll_lookup_Some (l : list (Object * Value)) (p : Pattern)
    (o : Object) :
  is_Some (p !! o) → fillAll l p !! o = p !! o.
Proof.
  revert p. induction l as [|[o' v] l IH]; intros p Hp; [done|].
  change (fillAll ((o', v) :: l) p) with (fillAll l (fill o' v p)).
  assert (Hfill : fill o' v p !! o = p !! o).
  { destruct (decide (o' = o)) as [->|Hne].
    - rewrite fill_lookup. by destruct Hp as [e ->].
    - by apply fill_lookup_ne. }
  rewrite IH by (by rewrite Hfill). done.
Qed.

Lemma langFill_lookup_Some (nl : Value) (o' o : Object) (p : Pattern) :
  is_Some (p !! o) → langFill nl o' p !! o = p !! o.
Proof.
  intros Hp. destruct (decide (o' = o)) as [->|Hne].
  - unfold langFill, ifNil. by rewrite (proj2 (isNil_Some p o) Hp).
  - by apply langFill_lookup_ne.
Qed.

Lemma fillAll_lookup_None (l : list (Object * Value)) (p : Pattern)
    (o : Object) (v : Value) :
  NoDup l.*1 → (o, v) ∈ l → p !! o = None →
  fillAll l p !! o =
    if hasValidType o v then Some [elt v ValueBindingStrong] else None.
Proof.
  revert p. induction l as [|[o' v'] l IH]; intros p Hnd Hin Hp.
  - by apply elem_of_nil in Hin.
  - cbn in Hnd. apply NoDup_cons in Hnd as [Hnotin Hnd].
    change (fillAll ((o', v') :: l) p) with (fillAll l (fill o' v' p)).
    apply elem_of_cons in Hin as [Heq | Hin].
    + inversion Heq; subst o' v'.
      rewrite fillAll_lookup_notin by done.
      by rewrite fill_lookup, Hp.
    + assert (Hne : o' ≠ o).
      { intros ->. apply Hnotin.
        by apply (list_elem_of_fmap_2 fst _ (o, v)). }
      apply IH; [done | done |]. by rewrite fill_lookup_ne.
Qed.

Lemma langFill_lookup_None (nl : Value) (o : Object) (p : Pattern) :
  p !! o = None → hasValidType o nl = true → hasValidType o enUS = true →
  langFill nl o p !! o
  = Some [elt nl ValueBindingStrong; elt enUS ValueBindingWeak].
Proof.
  intros Hp Hnl Hen. unfold langFill, ifNil.
  rewrite (proj2 (isNil_None p o) Hp).
  rewrite addWithBinding_pat, Add_pat, Hnl, Hen.
  rewrite lookup_insert_eq. unfold getVals.
  by rewrite lookup_insert_eq, Hp.
Qed.

(** X23.  [SubstituteDefault] never overwrites and never removes what the
    pattern came with, the four size objects apart: an object other
    than SIZE, SCALE, DPI and PIXEL_SIZE that the pattern holds, be it
    with an empty value list, has the same value list afterwards. *)
Theorem SubstituteDefault_keeps_given (p : Pattern) (o : Object) :
  o ∉ sizeObjs → is_Some (p !! o) →
  ∃ q, SubstituteDefault p = Some q ∧ q !! o = p !! o.
Proof.
  intros Hsize Hp. exists (substituteDefault p).
  split; [apply SubstituteDefault_blocks|]. unfold substituteDefault.
  assert (H1 : fillAll fillsA p !! o = p !! o)
    by (by apply fillAll_lookup_Some).
  assert (H2 : sizeBlock (fillAll fillsA p) !! o = p !! o)
    by (by rewrite sizeBlock_lookup_other).
  assert (H3 : fillAll fillsB (sizeBlock (fillAll fillsA p)) !! o = p !! o).
  { rewrite fillAll_lookup_Some; [done | by rewrite H2]. }
  assert (H4 : langBlock (fillAll fillsB (sizeBlock (fillAll fillsA p))) !! o
               = p !! o).
  { unfold langBlock. cbv zeta.
    set (p3 := fillAll fillsB (sizeBlock (fillAll fillsA p))) in *.
    set (nl := namelangOf p3).
    assert (Ha : langFill nl FAMILYLANG p3 !! o = p !! o).
    { rewrite langFill_lookup_Some; [done | by rewrite H3]. }
    assert (Hb : langFill nl STYLELANG (langFill nl FAMILYLANG p3) !! o
                 = p !! o).
    { rewrite langFill_lookup_Some; [done | by rewrite Ha]. }
    rewrite langFill_lookup_Some; [done | by rewrite Hb]. }
  rewrite fillAll_lookup_Some; [done | by rewrite H4].
Qed.

(** X24.  The values [SubstituteDefault] supplies.  An object the pattern
    lacks is given one value with a strong binding, where the object
    admits it: the normal weight, roman slant and normal width; the
    eight boolean defaults of [boolDefaults]; font version
    [0x7fffffff]; the full hint style; the default language as name
    language; the program name when there is one; order 0. *)
Theorem SubstituteDefault_fills_missing (p : Pattern) (o : Object) (v : Value) :
  (o, v) ∈
    [ (WEIGHT, Int WEIGHT_NORMAL); (SLANT, Int SLANT_ROMAN);
      (WIDTH, Int WIDTH_NORMAL) ]
    ++ map (λ bd : Object * bool, (bd.1, boolValue bd.2)) boolDefaults
    ++ [ (FONTVERSION, Int 0x7fffffff); (HINT_STYLE, Int HINT_FULL);
         (NAMELANG, String getDefaultLang); (ORDER, Int 0) ]
    ++ (if String.eqb getProgramName "" then []
        else [(PRGNAME, String getProgramName)]) →
  p !! o = None → hasValidType o v = true →
  ∃ q, SubstituteDefault p = Some q ∧
       q !! o = Some [elt v ValueBindingStrong].
Proof.
  intros Hin Hp Hv. exists (substituteDefault p).
  split; [apply SubstituteDefault_blocks|].
  destruct groups_disjoint as (NA & NB & NC & DA & DS & DB & DL & DC).
  assert (Hcases : (o, v) ∈ fillsA ∨ (o, v) ∈ fillsB ∨ (o, v) ∈ fillsC).
  { unfold fillsA, fillsB, fillsC.
    rewrite !elem_of_app in Hin. rewrite !elem_of_app.
    destruct Hin as [Hin | [Hin | [Hin | Hin]]].
    - left. by left.
    - left. by right.
    - rewrite !elem_of_cons in Hin. rewrite !elem_of_cons.
      rewrite elem_of_nil in Hin. rewrite !elem_of_nil. tauto.
    - right. right. left.
      destruct (String.eqb getProgramName ""); [by apply elem_of_nil in Hin|].
      done. }
  destruct Hcases as [HA | [HB | HC]].
  - assert (Ho : o ∈ objsA).
    { rewrite <- fillsA_objs. by apply (list_elem_of_fmap_2 fst _ (o, v)). }
    rewrite substituteDefault_lookup_A by done.
    rewrite (fillAll_lookup_None fillsA p o v); [by rewrite Hv | | done | done].
    by rewrite fillsA_objs.
  - assert (Ho : o ∈ objsB).
    { rewrite <- fillsB_objs. by apply (list_elem_of_fmap_2 fst _ (o, v)). }
    destruct (DB o Ho) as (HnS & HnL & HnC).
    rewrite substituteDefault_lookup_B by done.
    rewrite (fillAll_lookup_None fillsB _ o v); [by rewrite Hv | | done |].
    + by rewrite fillsB_objs.
    + rewrite sizeBlock_lookup_other by done.
      rewrite fillAll_lookup_notin; [done|]. rewrite fillsA_objs.
      intros HoA. by destruct (DA o HoA) as (_ & HnB & _).
  - assert (Ho : o ∈ objsC).
    { apply fillsC_objs. by apply (list_elem_of_fmap_2 fst _ (o, v)). }
    unfold substituteDefault.
    rewrite (fillAll_lookup_None fillsC _ o v);
      [by rewrite Hv | apply fillsC_NoDup | done |].
    assert (HnA : o ∉ objsA).
    { intros HoA. by destruct (DA o HoA) as (_ & _ & _ & HnC). }
    assert (HnB : o ∉ objsB).
    { intros HoB. by destruct (DB o HoB) as (_ & _ & HnC). }
    assert (HnL : o ∉ langObjs).
    { intros HoL. by destruct (DL o HoL) as (_ & HnC). }
    rewrite langBlock_lookup_notin by done.
    rewrite fillAll_lookup_notin by (by rewrite fillsB_objs).
    rewrite sizeBlock_lookup_other by (by apply DC).
    by rewrite fillAll_lookup_notin by (by rewrite fillsA_objs).
Qed.

(** X25.  The language of the family, style and full name.  Each of
    FAMILYLANG, STYLELANG and FULLNAMELANG that the pattern lacks gets
    two values where it admits strings: the name language with a
    strong binding, then "en-us" with a weak one.  The name language
    is the first NAMELANG value of the pattern, or the default
    language when the pattern has no NAMELANG. *)
Theorem SubstituteDefault_language_defaults (p : Pattern) (o : Object) :
  o ∈ langObjs → p !! o = None → admissible o KString = true →
  ∃ q, SubstituteDefault p = Some q ∧
    (p !! NAMELANG = None → admissible NAMELANG KString = true →
       q !! o = Some [ elt (String getDefaultLang) ValueBindingStrong;
                       elt (String "en-us") ValueBindingWeak ]) ∧
    (∀ s b l, p !! NAMELANG = Some (elt (String s) b :: l) →
       q !! o = Some [ elt (String s) ValueBindingStrong;
                       elt (String "en-us") ValueBindingWeak ]).
Proof.
  intros Ho Hp Ha. exists (substituteDefault p).
  split; [apply SubstituteDefault_blocks|].
  destruct groups_disjoint as (NA & NB & NC & DA & DS & DB & DL & DC).
  rewrite substituteDefault_lookup_lang by done.
  set (p3 := fillAll fillsB (sizeBlock (fillAll fillsA p))).
  assert (Hother : ∀ o', o' ∈ langObjs → p3 !! o' = p !! o').
  { intros o' Ho'. unfold p3. destruct (DL o' Ho') as (HnS & HnC).
    rewrite fillAll_lookup_notin.
    2:{ rewrite fillsB_objs. intros HoB.
        by destruct (DB o' HoB) as (_ & HnL & _). }
    rewrite sizeBlock_lookup_other by done.
    rewrite fillAll_lookup_notin; [done|]. rewrite fillsA_objs.
    intros HoA. by destruct (DA o' HoA) as (_ & _ & HnL & _). }
  assert (Hlang : ∀ nl, hasValidType o nl = true → namelangOf p3 = nl →
            langBlock p3 !! o
            = Some [elt nl ValueBindingStrong; elt enUS ValueBindingWeak]).
  { intros nl Hnl Hnlof. unfold langBlock. cbv zeta. rewrite Hnlof.
    assert (Hp3 : p3 !! o = None) by (by rewrite Hother).
    unfold langObjs in Ho.
    apply elem_of_cons in Ho as [-> | Ho];
      [|apply elem_of_cons in Ho as [-> | Ho];
        [|apply elem_of_cons in Ho as [-> | Ho];
          [|by apply elem_of_nil in Ho]]].
    - rewrite (langFill_lookup_ne nl FULLNAMELANG FAMILYLANG),
        (langFill_lookup_ne nl STYLELANG FAMILYLANG) by obj_ne.
      by apply langFill_lookup_None.
    - rewrite (langFill_lookup_ne nl FULLNAMELANG STYLELANG) by obj_ne.
      apply langFill_lookup_None; [|done|done].
      by rewrite (langFill_lookup_ne nl FAMILYLANG STYLELANG) by obj_ne.
    - apply langFill_lookup_None; [|done|done].
      by rewrite (langFill_lookup_ne nl STYLELANG FULLNAMELANG),
        (langFill_lookup_ne nl FAMILYLANG FULLNAMELANG) by obj_ne. }
  assert (HNB : NAMELANG ∈ objsB) by (unfold objsB; obj_in).
  destruct (DB NAMELANG HNB) as (HnS & _ & _).
  assert (HnA : NAMELANG ∉ objsA).
  { intros HoA. by destruct (DA NAMELANG HoA) as (_ & HnB & _). }
  assert (Hbefore : sizeBlock (fillAll fillsA p) !! NAMELANG = p !! NAMELANG).
  { rewrite sizeBlock_lookup_other by done.
    by rewrite fillAll_lookup_notin by (by rewrite fillsA_objs). }
  split.
  - intros Hnone HaN. apply Hlang; [done|].
    unfold namelangOf, found, p3.
    rewrite (fillAll_lookup_None fillsB _ NAMELANG (String getDefaultLang));
      [ | by rewrite fillsB_objs | unfold fillsB; obj_in
        | by rewrite Hbefore ].
    unfold hasValidType. cbn [kindOf]. by rewrite HaN.
  - intros s b l Hsome. apply Hlang; [done|].
    unfold namelangOf, found, p3.
    rewrite fillAll_lookup_Some by (rewrite Hbefore, Hsome; by eexists).
    by rewrite Hbefore, Hsome.
Qed.

(** *** The size a font key reads from its pattern (pango/fcfonts) *)

Definition get_font_size (pattern : Pattern) : option float :=
  GetFloat pattern PIXEL_SIZE ≫= λ '(size, ok),
  if ok : bool then Some size
  else
    (* Just in case PIXEL_SIZE got unset between pango_make_pattern()
       and here. That would be very weird. *)
    GetFloat pattern DPI ≫= λ '(dpi, ok),
    let dpi := if ok : bool then dpi else 72%float in
    GetFloat pattern SIZE ≫= λ '(size, ok),
    if ok : bool then Some (size * dpi / 72)%float
    else
      (* Whatever *)
      Some 18%float.

Lemma get_font_size_found (p : Pattern) :
  get_font_size p =
    Some (match found p PIXEL_SIZE 0 with
          | Holds (Float f) => f
          | _ =>
              match found p SIZE 0 with
              | Holds (Float s) => (s * floatOr 72 p DPI / 72)%float
              | _ => 18%float
              end
          end).
Proof.
  unfold get_font_size, floatOr. rewrite !GetFloat_0.
  destruct (found p PIXEL_SIZE 0) as [| |[]];
    destruct (found p DPI 0) as [| |[]];
    destruct (found p SIZE 0) as [| |[]]; reflexivity.
Qed.

(** X26.  After [SubstituteDefault], the size a font key reads from the
    pattern is the pixel size the substitution resolved: the pixel
    size computed from point size, scale and dpi when the pattern had
    none, and the float the pattern had at PIXEL_SIZE otherwise.  On a
    pattern that did not go through the substitution the key falls
    back to [size * dpi / 72] with a dpi of 72 when DPI is missing
    (where the substitution assumes 75), and to 18 when the pattern
    has neither PIXEL_SIZE nor SIZE; the read never panics. *)
Theorem get_font_size_after_SubstituteDefault (p : Pattern) :
  admissible SCALE KFloat = true → admissible DPI KFloat = true →
  admissible PIXEL_SIZE KFloat = true → admissible SIZE KFloat = true →
  ∃ q, SubstituteDefault p = Some q ∧
    (getVals p PIXEL_SIZE = [] →
       get_font_size q
       = Some (sizeOf p * scaleOf p * (dpiOf p / 72))%float) ∧
    (∀ f b l, p !! PIXEL_SIZE = Some (elt (Float f) b :: l) →
       get_font_size q = Some f) ∧
    (p !! PIXEL_SIZE = None → p !! SIZE = None →
       get_font_size p = Some 18%float) ∧
    (∀ s b l, p !! PIXEL_SIZE = None → p !! DPI = None →
       p !! SIZE = Some (elt (Float s) b :: l) →
       get_font_size p = Some (s * 72 / 72)%float ∧
       get_font_size q = Some (s * scaleOf p * (75 / 72))%float).
Proof.
  intros HaS HaD HaP HaZ. exists (substituteDefault p).
  split; [apply SubstituteDefault_blocks|].
  destruct sizeObjs_elems as (H1 & H2 & H3 & H4).
  destruct (fillsA_size_reads p) as (Esize & Escale & Edpi & Epx).
  assert (Hno : getVals p PIXEL_SIZE = [] →
            get_font_size (substituteDefault p)
            = Some (sizeOf p * scaleOf p * (dpiOf p / 72))%float).
  { intros Hpx. rewrite get_font_size_found. unfold found at 1.
    rewrite substituteDefault_lookup_size by done.
    destruct (sizeBlock_without_pixel_size (fillAll fillsA p))
      as (_ & _ & -> & _); [by rewrite Epx|].
    by rewrite HaP, Esize, Escale, Edpi. }
  split; [done|]. split; [|split].
  - intros f b l Hpx. rewrite get_font_size_found. unfold found at 1.
    rewrite substituteDefault_lookup_size by done.
    destruct (sizeBlock_with_pixel_size (fillAll fillsA p)
                (elt (Float f) b) l) as (_ & _ & -> & _).
    { rewrite Epx. unfold getVals. by rewrite Hpx. }
    by rewrite fillsA_lookup_size, Hpx by done.
  - intros Hpx Hsz. rewrite get_font_size_found. unfold found.
    by rewrite Hpx, Hsz.
  - intros s b l Hpx Hdpi Hsz. split.
    + rewrite get_font_size_found. unfold floatOr, found.
      by rewrite Hpx, Hdpi, Hsz.
    + rewrite Hno by (unfold getVals; by rewrite Hpx).
      unfold sizeOf, dpiOf, floatOr, found. by rewrite Hsz, Hdpi.
Qed.

(** *** [addFullname] *)

(** FAMILY, STYLE and FULLNAME are objects like the others; the value
    [False] of [Bool], the two trimmings of white space
    ([strings.TrimRightFunc] and [strings.TrimLeftFunc] with
    [unicode.IsSpace]) and [cmpIgnoreBlanksAndCase] are declared
    outside the sources at hand. *)
Variables FAMILY STYLE FULLNAME : Object.
Variable False_ : Z.
Variables trimRightSpace trimLeftSpace : string → string.
Variable cmpIgnoreBlanksAndCase : string → string → Z.

(** The loop
    [for ; res == ResultMatch; lang, res = pat.GetAtString(object, n)]
    with the body [if lang == "en" { break }; n++; lang = ""].  Each
    round reads one index further, so the loop makes at most as many
    rounds as the object has values; [fuel] bounds the rounds.  The
    result is [lang], [res] and [n] behind the loop. *)
Fixpoint langLoop (fuel : nat) (pat : Pattern) (object : Object)
    (lang : string) (res : Result) (n : Z)
  : option (string * Result * Z) :=
  if isMatch res then
    if String.eqb lang "en" then Some (lang, res, n)
    else
      match fuel with
      | O => None
      | S fuel =>
          let n := n + 1 in
          '(lang, res) ← GetAtString pat object n;
          langLoop fuel pat object lang res n
      end
  else Some (lang, res, n).

Definition addFullname (pat : Pattern) : option (Pattern * bool) :=
  '(b, _) ← GetBool pat VARIABLE;
  if negb (b =? False_) then Some (pat, true)
  else
    let n := 0 in
    '(lang, res) ← GetAtString pat FAMILYLANG n;
    '(lang, _, n) ←
       langLoop (S (length (getVals pat FAMILYLANG))) pat FAMILYLANG lang res n;
    let n := if String.eqb lang "" then 0 else n in
    '(family, res) ← GetAtString pat FAMILY n;
    if negb (isMatch res) then Some (pat, false)
    else
      let family := trimRightSpace family in
      '(lang, res) ← GetAtString pat STYLELANG n;
      '(lang, _, n) ←
         langLoop (S (length (getVals pat STYLELANG))) pat STYLELANG lang res n;
      let n := if String.eqb lang "" then 0 else n in
      '(style, res) ← GetAtString pat STYLE n;
      if negb (isMatch res) then Some (pat, false)
      else
        let style := trimLeftSpace style in
        let sbuf := family in
        let sbuf :=
          if negb (cmpIgnoreBlanksAndCase style "Regular" =? 0)
          then (sbuf +:+ " " +:+ style)%string else sbuf in
        let pat := Del pat FULLNAME in
        let pat := (Add pat FULLNAME (String sbuf) true).1 in
        let pat := Del pat FULLNAMELANG in
        let pat := (Add pat FULLNAMELANG (String "en") true).1 in
        Some (pat, true).

(** The full name that [addFullname] builds from a family and a style. *)
Definition fullnameOf (family style : string) : string :=
  let family := trimRightSpace family in
  let style := trimLeftSpace style in
  if negb (cmpIgnoreBlanksAndCase style "Regular" =? 0)
  then (family +:+ " " +:+ style)%string else family.

Lemma GetAtString_found (p : Pattern) (object : Object) (id : Z) :
  0 ≤ id →
  GetAtString p object id =
    Some (match found p object id with
          | Absent => (EmptyString, ResultNoMatch)
          | OutOfRange => (EmptyString, ResultNoId)
          | Holds (String s) => (s, ResultMatch)
          | Holds _ => (EmptyString, ResultTypeMismatch)
          end).
Proof.
  intros H0. unfold GetAtString. rewrite (GetAt_found p object id H0).
  by destruct (found p object id) as [| |[]].
Qed.

Lemma GetBool_found (p : Pattern) (object : Object) :
  GetBool p object =
    Some (match found p object 0 with
          | Holds (Bool b) => (b, true) | _ => (0, false) end).
Proof.
  unfold GetBool. rewrite GetAt_0. by destruct (found p object 0) as [| |[]].
Qed.

Lemma found_Holds_lt (p : Pattern) (o : Object) (id : Z) (v : Value) :
  0 ≤ id → found p o id = Holds v →
  (Z.to_nat id < length (getVals p o))%nat.
Proof.
  intros H0. unfold found, getVals. destruct (p !! o) as [e|]; [|done].
  destruct (e !! Z.to_nat id) eqn:He; [|done].
  intros _. by apply lookup_lt_Some in He.
Qed.

(** With fuel for every value that is left, the loop returns; the index
    stays non-negative. *)
Lemma langLoop_Some (fuel : nat) (pat : Pattern) (object : Object)
    (lang : string) (res : Result) (n : Z) :
  0 ≤ n → (length (getVals pat object) < Z.to_nat n + fuel)%nat →
  GetAtString pat object n = Some (lang, res) →
  ∃ lang' res' n', langLoop fuel pat object lang res n
                   = Some (lang', res', n') ∧ 0 ≤ n'.
Proof.
  revert lang res n. induction fuel as [|fuel IH]; intros lang res n H0 Hf Hg.
  - rewrite GetAtString_found in Hg by done. cbn.
    destruct (found pat object n) as [| |v] eqn:Hfound.
    + inversion Hg; subst. cbn. by eexists _, _, _.
    + inversion Hg; subst. cbn. by eexists _, _, _.
    + apply found_Holds_lt in Hfound; [lia | done].
  - cbn [langLoop]. destruct (isMatch res); [|by eexists _, _, _].
    destruct (String.eqb lang "en"); [by eexists _, _, _|].
    destruct (GetAtString pat object (n + 1)) as [[lang' res']|] eqn:Hnext.
    + cbn [mbind option_bind]. apply IH; [lia | lia | done].
    + by rewrite GetAtString_found in Hnext by lia.
Qed.

Lemma langLoop_absent (fuel : nat) (pat : Pattern) (object : Object) :
  langLoop fuel pat object "" ResultNoMatch 0 = Some ("", ResultNoMatch, 0).
Proof. by destruct fuel. Qed.

Lemma addFullname_stores (pat : Pattern) (sbuf : string) :
  FULLNAME ≠ FULLNAMELANG →
  let pat' :=
    (Add (Del (Add (Del pat FULLNAME) FULLNAME (String sbuf) true).1
            FULLNAMELANG) FULLNAMELANG (String "en") true).1 in
  (∀ o, o ≠ FULLNAME → o ≠ FULLNAMELANG → pat' !! o = pat !! o) ∧
  pat' !! FULLNAMELANG =
    (if admissible FULLNAMELANG KString
     then Some [elt (String "en") ValueBindingStrong] else None) ∧
  pat' !! FULLNAME =
    (if admissible FULLNAME KString
     then Some [elt (String sbuf) ValueBindingStrong] else None).
Proof.
  intros Hne pat'. unfold pat', Del. rewrite !Add_pat. unfold hasValidType.
  cbn [kindOf]. unfold getVals.
  destruct (admissible FULLNAME KString), (admissible FULLNAMELANG KString);
    rewrite ?lookup_delete_eq.
  all: split; [intros o H1 H2|split].
  all: repeat first [ rewrite lookup_insert_eq
                    | rewrite lookup_delete_eq
                    | rewrite lookup_insert_ne by congruence
                    | rewrite lookup_delete_ne by congruence ].
  all: done.
Qed.

(** X27.  [addFullname] on every pattern.  It returns, without panic, and
    touches no object but FULLNAME and FULLNAMELANG.  A pattern whose
    VARIABLE flag is not [False] is left as it is, with the answer
    [true].  Otherwise the answer [false] leaves the pattern as it
    is, and this is the answer when FAMILY or STYLE is missing; the
    answer [true] comes with FULLNAMELANG set to the one value "en"
    and FULLNAME set to one string, each where the object admits
    strings.  When the pattern has neither FAMILYLANG nor STYLELANG,
    the full name is built from the first family and the first style:
    the family without trailing white space, followed by a space and
    the style without leading white space unless the style compares
    equal to "Regular". *)
Theorem addFullname_outcomes (pat : Pattern) :
  FULLNAME ≠ FULLNAMELANG →
  ∃ pat' ok, addFullname pat = Some (pat', ok) ∧
    (∀ o, o ≠ FULLNAME → o ≠ FULLNAMELANG → pat' !! o = pat !! o) ∧
    (ok = false → pat' = pat) ∧
    (∀ b r, GetBool pat VARIABLE = Some (b, r) → b ≠ False_ →
       pat' = pat ∧ ok = true) ∧
    (∀ r, GetBool pat VARIABLE = Some (False_, r) →
       (pat !! FAMILY = None ∨ pat !! STYLE = None → ok = false) ∧
       (ok = true →
          pat' !! FULLNAMELANG =
            (if admissible FULLNAMELANG KString
             then Some [elt (String "en") ValueBindingStrong] else None) ∧
          ∃ sbuf, pat' !! FULLNAME =
            (if admissible FULLNAME KString
             then Some [elt (String sbuf) ValueBindingStrong] else None)) ∧
       (∀ f s bf bs lf ls,
          pat !! FAMILYLANG = None → pat !! STYLELANG = None →
          pat !! FAMILY = Some (elt (String f) bf :: lf) →
          pat !! STYLE = Some (elt (String s) bs :: ls) →
          ok = true ∧
          pat' !! FULLNAME =
            (if admissible FULLNAME KString
             then Some [elt (String (fullnameOf f s)) ValueBindingStrong]
             else None))).
Proof.
  intros Hne. unfold addFullname.
  rewrite GetBool_found.
  set (bv := match found pat VARIABLE 0 with
             | Holds (Bool b) => (b, true) | _ => (0, false) end).
  destruct bv as [b r] eqn:Hbv. cbn [mbind option_bind].
  destruct (b =? False_) eqn:Hb; cbn [negb].
  { apply Z.eqb_eq in Hb. subst b.
    (* the first loop *)
    rewrite (GetAtString_found pat FAMILYLANG 0) by lia.
    set (g1 := match found pat FAMILYLANG 0 with
               | Absent => (EmptyString, ResultNoMatch)
               | OutOfRange => (EmptyString, ResultNoId)
               | Holds (String s) => (s, ResultMatch)
               | Holds _ => (EmptyString, ResultTypeMismatch)
               end).
    assert (Hg1 : GetAtString pat FAMILYLANG 0 = Some g1)
      by (by rewrite GetAtString_found by lia).
    destruct g1 as [lang1 res1] eqn:Eg1. cbn [mbind option_bind].
    destruct (langLoop_Some (S (length (getVals pat FAMILYLANG))) pat
                FAMILYLANG lang1 res1 0) as (l1 & r1 & n1 & Hloop1 & Hn1);
      [lia | lia | done |].
    rewrite Hloop1. cbn [mbind option_bind].
    set (m1 := if String.eqb l1 "" then 0 else n1).
    assert (Hm1 : 0 ≤ m1) by (unfold m1; destruct (String.eqb l1 ""); lia).
    rewrite (GetAtString_found pat FAMILY m1) by done.
    set (gf := match found pat FAMILY m1 with
               | Absent => (EmptyString, ResultNoMatch)
               | OutOfRange => (EmptyString, ResultNoId)
               | Holds (String s) => (s, ResultMatch)
               | Holds _ => (EmptyString, ResultTypeMismatch)
               end).
    destruct gf as [family resf] eqn:Egf. cbn [mbind option_bind].
    (* the facts about the simple case, before the case analysis *)
    assert (Hsimple1 : pat !! FAMILYLANG = None → m1 = 0).
    { intros Hnone. unfold m1.
      assert (g1 = (EmptyString, ResultNoMatch)) as Heq.
      { unfold g1, found. by rewrite Hnone. }
      rewrite Eg1 in Heq. inversion Heq; subst lang1 res1.
      rewrite langLoop_absent in Hloop1. by inversion Hloop1. }
    destruct (isMatch resf) eqn:Hmf; cbn [negb].
    2:{ exists pat, false. split; [done|]. split; [done|]. split; [done|].
        split.
        - intros b' r' Hgb Hb'. inversion Hgb; subst. done.
        - intros r' _. split; [done|]. split; [done|].
          intros f s bf bs lf ls HFL HSL HF HS. exfalso.
          unfold gf in Egf. rewrite (Hsimple1 HFL) in Egf. unfold found in Egf.
          rewrite HF in Egf. cbn in Egf. inversion Egf; subst. done. }
    (* the second loop *)
    rewrite (GetAtString_found pat STYLELANG m1) by done.
    set (g2 := match found pat STYLELANG m1 with
               | Absent => (EmptyString, ResultNoMatch)
               | OutOfRange => (EmptyString, ResultNoId)
               | Holds (String s) => (s, ResultMatch)
               | Holds _ => (EmptyString, ResultTypeMismatch)
               end).
    assert (Hg2 : GetAtString pat STYLELANG m1 = Some g2)
      by (by rewrite GetAtString_found by lia).
    destruct g2 as [lang2 res2] eqn:Eg2. cbn [mbind option_bind].
    destruct (langLoop_Some (S (length (getVals pat STYLELANG))) pat
                STYLELANG lang2 res2 m1) as (l2 & r2 & n2 & Hloop2 & Hn2);
      [lia | lia | done |].
    rewrite Hloop2. cbn [mbind option_bind].
    set (m2 := if String.eqb l2 "" then 0 else n2).
    assert (Hm2 : 0 ≤ m2) by (unfold m2; destruct (String.eqb l2 ""); lia).
    rewrite (GetAtString_found pat STYLE m2) by done.
    set (gs := match found pat STYLE m2 with
               | Absent => (EmptyString, ResultNoMatch)
               | OutOfRange => (EmptyString, ResultNoId)
               | Holds (String s) => (s, ResultMatch)
               | Holds _ => (EmptyString, ResultTypeMismatch)
               end).
    destruct gs as [style ress] eqn:Egs. cbn [mbind option_bind].
    assert (Hsimple2 : pat !! FAMILYLANG = None → pat !! STYLELANG = None →
                       m2 = 0).
    { intros HFL HSL. unfold m2.
      assert (g2 = (EmptyString, ResultNoMatch)) as Heq.
      { unfold g2, found. by rewrite HSL. }
      rewrite Eg2 in Heq. inversion Heq; subst lang2 res2.
      rewrite (Hsimple1 HFL), langLoop_absent in Hloop2.
      by inversion Hloop2. }
    assert (HFam : pat !! FAMILY ≠ None).
    { intros Hnone. unfold gf, found in Egf. rewrite Hnone in Egf.
      inversion Egf; subst. done. }
    destruct (isMatch ress) eqn:Hms; cbn [negb].
    2:{ exists pat, false. split; [done|]. split; [done|]. split; [done|].
        split.
        - intros b' r' Hgb Hb'. inversion Hgb; subst. done.
        - intros r' _. split; [done|]. split; [done|].
          intros f s bf bs lf ls HFL HSL HF HS. exfalso.
          unfold gs in Egs. rewrite (Hsimple2 HFL HSL) in Egs. unfold found in Egs.
          rewrite HS in Egs. cbn in Egs. inversion Egs; subst. done. }
    assert (HSty : pat !! STYLE ≠ None).
    { intros Hnone. unfold gs, found in Egs. rewrite Hnone in Egs.
      inversion Egs; subst. done. }
    cbv zeta.
    match goal with
    | |- context [Add (Del (Add (Del pat FULLNAME) FULLNAME (String ?sb) true).1
                         FULLNAMELANG) FULLNAMELANG (String "en") true] =>
        destruct (addFullname_stores pat sb Hne) as (Hother & Hlang & Hfull);
        cbv zeta in Hother, Hlang, Hfull
    end.
    eexists _, true. split; [done|]. split; [exact Hother|].
    split; [done|]. split.
    - intros b' r' Hgb Hb'. inversion Hgb; subst. done.
    - intros r' _. split; [by intros [? | ?]|]. split.
      + intros _. split; [exact Hlang|]. eexists. exact Hfull.
      + intros f s bf bs lf ls HFL HSL HF HS. split; [done|].
        rewrite Hfull.
        assert (family = f) as ->.
        { unfold gf in Egf. rewrite (Hsimple1 HFL) in Egf. unfold found in Egf.
          rewrite HF in Egf. cbn in Egf. by inversion Egf. }
        assert (style = s) as ->.
        { unfold gs in Egs. rewrite (Hsimple2 HFL HSL) in Egs. unfold found in Egs.
          rewrite HS in Egs. cbn in Egs. by inversion Egs. }
        done. }
  apply Z.eqb_neq in Hb. exists pat, true.
  split; [done|]. split; [done|]. split; [done|]. split; [done|].
  intros r' Hgb. inversion Hgb; subst. done.
Qed.

(** *** Negative indices *)

(** X28.  [GetAt] and [GetAtString] panic in exactly one situation: the
    object is in the pattern and the index is negative.  The test
    [id >= len] lets a negative index through to the slice; for an
    object that is not there the index is never looked at, and the
    answer is "no match" for any index. *)
Theorem GetAt_panics_iff (p : Pattern) (object : Object) (id : Z) :
  (GetAt p object id = None ↔ is_Some (p !! object) ∧ id < 0) ∧
  (GetAtString p object id = None ↔ is_Some (p !! object) ∧ id < 0) ∧
  (p !! object = None → GetAt p object id = Some (Nil, ResultNoMatch)).
Proof.
  assert (Hat : GetAt p object id = None ↔ is_Some (p !! object) ∧ id < 0).
  { destruct (decide (0 ≤ id)) as [H0|Hneg].
    - rewrite GetAt_found by done. split; [done | intros [_ ?]; lia].
    - unfold GetAt, index. destruct (p !! object) as [e|].
      + rewrite bool_decide_eq_false_2 by lia.
        rewrite (proj2 (Z.ltb_lt id 0)) by lia. cbn.
        split; [intros _; split; [by eexists | lia] | done].
      + split; [done | by intros [[? ?] _]]. }
  split; [done|]. split.
  - rewrite <- Hat. unfold GetAtString.
    destruct (GetAt p object id) as [[v r]|]; [|done]. cbn.
    destruct (negb (isMatch r)); done.
  - intros Hn. unfold GetAt. by rewrite Hn.
Qed.
End Typed.

(** *** The operations on concrete patterns *)

(** A numbering of the objects, that of fontconfig's object list. *)
Definition demoObjects : Objects := {|
  WEIGHT := 8; SLANT := 7; WIDTH := 9;
  HINTING := 17; VERTICAL_LAYOUT := 18; AUTOHINT := 19;
  GLOBAL_ADVANCE := 20; EMBEDDED_BITMAP := 39; DECORATIVE := 40;
  SYMBOL := 48; VARIABLE := 50;
  SIZE := 10; SCALE := 28; DPI := 26; PIXEL_SIZE := 12;
  FONTVERSION := 35; HINT_STYLE := 16; NAMELANG := 42;
  FAMILYLANG := 2; STYLELANG := 4; FULLNAMELANG := 6;
  PRGNAME := 44; ORDER := 52
|}.

(** A table of admissible kinds for those objects: numbers for the
    numeric objects, booleans for the flags, strings for the names;
    any other object takes every kind. *)
Definition demoAdmissible (o : Object) (k : Kind) : bool :=
  if bool_decide (o ∈ [8; 7; 9; 10; 28; 26; 12; 35; 16; 52]) then
    match k with KInt | KFloat | KRange => true | _ => false end
  else if bool_decide (o ∈ [17; 18; 19; 20; 39; 40; 48; 50]) then
    match k with KBool => true | _ => false end
  else if bool_decide (o ∈ [42; 2; 4; 6; 44]) then
    match k with KString => true | _ => false end
  else true.

Definition demoSubstituteDefault : Pattern → option Pattern :=
  SubstituteDefault demoAdmissible (H := demoObjects) 80 0 100 3 "en" "demo".

Definition strong (v : Value) : valueElt := elt v ValueBindingStrong.

(** A query for a 10-point font on a 96 dpi display. *)
Definition query10pt96dpi : Pattern :=
  {[ 10 := [strong (Float 10)]; 26 := [strong (Float 96)] ]}.

Example query10pt96dpi_once :
  (λ q, (q !! 10, q !! 12, q !! 26, q !! 28))
    <$> demoSubstituteDefault query10pt96dpi
  = Some (Some [strong (Float 10)],
          Some [strong (Float 0x1.aaaaaaaaaaaaap+3)],
          Some [strong (Float 96)], Some [strong (Float 1)]).
Proof. vm_compute. reflexivity. Qed.

(** C2, as the claim states it, fails: the pixel size the first run
    stores for 10 points at 96 dpi is 13.333333333333332, and the second
    run computes the point size 9.999999999999998 back from it. *)
Lemma SubstituteDefault_not_idempotent :
  ∃ q q', demoSubstituteDefault query10pt96dpi = Some q ∧
    demoSubstituteDefault q = Some q' ∧
    q !! 10 = Some [strong (Float 10)] ∧
    q' !! 10 = Some [strong (Float 0x1.3ffffffffffffp+3)] ∧
    q' ≠ q.
Proof.
  unfold demoSubstituteDefault.
  eexists _, _. rewrite !SubstituteDefault_blocks.
  split; [reflexivity|]. split; [reflexivity|].
  assert (H1 : substituteDefault demoAdmissible (H := demoObjects)
                 80 0 100 3 "en" "demo" query10pt96dpi !! 10
               = Some [strong (Float 10)]).
  { vm_compute. reflexivity. }
  assert (H2 : substituteDefault demoAdmissible (H := demoObjects)
                 80 0 100 3 "en" "demo"
                 (substituteDefault demoAdmissible (H := demoObjects)
                    80 0 100 3 "en" "demo" query10pt96dpi) !! 10
               = Some [strong (Float 0x1.3ffffffffffffp+3)]).
  { vm_compute. reflexivity. }
  split; [exact H1|]. split; [exact H2|].
  intros Heq. rewrite Heq, H1 in H2.
  apply (f_equal (λ l : option valueList,
                    match l with
                    | Some (e :: _) =>
                        PrimFloat.ltb (floatOfValue (Value_ e)) 10
                    | _ => false
                    end)) in H2.
  vm_compute in H2. discriminate H2.
Qed.

Lemma SubstituteDefault_twice_witness :
  ∃ q q', demoSubstituteDefault query10pt96dpi = Some q ∧
    demoSubstituteDefault q = Some q' ∧
    q' = sizeBlock demoAdmissible (H := demoObjects) q ∧
    (∀ o, o ≠ 10 → q' !! o = q !! o) ∧
    (getVals query10pt96dpi 12 ≠ [] → q' = q).
Proof.
  apply (SubstituteDefault_twice demoAdmissible (H := demoObjects)
           80 0 100 3 "en" "demo").
  apply (bool_decide_unpack _). vm_compute. exact I.
Defined.

(** The empty pattern gets 12 points at 75 dpi: 12.5 pixels. *)
Lemma SubstituteDefault_size_witness :
  ∃ q, demoSubstituteDefault ∅ = Some q ∧
    q !! 12 = Some [strong (Float 12.5)] ∧
    q !! 10 = Some [strong (Float 12)] ∧
    q !! 26 = Some [strong (Float 75)] ∧
    q !! 28 = Some [strong (Float 1)].
Proof.
  destruct (SubstituteDefault_size_resolution demoAdmissible
              (H := demoObjects) 80 0 100 3 "en" "demo"
              ltac:(apply (bool_decide_unpack _); vm_compute; exact I) ∅
              eq_refl eq_refl eq_refl eq_refl)
    as (q & Hq & Hno & _).
  exists q. split; [exact Hq|].
  destruct (Hno eq_refl) as (Hscale & Hdpi & Hpx & Hsize).
  repeat split; [exact Hpx | exact Hsize | exact Hdpi | exact Hscale].
Defined.

(** A pattern that holds a pixel size keeps it; the point size follows. *)
Example SubstituteDefault_pixel_size_given :
  (λ q, (q !! 10, q !! 12, q !! 26, q !! 28))
    <$> demoSubstituteDefault {[ 12 := [strong (Float 16)] ]}
  = Some (Some [strong (Float 0x1.eb851eb851eb9p+3)], Some [strong (Float 16)], None, None).
Proof. vm_compute. reflexivity. Qed.

(** C6, as the claim states it, fails for the index-0 accessors: an
    absent object and a value of another type give the same answer. *)
Lemma typed_accessors_conflate :
  GetBool ∅ 17 = GetBool {[ 17 := [strong (Int 1)] ]} 17 ∧
  GetString ∅ 17 = GetString {[ 17 := [strong (Int 1)] ]} 17 ∧
  GetInt ∅ 17 = GetInt {[ 17 := [strong (Bool 1)] ]} 17 ∧
  GetFloat ∅ 17 = GetFloat {[ 17 := [strong (Int 1)] ]} 17 ∧
  GetMatrix ∅ 17 = GetMatrix {[ 17 := [strong (Int 1)] ]} 17 ∧
  GetCharset ∅ 17 = GetCharset {[ 17 := [strong (Int 1)] ]} 17 ∧
  GetBool ∅ 17 = Some (0, false).
Proof. vm_compute. repeat split. Qed.

Lemma GetAt_distinguished_witness :
  GetAt {[ 17 := [strong (Int 1)] ]} 17 1 = Some (Nil, ResultNoId) ∧
  GetAtString {[ 17 := [strong (Int 1)] ]} 17 0
    = Some (EmptyString, ResultTypeMismatch).
Proof.
  split.
  - exact (proj1 (GetAt_distinguished_results
                    {[ 17 := [strong (Int 1)] ]} 17 1 ltac:(lia))).
  - exact (proj1 (proj2 (GetAt_distinguished_results
                           {[ 17 := [strong (Int 1)] ]} 17 0 ltac:(lia)))).
Defined.

(** A negative index into a list that is there is a run-time panic. *)
Example GetAt_negative_index :
  GetAt {[ 17 := [strong (Int 1)] ]} 17 (-1) = None.
Proof. vm_compute. reflexivity. Qed.


Example AddList_drops_whole_list :
  AddList demoAdmissible ∅ 17 [strong (Bool 1); strong (Int 2)] true
  = (∅, [(17, Int 2)]).
Proof. reflexivity. Qed.

Lemma pattern_values_admissible_witness :
  wellTyped demoAdmissible
    (AddList demoAdmissible ∅ 17 [strong (Bool 1)] true).1 ∧
  ∀ q, demoSubstituteDefault ∅ = Some q → wellTyped demoAdmissible q.
Proof.
  pose proof (pattern_values_admissible demoAdmissible (H := demoObjects)
                80 0 100 3 "en" "demo" ∅ (wellTyped_empty demoAdmissible))
    as Hall.
  split.
  - apply (proj1 Hall).
  - apply (proj1 (proj2 (proj2 (proj2 (proj2 (proj2 (proj2 (proj2 (proj2
             (proj2 (proj2 (proj2 (proj2 (proj2 Hall)))))))))))))).
Defined.

(** A value-list hash for the runs below: the bytes of the strings, one
    byte for a number, a zero for any other value. *)
Definition demoVlHash (l : valueList) : list Z :=
  flat_map (λ e,
              match Value_ e with
              | String s =>
                  map (λ a, Z.of_N (Ascii.N_of_ascii a))
                    (String.list_ascii_of_string s)
              | Int n | Bool n => [byte n]
              | _ => [0]
              end) l.

Example Hash_demo :
  Hash demoVlHash {[ 4 := [strong (String "Bold")]; 8 := [strong (Int 200)];
                     2 := [] ]}
  = [0; 4; 0; 0; 0; 4; 66; 111; 108; 100;  0; 8; 0; 0; 0; 1; 200].
Proof. vm_compute. reflexivity. Qed.




(** *** Runs of the pattern operations *)

Lemma Add_then_GetAt_witness :
  GetAt (Add demoAdmissible {[ 8 := [strong (Int 80)] ]} 8 (Int 200) true).1 8 1
  = Some (Int 200, ResultMatch).
Proof.
  exact (proj1 (proj2 (Add_then_GetAt demoAdmissible
                         {[ 8 := [strong (Int 80)] ]} 8 (Int 200) eq_refl))).
Defined.

Lemma AddList_empty_creates_object_witness :
  (AddList demoAdmissible ∅ 2 [] true).1 ≠ ∅ ∧
  Hash demoVlHash (AddList demoAdmissible ∅ 2 [] true).1 = Hash demoVlHash ∅.
Proof.
  destruct (AddList_empty_creates_object demoAdmissible demoVlHash ∅ 2 true
              ltac:(apply lookup_empty)) as (_ & Hne & _ & _ & Hhash & _).
  split; [exact Hne | exact Hhash].
Defined.

(** A weight given with the query stays; a weight that is missing is
    set to the normal weight of the run (80). *)
Lemma SubstituteDefault_keeps_given_witness :
  ∃ q, demoSubstituteDefault {[ 8 := [strong (Int 200)] ]} = Some q ∧
       q !! 8 = Some [strong (Int 200)].
Proof.
  destruct (SubstituteDefault_keeps_given demoAdmissible (H := demoObjects)
              80 0 100 3 "en" "demo" {[ 8 := [strong (Int 200)] ]} 8)
    as (q & Hq & Hlook).
  - apply (bool_decide_unpack _). vm_compute. exact I.
  - exists [strong (Int 200)]. vm_compute. reflexivity.
  - exists q. split; [exact Hq|]. rewrite Hlook. vm_compute. reflexivity.
Defined.

Lemma SubstituteDefault_fills_missing_witness :
  ∃ q, demoSubstituteDefault ∅ = Some q ∧ q !! 8 = Some [strong (Int 80)].
Proof.
  apply (SubstituteDefault_fills_missing demoAdmissible (H := demoObjects)
           80 0 100 3 "en" "demo"
           ltac:(apply (bool_decide_unpack _); vm_compute; exact I)
           ∅ 8 (Int 80)).
  - left.
  - apply lookup_empty.
  - reflexivity.
Defined.

Lemma SubstituteDefault_language_defaults_witness :
  ∃ q, demoSubstituteDefault ∅ = Some q ∧
       q !! 2 = Some [ strong (String "en");
                       elt (String "en-us") ValueBindingWeak ].
Proof.
  destruct (SubstituteDefault_language_defaults demoAdmissible
              (H := demoObjects) 80 0 100 3 "en" "demo"
              ltac:(apply (bool_decide_unpack _); vm_compute; exact I)
              ∅ 2 ltac:(left) ltac:(apply lookup_empty) eq_refl)
    as (q & Hq & Hdefault & _).
  exists q. split; [exact Hq|].
  exact (Hdefault ltac:(apply lookup_empty) eq_refl).
Defined.

(** The empty query: 12 points at 75 dpi, a font of 12.5 pixels. *)
Lemma get_font_size_witness :
  ∃ q, demoSubstituteDefault ∅ = Some q ∧
       get_font_size (H := demoObjects) q = Some 12.5%float.
Proof.
  destruct (get_font_size_after_SubstituteDefault demoAdmissible
              (H := demoObjects) 80 0 100 3 "en" "demo"
              ltac:(apply (bool_decide_unpack _); vm_compute; exact I)
              ∅ eq_refl eq_refl eq_refl eq_refl)
    as (q & Hq & Hno & _).
  exists q. split; [exact Hq|]. exact (Hno eq_refl).
Defined.

(** [pango_Fontset_key_make_pattern] builds its pattern from a weight
    given as a float: the weight is stored where the object admits
    floats, and a value of a kind the object does not admit is dropped
    and logged while the rest of the pattern is built. *)
Example BuildPattern_demo :
  BuildPattern demoAdmissible
    [ {| PE_Object := 8; PE_Value := Float 80 |};
      {| PE_Object := 7; PE_Value := Int 0 |};
      {| PE_Object := 18; PE_Value := Int 1 |};
      {| PE_Object := 8; PE_Value := Int 200 |} ]
  = ({[ 8 := [strong (Float 80); strong (Int 200)];
        7 := [strong (Int 0)] ]}, [(18, Int 1)]).
Proof. vm_compute. reflexivity. Qed.

(** A family and a style, no languages: the full name is their
    concatenation (white space and case are compared exactly here). *)
Definition demoFont : Pattern :=
  {[ 1 := [strong (String "DejaVu Sans")]; 3 := [strong (String "Bold")] ]}.

Definition demoAddFullname : Pattern → option (Pattern * bool) :=
  addFullname demoAdmissible (H := demoObjects) 1 3 5 0 (λ s, s) (λ s, s)
    (λ a b, if String.eqb a b then 0 else 1).

Lemma addFullname_outcomes_witness :
  ∃ pat', demoAddFullname demoFont = Some (pat', true) ∧
    pat' !! 5 = Some [strong (String "DejaVu Sans Bold")] ∧
    pat' !! 6 = Some [strong (String "en")].
Proof.
  destruct (addFullname_outcomes demoAdmissible (H := demoObjects) 1 3 5 0
              (λ s, s) (λ s, s) (λ a b, if String.eqb a b then 0 else 1)
              demoFont ltac:(discriminate))
    as (pat' & ok & Hrun & _ & _ & _ & Hfalse).
  destruct (Hfalse false ltac:(vm_compute; reflexivity))
    as (_ & Hlang & Hsimple).
  destruct (Hsimple "DejaVu Sans" "Bold" ValueBindingStrong
              ValueBindingStrong [] []
              ltac:(vm_compute; reflexivity) ltac:(vm_compute; reflexivity)
              ltac:(vm_compute; reflexivity) ltac:(vm_compute; reflexivity))
    as [Hok Hfull].
  subst ok. exists pat'. split; [exact Hrun|]. split; [exact Hfull|].
  exact (proj1 (Hlang eq_refl)).
Defined.
End Fontconfig.

(** ** fonts/truetype: tags *)

Module Truetype.

(** [Tag] is a [uint32]; a string is its list of bytes. *)
Definition Tag := Z.

(** [binary.BigEndian.Uint32]: the first four bytes, most significant
    first; [None] is the panic on a shorter slice. *)
Definition BigEndian_Uint32 (b : list Z) : option Z :=
  match b with
  | b0 :: b1 :: b2 :: b3 :: _ =>
      Some (Z.lor (Z.lor (Z.lor b3 (Z.shiftl b2 8)) (Z.shiftl b1 16))
              (Z.shiftl b0 24))
  | _ => None
  end.

Definition newTag (bytes : list Z) : option Tag := BigEndian_Uint32 bytes.

(** MustNewTag gives you the Tag corresponding to the acronym.  This
    function will panic if the string passed in is not 4 bytes long. *)
Definition MustNewTag (str : list Z) : option Tag :=
  let bytes := str in
  if negb (length bytes =? 4)%nat then None else newTag bytes.

(** String returns the ASCII representation of the tag. *)
Definition String_ (tag : Tag) : list Z :=
  [ Z.land (Z.shiftr tag 24) 0xFF mod 256;
    Z.land (Z.shiftr tag 16) 0xFF mod 256;
    Z.land (Z.shiftr tag 8) 0xFF mod 256;
    Z.land tag 0xFF mod 256 ].

Lemma lor_shiftl_add (lo hi k : Z) :
  0 ≤ k → 0 ≤ lo < 2 ^ k → Z.lor lo (Z.shiftl hi k) = lo + hi * 2 ^ k.
Proof.
  intros Hk Hlo. rewrite <- Z.shiftl_mul_pow2 by done.
  symmetry. apply Z.add_nocarry_lor.
  apply Z.bits_inj'. intros n Hn. rewrite Z.land_spec, Z.bits_0.
  destruct (decide (n < k)) as [Hlt|Hge].
  - rewrite Z.shiftl_spec_low by done. apply andb_false_r.
  - replace (Z.testbit lo n) with false; [done|]. symmetry.
    destruct (decide (lo = 0)) as [->|]; [apply Z.bits_0|].
    apply Z.bits_above_log2; [lia|].
    assert (Z.log2 lo < k); [|lia]. apply Z.log2_lt_pow2; lia.
Qed.

Lemma BigEndian_Uint32_value (b0 b1 b2 b3 : Z) (rest : list Z) :
  0 ≤ b0 < 256 → 0 ≤ b1 < 256 → 0 ≤ b2 < 256 → 0 ≤ b3 < 256 →
  BigEndian_Uint32 (b0 :: b1 :: b2 :: b3 :: rest)
  = Some (b3 + b2 * 2 ^ 8 + b1 * 2 ^ 16 + b0 * 2 ^ 24).
Proof.
  intros H0 H1 H2 H3. unfold BigEndian_Uint32.
  rewrite (lor_shiftl_add b3 b2 8) by lia.
  rewrite (lor_shiftl_add _ b1 16) by lia.
  rewrite (lor_shiftl_add _ b0 24) by lia. done.
Qed.

Lemma String__value (tag : Z) :
  String_ tag =
    [ (tag / 2 ^ 24) mod 256; (tag / 2 ^ 16) mod 256;
      (tag / 2 ^ 8) mod 256; tag mod 256 ].
Proof.
  unfold String_. change 0xFF with (Z.ones 8).
  rewrite !Z.land_ones, !Z.shiftr_div_pow2 by lia.
  change (2 ^ 8) with 256. by rewrite !Z.mod_mod by lia.
Qed.

(** X29.  Tags and their four-byte names convert back and forth without
    loss.  [MustNewTag] on four bytes returns a 32-bit tag whose
    [String] is the four bytes again, and [MustNewTag] on the [String]
    of a 32-bit tag returns the tag; on a name that is not four bytes
    long [MustNewTag] panics, while [String] always yields four
    bytes. *)
Theorem Tag_String_round_trip :
  (∀ str, Forall (λ b, 0 ≤ b < 256) str →
     (length str = 4%nat →
        ∃ tag, MustNewTag str = Some tag ∧ 0 ≤ tag < 2 ^ 32 ∧
               String_ tag = str) ∧
     (length str ≠ 4%nat → MustNewTag str = None)) ∧
  (∀ tag, 0 ≤ tag < 2 ^ 32 → MustNewTag (String_ tag) = Some tag) ∧
  (∀ tag, length (String_ tag) = 4%nat ∧
          Forall (λ b, 0 ≤ b < 256) (String_ tag)).
Proof.
  split; [|split].
  - intros str Hbytes. split.
    + intros Hlen.
      destruct str as [|b0 [|b1 [|b2 [|b3 [|]]]]]; try done.
      apply Forall_cons in Hbytes as [H0 Hbytes].
      apply Forall_cons in Hbytes as [H1 Hbytes].
      apply Forall_cons in Hbytes as [H2 Hbytes].
      apply Forall_cons in Hbytes as [H3 _].
      unfold MustNewTag, newTag. cbn [length Nat.eqb negb].
      rewrite BigEndian_Uint32_value by done.
      eexists. split; [done|]. split; [lia|].
      rewrite String__value.
      change (2 ^ 24) with 16777216. change (2 ^ 16) with 65536.
      change (2 ^ 8) with 256.
      repeat f_equal; Z.div_mod_to_equations; lia.
    + intros Hlen. unfold MustNewTag.
      by rewrite (proj2 (Nat.eqb_neq _ _) Hlen).
  - intros tag Htag. rewrite String__value.
    unfold MustNewTag, newTag. cbn [length Nat.eqb negb].
    rewrite BigEndian_Uint32_value by (apply Z.mod_pos_bound; lia).
    f_equal. change (2 ^ 32) with 4294967296 in Htag.
    change (2 ^ 24) with 16777216. change (2 ^ 16) with 65536.
    change (2 ^ 8) with 256.
    Z.div_mod_to_equations. lia.
  - intros tag. rewrite String__value. split; [done|].
    repeat constructor; apply Z.mod_pos_bound; lia.
Qed.

(** 'GPOS' *)
Example MustNewTag_GPOS :
  MustNewTag [71; 80; 79; 83] = Some 0x47504F53 ∧
  String_ 0x47504F53 = [71; 80; 79; 83].
Proof. by vm_compute. Qed.

End Truetype.

(** ** fonts/type1c: the subset prefix of a font name *)

Module Type1c.

(** ASCII uppercase letters *)
Definition isUpper (c : Z) : bool := (65 <=? c) && (c <=? 90).

(** The name starts with six upper-case letters and a plus sign. *)
Definition hasSubsetPrefix (name : list Z) : bool :=
  match name with
  | c0 :: c1 :: c2 :: c3 :: c4 :: c5 :: c6 :: _ =>
      (c6 =? 43) && forallb isUpper [c0; c1; c2; c3; c4; c5]
  | _ => false
  end.

(** Strip all subset prefixes of the form `ABCDEF+'.  Each round of
    the loop either drops seven bytes and goes on, or clears [keep]
    and ends the loop. *)
Fixpoint removeSubsetPrefix (name : list Z) : list Z :=
  match name with
  | c0 :: c1 :: c2 :: c3 :: c4 :: c5 :: c6 :: rest =>
      if c6 =? 43 (* '+' *) then
        let keep :=
          foldl (λ keep c, if negb (isUpper c) then false else keep)
            true [c0; c1; c2; c3; c4; c5] in
        if keep then removeSubsetPrefix rest else name
      else name
  | _ => name
  end.

Lemma keep_forallb (l : list Z) (keep : bool) :
  foldl (λ keep c, if negb (isUpper c) then false else keep) keep l
  = keep && forallb isUpper l.
Proof.
  revert keep. induction l as [|c l IH]; intros keep; cbn.
  - by rewrite andb_true_r.
  - rewrite IH. by destruct (isUpper c), keep.
Qed.

Lemma removeSubsetPrefix_step (name : list Z) :
  removeSubsetPrefix name =
    if hasSubsetPrefix name then removeSubsetPrefix (drop 7 name) else name.
Proof.
  destruct name as [|c0 [|c1 [|c2 [|c3 [|c4 [|c5 [|c6 rest]]]]]]]; try done.
  cbn [removeSubsetPrefix hasSubsetPrefix drop].
  rewrite keep_forallb. cbn [andb].
  destruct (c6 =? 43); [|done]. cbn [andb].
  by destruct (forallb isUpper [c0; c1; c2; c3; c4; c5]).
Qed.

(** [pre] is a sequence of subset prefixes, seven bytes each. *)
Inductive prefixes : list Z → Prop :=
| prefixes_nil : prefixes []
| prefixes_cons (block pre : list Z) :
    length block = 7%nat → hasSubsetPrefix block = true →
    prefixes pre → prefixes (block ++ pre).

Lemma hasSubsetPrefix_take (name : list Z) :
  hasSubsetPrefix name = true →
  length (take 7 name) = 7%nat ∧ hasSubsetPrefix (take 7 name) = true.
Proof.
  destruct name as [|c0 [|c1 [|c2 [|c3 [|c4 [|c5 [|c6 rest]]]]]]]; try done.
Qed.

(** X30.  [removeSubsetPrefix] returns the name without its leading subset
    prefixes: what it removes is a sequence of blocks of six ASCII
    upper-case letters and a plus sign, what it returns does not start
    with such a block, and so a second call changes nothing; a name
    that does not start with a subset prefix (in particular one
    shorter than seven bytes) is returned as it is. *)
Theorem removeSubsetPrefix_strips_all (name : list Z) :
  (∃ pre, name = pre ++ removeSubsetPrefix name ∧ prefixes pre) ∧
  hasSubsetPrefix (removeSubsetPrefix name) = false ∧
  removeSubsetPrefix (removeSubsetPrefix name) = removeSubsetPrefix name ∧
  (hasSubsetPrefix name = false → removeSubsetPrefix name = name) ∧
  ((length name < 7)%nat → removeSubsetPrefix name = name).
Proof.
  assert (Hmain : (∃ pre, name = pre ++ removeSubsetPrefix name ∧
                          prefixes pre) ∧
                  hasSubsetPrefix (removeSubsetPrefix name) = false).
  { remember (length name) as n eqn:Hn. revert name Hn.
    induction (lt_wf n) as [n _ IH]. intros name Hn.
    rewrite removeSubsetPrefix_step.
    destruct (hasSubsetPrefix name) eqn:Hp.
    - destruct (hasSubsetPrefix_take name Hp) as [Hlen Hblock].
      destruct (IH (length (drop 7 name))) with (name := drop 7 name)
        as [(pre & Hpre & Hpres) Hno]; [|done|].
      { rewrite length_drop. rewrite length_take in Hlen. lia. }
      split; [|done]. exists (take 7 name ++ pre). split.
      + rewrite <- app_assoc, <- Hpre. by rewrite take_drop.
      + by constructor.
    - split; [|done]. exists []. split; [done | constructor]. }
  destruct Hmain as [Hpre Hno]. split; [done|]. split; [done|].
  split; [|split].
  - rewrite (removeSubsetPrefix_step (removeSubsetPrefix name)).
    by rewrite Hno.
  - intros Hp. rewrite removeSubsetPrefix_step. by rewrite Hp.
  - intros Hlen. rewrite removeSubsetPrefix_step.
    destruct name as [|c0 [|c1 [|c2 [|c3 [|c4 [|c5 [|c6 rest]]]]]]];
      try done. cbn in Hlen. lia.
Qed.

(** `APCOOG+JFABTD+FuturaBQ-Bold' *)
Example removeSubsetPrefix_Futura :
  removeSubsetPrefix
    [65; 80; 67; 79; 79; 71; 43;  74; 70; 65; 66; 84; 68; 43;
     70; 117; 116; 117; 114; 97; 66; 81; 45; 66; 111; 108; 100]
  = [70; 117; 116; 117; 114; 97; 66; 81; 45; 66; 111; 108; 100].
Proof. reflexivity. Qed.

End Type1c.
